(** * OLLYSPA v2.5 core: a shallow embedding of [assets/js/ollyspa.core.js]

    The development models the reactive store (the [Proxy] with its [set]
    trap and the [handlers] list), the read evaluator [evalInContext],
    interpolation, the four directive handlers ([processIf], [processFor],
    [bindModel], [bindClick]) and the orchestrator [processDirectives] with
    its [render] callback, and proves properties of them.

    Modelling conventions.
    - JavaScript values are the JSON values plus [undefined]; numbers are
      integers (no floating point).
    - Strings are sequences of 8-bit code units ([string]); the character
      classes of the regular expressions are given on that range.
    - The JavaScript engine behind [new Function] is not part of the
      repository: it is a parameter of the development (Section
      variables), instantiated by a small concrete evaluator
      ([Toy.js_eval] and friends) in the closed examples.
    - The DOM is a tree of nodes; a node reference is its path from the
      top of the tree.  [node.remove()] marks the element as detached and
      leaves it in place, so that references held by the code (the
      snapshot of [querySelectorAll], the [root] captured by a [render]
      closure) stay valid, as they do in the browser; every traversal the
      browser would perform skips detached children. *)

From Stdlib Require Import ZArith Ascii String List Bool Lia.
From stdpp Require Import base option list gmap strings pretty.

Set Warnings "-register-all".

Local Open Scope Z_scope.
Local Open Scope nat_scope.

(** ** JavaScript values *)

Inductive jsval : Type :=
| VUndef
| VNull
| VBool (b : bool)
| VNum (n : Z)
| VStr (s : string)
| VArr (l : list jsval)
| VObj (o : list (string * jsval)).

(** [!!v]: the falsy values are [undefined], [null], [false], [0] and the
    empty string. *)
Definition truthy (v : jsval) : bool :=
  match v with
  | VUndef | VNull => false
  | VBool b => b
  | VNum n => negb (Z.eqb n 0)
  | VStr s => negb (String.eqb s "")
  | VArr _ | VObj _ => true
  end.

(** [Array.prototype.join] with separator [","] over already converted
    elements. *)
Fixpoint join_comma (l : list string) : string :=
  match l with
  | [] => ""
  | [s] => s
  | s :: l' => s +:+ "," +:+ join_comma l'
  end.

(** [String(v)]. Inside an array [undefined] and [null] print as the empty
    string. *)
Fixpoint to_string (v : jsval) : string :=
  match v with
  | VUndef => "undefined"
  | VNull => "null"
  | VBool true => "true"
  | VBool false => "false"
  | VNum n => pretty n
  | VStr s => s
  | VArr l =>
      join_comma
        (map (fun x => match x with
                       | VUndef | VNull => ""
                       | _ => to_string x
                       end) l)
  | VObj _ => "[object Object]"
  end.

(** [v == null] *)
Definition is_nullish (v : jsval) : bool :=
  match v with VUndef | VNull => true | _ => false end.

(** ** Strings and the regular expressions of the source *)

Module Re.

Definition code (c : ascii) : nat := nat_of_ascii c.

(** [\s] on the 8-bit range: TAB, LF, VT, FF, CR, space, NBSP. *)
Definition is_space (c : ascii) : bool :=
  let n := code c in
  ((9 <=? n) && (n <=? 13)) || (n =? 32) || (n =? 160).

(** [.] matches everything but the line terminators LF and CR. *)
Definition is_dot (c : ascii) : bool :=
  let n := code c in negb ((n =? 10) || (n =? 13)).

(** [\w] is [A-Za-z0-9_]. *)
Definition is_word (c : ascii) : bool :=
  let n := code c in
  ((48 <=? n) && (n <=? 57)) || ((65 <=? n) && (n <=? 90))
  || ((97 <=? n) && (n <=? 122)) || (n =? 95).

(** [strip_prefix p s] is [Some r] when [s = p ++ r]. *)
Fixpoint strip_prefix (p s : string) : option string :=
  match p with
  | EmptyString => Some s
  | String a p' =>
      match s with
      | String b s' => if Ascii.eqb a b then strip_prefix p' s' else None
      | EmptyString => None
      end
  end.

(** [s.includes(p)] *)
Fixpoint includes (p s : string) : bool :=
  match strip_prefix p s with
  | Some _ => true
  | None => match s with
            | EmptyString => false
            | String _ s' => includes p s'
            end
  end.

Fixpoint skip_spaces (s : string) : string :=
  match s with
  | String c s' => if is_space c then skip_spaces s' else s
  | EmptyString => s
  end.

Fixpoint all_spaces (s : string) : bool :=
  match s with
  | String c s' => is_space c && all_spaces s'
  | EmptyString => true
  end.

(** The longest prefix of [.]-characters, and what follows it. *)
Fixpoint span_dot (s : string) : string * string :=
  match s with
  | String c s' =>
      if is_dot c then let '(r, t) := span_dot s' in (String c r, t)
      else (EmptyString, s)
  | EmptyString => (EmptyString, EmptyString)
  end.

(** The longest prefix of [\w]-characters, and what follows it. *)
Fixpoint span_word (s : string) : string * string :=
  match s with
  | String c s' =>
      if is_word c then let '(r, t) := span_word s' in (String c r, t)
      else (EmptyString, s)
  | EmptyString => (EmptyString, EmptyString)
  end.

(** [\s*\}\}]: the greedy run of spaces cannot give a space back to the
    brace, so the whole run is skipped. *)
Definition close_at (s : string) : option string :=
  strip_prefix "}}" (skip_spaces s).

(** [(.+?)\s*\}\}]: the shortest non-empty run of [.]-characters that
    is followed by the closing marker. Returns the capture and the text
    after the match. *)
Fixpoint lazy_body (s : string) : option (string * string) :=
  match s with
  | EmptyString => None
  | String c s' =>
      if is_dot c then
        match close_at s' with
        | Some rest => Some (String c EmptyString, rest)
        | None =>
            match lazy_body s' with
            | Some (e, rest) => Some (String c e, rest)
            | None => None
            end
        end
      else None
  end.

(** [\s*(.+?)\s*\}\}] after the opening marker: the leading run of
    spaces is greedy, and gives spaces back to the capture when the
    rest fails. *)
Fixpoint after_open (s : string) : option (string * string) :=
  match s with
  | String c s' =>
      if is_space c then
        match after_open s' with
        | Some r => Some r
        | None => lazy_body s
        end
      else lazy_body s
  | EmptyString => None
  end.

(** One attempt of [/\{\{\s*(.+?)\s*\}\}/] at the start of [s]. *)
Definition match_interp (s : string) : option (string * string) :=
  match strip_prefix "{{" s with
  | Some s' => after_open s'
  | None => None
  end.

(** [/^\s*(\w+)\s+in\s+(.+)\s*$/]: the tail [\s+(.+)\s*$] after [in].
    [list_part] is entered after one space has been consumed. *)
Definition dot_plus_end (s : string) : option string :=
  let '(r, t) := span_dot s in
  match r with
  | EmptyString => None
  | _ => if all_spaces t then Some r else None
  end.

Fixpoint list_part (s : string) : option string :=
  match s with
  | String c s' =>
      if is_space c then
        match list_part s' with
        | Some r => Some r
        | None => dot_plus_end s
        end
      else dot_plus_end s
  | EmptyString => None
  end.

(** [forExpr.match(/^\s*(\w+)\s+in\s+(.+)\s*$/)]: the two captures. *)
Definition match_for (s : string) : option (string * string) :=
  let '(w, t) := span_word (skip_spaces s) in
  match w, t with
  | String _ _, String c _ =>
      if is_space c then
        match strip_prefix "in" (skip_spaces t) with
        | Some (String d u) =>
            if is_space d then
              match list_part u with
              | Some l => Some (w, l)
              | None => None
              end
            else None
        | _ => None
        end
      else None
  | _, _ => None
  end.

(** *** [String.prototype.replace] with a global pattern *)

(** What is left of [s] once the suffix [rest] is taken away. *)
Definition matched_text (s rest : string) : string :=
  substring 0 (String.length s - String.length rest) s.

Fixpoint last_char (s : string) : option ascii :=
  match s with
  | EmptyString => None
  | String c EmptyString => Some c
  | String _ s' => last_char s'
  end.

Section Replace.
Context {L : Type}.
(** One attempt of the pattern at the current position: the character
    before the position (for [\b]) and the remaining text are given,
    the capture and the text after the match are returned. Every
    pattern of the source consumes at least one character. *)
Variable pat : option ascii -> string -> option (string * string).
(** The replacement: it receives the capture, the matched text, the
    text before and the text after the match, and may log. *)
Variable repl : string -> string -> string -> string -> string * list L.

Fixpoint replace_go (fuel : nat) (before s : string) : string * list L :=
  match fuel with
  | 0 => (s, [])
  | S fuel' =>
      match pat (last_char before) s with
      | Some (cap, rest) =>
          let matched := matched_text s rest in
          let '(r, l1) := repl cap matched before rest in
          let '(out, l2) := replace_go fuel' (before +:+ matched) rest in
          (r +:+ out, l1 ++ l2)
      | None =>
          match s with
          | EmptyString => (EmptyString, [])
          | String c s' =>
              let '(out, l) :=
                replace_go fuel' (before +:+ String c EmptyString) s' in
              (String c out, l)
          end
      end
  end.

(** [s.replace(/pat/g, repl)]: one unit of fuel per character. *)
Definition replace_all (s : string) : string * list L :=
  replace_go (S (String.length s)) EmptyString s.
End Replace.

(** The special patterns of a replacement given as a string:
    [$$], [$&], [$`] and [$']. The patterns this is used with have no
    capture group, so [$1] and the like stay as they are. *)
Fixpoint expand_dollar (matched before after r : string) : string :=
  match r with
  | String "$" (String "$" r') =>
      String "$" (expand_dollar matched before after r')
  | String "$" (String "&" r') =>
      matched +:+ expand_dollar matched before after r'
  | String "$" (String "`" r') =>
      before +:+ expand_dollar matched before after r'
  | String "$" (String "'" r') =>
      after +:+ expand_dollar matched before after r'
  | String c r' => String c (expand_dollar matched before after r')
  | EmptyString => EmptyString
  end.

(** [/\{\{\s*(.+?)\s*\}\}/g] *)
Definition pat_interp (_ : option ascii) (s : string) := match_interp s.

(** [new RegExp(`\\{\\{\\s*${name}(.+?)\\s*\\}\\}`, 'g')]; [name] is a
    non-empty run of [\w]-characters, so the run of spaces before it
    never gives a space back. *)
Definition pat_item_expr (name : string) (_ : option ascii) (s : string)
  : option (string * string) :=
  match strip_prefix "{{" s with
  | Some s1 =>
      match strip_prefix name (skip_spaces s1) with
      | Some s2 => lazy_body s2
      | None => None
      end
  | None => None
  end.

(** [new RegExp(`\\{\\{\\s*${name}\\s*\\}\\}`, 'g')] *)
Definition pat_item (name : string) (_ : option ascii) (s : string)
  : option (string * string) :=
  match strip_prefix "{{" s with
  | Some s1 =>
      match strip_prefix name (skip_spaces s1) with
      | Some s2 =>
          match close_at s2 with
          | Some rest => Some (EmptyString, rest)
          | None => None
          end
      | None => None
      end
  | None => None
  end.

(** [new RegExp(`${name}(.+?)`, 'g')]: nothing follows the lazy group,
    which therefore takes exactly one character. *)
Definition pat_attr_expr (name : string) (_ : option ascii) (s : string)
  : option (string * string) :=
  match strip_prefix name s with
  | Some (String c rest) =>
      if is_dot c then Some (String c EmptyString, rest) else None
  | _ => None
  end.

(** [new RegExp(`\\b${name}\\b`, 'g')] *)
Definition pat_attr_word (name : string) (prev : option ascii) (s : string)
  : option (string * string) :=
  match prev with
  | Some c => if is_word c then None else
      match strip_prefix name s with
      | Some (String d rest) =>
          if is_word d then None else Some (EmptyString, String d rest)
      | Some EmptyString => Some (EmptyString, EmptyString)
      | None => None
      end
  | None =>
      match strip_prefix name s with
      | Some (String d rest) =>
          if is_word d then None else Some (EmptyString, String d rest)
      | Some EmptyString => Some (EmptyString, EmptyString)
      | None => None
      end
  end.

End Re.

(** ** The DOM *)

(** A listener registered with [addEventListener]: the closure is
    represented by the directive text it captured. *)
Inductive listener : Type :=
| OnInput (model : string)
| OnClick (clickExpr : string).

(** The part of an element the source reads and writes: its tag name, its
    attributes in document order, the displayed value of a form control
    ([node.value]) and its listeners. *)
Record elem : Type := Elem {
  tagName : string;
  attributes : list (string * string);
  value : string;
  listeners : list listener
}.

(** Text nodes and elements. [detached] records [node.remove()]: a
    detached element has no parent any more. *)
Inductive node : Type :=
| TextNode (nodeValue : string)
| Element (detached : bool) (e : elem) (childNodes : list node).

(** A node reference: the child indices from the top of the tree. *)
Definition path : Type := list nat.

Definition is_detached (n : node) : bool :=
  match n with
  | TextNode _ => false
  | Element d _ _ => d
  end.

Definition children (n : node) : list node :=
  match n with
  | TextNode _ => []
  | Element _ _ cs => cs
  end.

Fixpoint get_attr (a : string) (attrs : list (string * string)) : option string :=
  match attrs with
  | [] => None
  | (k, v) :: attrs' => if String.eqb k a then Some v else get_attr a attrs'
  end.

Fixpoint remove_attr (a : string) (attrs : list (string * string))
  : list (string * string) :=
  match attrs with
  | [] => []
  | (k, v) :: attrs' =>
      if String.eqb k a then remove_attr a attrs'
      else (k, v) :: remove_attr a attrs'
  end.

Definition has_attr (a : string) (n : node) : bool :=
  match n with
  | TextNode _ => false
  | Element _ e _ => bool_decide (is_Some (get_attr a (attributes e)))
  end.

Fixpoint lookup_node (p : path) (n : node) : option node :=
  match p with
  | [] => Some n
  | i :: p' =>
      match n with
      | TextNode _ => None
      | Element _ _ cs =>
          match cs !! i with
          | Some c => lookup_node p' c
          | None => None
          end
      end
  end.

Fixpoint alter_node (f : node -> node) (p : path) (n : node) : node :=
  match p with
  | [] => f n
  | i :: p' =>
      match n with
      | TextNode _ => n
      | Element d e cs => Element d e (alter (alter_node f p') i cs)
      end
  end.

Definition map_elem (g : elem -> elem) (n : node) : node :=
  match n with
  | TextNode _ => n
  | Element d e cs => Element d (g e) cs
  end.

Definition set_detached (d : bool) (n : node) : node :=
  match n with
  | TextNode _ => n
  | Element _ e cs => Element d e cs
  end.

Definition add_child (c : node) (n : node) : node :=
  match n with
  | TextNode _ => n
  | Element d e cs => Element d e (cs ++ [c])
  end.

Definition set_attributes (attrs : list (string * string)) (e : elem) : elem :=
  Elem (tagName e) attrs (value e) (listeners e).

Definition set_value (v : string) (e : elem) : elem :=
  Elem (tagName e) (attributes e) v (listeners e).

Definition add_listener (l : listener) (e : elem) : elem :=
  Elem (tagName e) (attributes e) (value e) (listeners e ++ [l]).

(** [root.querySelectorAll('[a]')] on the subtree [n]: the paths, relative
    to [n], of the elements below [n] that carry attribute [a], in
    document order. Detached children are no longer below [n]. *)
Section SelectList.
Variable a : string.
Variable select_node : node -> list path.

(** The children [cs], the first of which has index [i]. *)
Fixpoint select_list (cs : list node) (i : nat) : list path :=
  match cs with
  | [] => []
  | c :: cs' =>
      (if is_detached c then []
       else (if has_attr a c then [[i]] else [])
              ++ map (cons i) (select_node c))
        ++ select_list cs' (S i)
  end.
End SelectList.

Fixpoint select (a : string) (n : node) : list path :=
  match n with
  | TextNode _ => []
  | Element _ _ cs => select_list a (select a) cs 0
  end.

(** [node.cloneNode(true)]: attributes, value and the attached subtree are
    copied; listeners are not, and the copy has no parent. *)
Section CloneList.
Variable clone_node : node -> node.

Fixpoint clone_list (cs : list node) : list node :=
  match cs with
  | [] => []
  | c :: cs' =>
      if is_detached c then clone_list cs'
      else clone_node c :: clone_list cs'
  end.
End CloneList.

Fixpoint cloneNode (n : node) : node :=
  match n with
  | TextNode t => TextNode t
  | Element _ e cs =>
      Element false (Elem (tagName e) (attributes e) (value e) [])
        (clone_list cloneNode cs)
  end.

(** ** The page state *)

Inductive log_entry : Type :=
| Warn (expr : string)      (* console.warn('Expression error:', expr, e) *)
| Error (expr : string).    (* console.error('o-click error:', err) *)

(** Ghost events: which function of the source was entered on which node.
    They are not data of the program; they make the order of the passes
    and the notification rounds observable. *)
Inductive event : Type :=
| EFor (p : path)                 (* processFor(p) *)
| EIf (p : path)                  (* processIf(p) *)
| EModel (p : path)               (* bindModel(p) *)
| EClick (p : path)               (* bindClick(p) *)
| EInterp (root : path)           (* interpolate(root), called on a root *)
| ESubscribe (root : path)        (* handlers.push(render) *)
| ECall (root : path) (st : gmap string jsval).
                                  (* notify calls the render closure of
                                     [root]; [st] is the store it finds *)

(** [store] is the object [state] behind the proxy, [handlers] the list of
    [render] closures (each represented by the [root] it captured),
    [document] the DOM, [console] what was logged. *)
Record State : Type := mkState {
  store : gmap string jsval;
  handlers : list path;
  document : node;
  console : list log_entry;
  trace : list event
}.

Definition with_store (st : gmap string jsval) (s : State) : State :=
  mkState st (handlers s) (document s) (console s) (trace s).

Definition with_document (d : node) (s : State) : State :=
  mkState (store s) (handlers s) d (console s) (trace s).

Definition push_handler (h : path) (s : State) : State :=
  mkState (store s) (handlers s ++ [h]) (document s) (console s) (trace s).

Definition log_console (l : list log_entry) (s : State) : State :=
  mkState (store s) (handlers s) (document s) (console s ++ l) (trace s).

Definition log_event (e : event) (s : State) : State :=
  mkState (store s) (handlers s) (document s) (console s) (trace s ++ [e]).

(** *** DOM operations on the state *)

Definition getAttribute (p : path) (a : string) (s : State) : option string :=
  match lookup_node p (document s) with
  | Some (Element _ e _) => get_attr a (attributes e)
  | _ => None
  end.

Definition removeAttribute (p : path) (a : string) (s : State) : State :=
  with_document
    (alter_node (map_elem (fun e => set_attributes (remove_attr a (attributes e)) e))
       p (document s)) s.

(** [node.remove()] *)
Definition remove (p : path) (s : State) : State :=
  with_document (alter_node (set_detached true) p (document s)) s.

(** [node.parentNode]: [null] for a detached element and for the top. *)
Definition parentNode (p : path) (s : State) : option path :=
  match p, lookup_node p (document s) with
  | _ :: _, Some n => if is_detached n then None else Some (removelast p)
  | _, _ => None
  end.

(** [parent.appendChild(c)]: the reference of the new child is returned. *)
Definition appendChild (parent : path) (c : node) (s : State) : path * State :=
  let i := match lookup_node parent (document s) with
           | Some n => length (children n)
           | None => 0
           end in
  (parent ++ [i], with_document (alter_node (add_child c) parent (document s)) s).

Definition querySelectorAll (root : path) (a : string) (s : State) : list path :=
  match lookup_node root (document s) with
  | Some n => map (app root) (select a n)
  | None => []
  end.

(** [list.forEach] over a snapshot, threading the state. *)
Definition forEach {A : Type} (f : A -> State -> State) (l : list A) (s : State)
  : State :=
  fold_left (fun s x => f x s) l s.

(** The result of a function of the source that may throw. [OutOfFuel] is
    an artefact of the recursion bound and is shown not to occur
    ([processDirectives_fuel]). *)
Inductive outcome (A : Type) : Type :=
| Done (a : A) (s : State)
| Threw (s : State)
| OutOfFuel.
Arguments Done {A} a s.
Arguments Threw {A} s.
Arguments OutOfFuel {A}.

Definition bind {A B : Type} (o : outcome A) (k : A -> State -> outcome B)
  : outcome B :=
  match o with
  | Done a s => k a s
  | Threw s => Threw s
  | OutOfFuel => OutOfFuel
  end.

(** [list.forEach] with a callback that may throw. *)
Fixpoint forEachO {A B : Type} (f : A -> State -> outcome B) (l : list A)
  (s : State) : outcome unit :=
  match l with
  | [] => Done tt s
  | x :: l' => bind (f x s) (fun _ s' => forEachO f l' s')
  end.

(** An assignment performed by a statement run by a listener: through the
    proxy ([state.prop = v], or a bare [prop = v] resolved by
    [with(state)]), or into the object held by a field of the store
    ([data.k1...kn = v] is [WDeep "data" [k1; ...; kn] v]), which the proxy
    does not see. *)
Inductive write : Type :=
| WStore (prop : string) (v : jsval)
| WDeep (field : string) (keys : list string) (v : jsval).

Fixpoint set_field (k : string) (v : jsval) (o : list (string * jsval))
  : list (string * jsval) :=
  match o with
  | [] => [(k, v)]
  | (k', v') :: o' =>
      if String.eqb k' k then (k, v) :: o' else (k', v') :: set_field k v o'
  end.

Fixpoint get_field (k : string) (o : list (string * jsval)) : option jsval :=
  match o with
  | [] => None
  | (k', v') :: o' => if String.eqb k' k then Some v' else get_field k o'
  end.

(** [obj.k1.k2...kn = v] *)
Fixpoint set_path (keys : list string) (v : jsval) (o : jsval) : jsval :=
  match keys, o with
  | [k], VObj fs => VObj (set_field k v fs)
  | k :: keys', VObj fs =>
      match get_field k fs with
      | Some o' => VObj (set_field k (set_path keys' v o') fs)
      | None => o
      end
  | _, _ => o
  end.

Section Engine.

(** The engine. [js_eval expr st] is the completion of
    [new Function('state','data', `with(state){ with(data){ return (${expr}); } }`)(proxy, proxy.data)]
    when the target of the proxy is [st]: [None] when compiling or
    running it throws. Expressions that are read are taken to be free
    of assignments. *)
Variable js_eval : string -> gmap string jsval -> option jsval.

(** [js_eval_item name item body st]: the completion of
    [new Function(name,'state','data', `with(state){ with(data){ return ${body}; } }`)(item, proxy, proxy.data)]. *)
Variable js_eval_item :
  string -> jsval -> string -> gmap string jsval -> option jsval.

(** [js_exec body val st]: the assignments performed, in order, by
    [new Function(..., `with(state){ with(data){ ${body} } }`)] run on
    the proxy, with [val] bound when the listener passes it, and whether
    it completed ([true]) or threw ([false]). *)
Variable js_exec :
  string -> option jsval -> gmap string jsval -> list write * bool.

(** *** evalInContext *)

(** The evaluation itself, with what it logs. *)
Definition eval_read (st : gmap string jsval) (expr : string)
  : jsval * list log_entry :=
  match js_eval expr st with
  | Some v => (v, [])
  | None => (VUndef, [Warn expr])
  end.

Definition evalInContext (expr : string) (s : State) : jsval * State :=
  let '(v, l) := eval_read (store s) expr in (v, log_console l s).

(** *** interpolate *)

(** The callback of both [replace] calls:
    [(_, expr) => { const val = evalInContext(expr); return val === undefined ? '' : val; }] *)
Definition interp_callback (st : gmap string jsval)
  (expr _matched _before _after : string) : string * list log_entry :=
  let '(v, l) := eval_read st expr in
  (match v with VUndef => "" | _ => to_string v end, l).

Definition interp_string (st : gmap string jsval) (text : string)
  : string * list log_entry :=
  Re.replace_all Re.pat_interp (interp_callback st) text.

Fixpoint interp_attrs (st : gmap string jsval) (attrs : list (string * string))
  : list (string * string) * list log_entry :=
  match attrs with
  | [] => ([], [])
  | (k, v) :: attrs' =>
      let '(v', l1) :=
        if negb (String.eqb v "") && Re.includes "{{" v
        then interp_string st v else (v, []) in
      let '(r, l2) := interp_attrs st attrs' in
      ((k, v') :: r, l1 ++ l2)
  end.

(** [node.childNodes.forEach(interpolate)]: the children still attached
    are visited in order. *)
Section InterpolateList.
Variable interpolate_child : node -> node * list log_entry.

Fixpoint interpolate_list (cs : list node) : list node * list log_entry :=
  match cs with
  | [] => ([], [])
  | c :: r =>
      let '(c', lc) :=
        if is_detached c then (c, []) else interpolate_child c in
      let '(r', lr) := interpolate_list r in
      (c' :: r', lc ++ lr)
  end.
End InterpolateList.

Fixpoint interpolate_node (st : gmap string jsval) (n : node)
  : node * list log_entry :=
  match n with
  | TextNode text =>
      if Re.includes "{{" text then
        let '(t', l) := interp_string st text in (TextNode t', l)
      else (n, [])
  | Element d e cs =>
      let '(attrs', l1) := interp_attrs st (attributes e) in
      let '(cs', l2) := interpolate_list (interpolate_node st) cs in
      (Element d (set_attributes attrs' e) cs', l1 ++ l2)
  end.

Definition interpolate (root : path) (s : State) : State :=
  let s := log_event (EInterp root) s in
  match lookup_node root (document s) with
  | Some n =>
      let '(n', l) := interpolate_node (store s) n in
      log_console l
        (with_document (alter_node (fun _ => n') root (document s)) s)
  | None => s
  end.

(** *** processIf *)

Definition processIf (p : path) (s : State) : bool * State :=
  let s := log_event (EIf p) s in
  match getAttribute p "o-if" s with
  | None => (true, s)
  | Some ifExpr =>
      if String.eqb ifExpr "" then (true, s)
      else
        let '(v, s1) := evalInContext ifExpr s in
        if truthy v then (true, removeAttribute p "o-if" s1)
        else (false, remove p s1)
  end.

(** *** bindModel *)

Definition is_input_tag (t : string) : bool :=
  String.eqb t "INPUT" || String.eqb t "TEXTAREA" || String.eqb t "SELECT".

Definition node_tag (p : path) (s : State) : string :=
  match lookup_node p (document s) with
  | Some (Element _ e _) => tagName e
  | _ => ""
  end.

Definition bindModel (p : path) (s : State) : bool * State :=
  let s := log_event (EModel p) s in
  match getAttribute p "o-model" s with
  | None => (false, s)
  | Some model =>
      if String.eqb model "" then (false, s)
      else
        let '(cur, s1) := evalInContext model s in
        let s2 :=
          if is_input_tag (node_tag p s1) then
            with_document
              (alter_node
                 (map_elem (fun e =>
                    add_listener (OnInput model)
                      (set_value (if is_nullish cur then "" else to_string cur) e)))
                 p (document s1)) s1
          else s1 in
        (true, removeAttribute p "o-model" s2)
  end.

(** *** bindClick *)

Definition bindClick (p : path) (s : State) : bool * State :=
  let s := log_event (EClick p) s in
  match getAttribute p "o-click" s with
  | None => (false, s)
  | Some clickExpr =>
      if String.eqb clickExpr "" then (false, s)
      else
        let s1 :=
          with_document
            (alter_node (map_elem (add_listener (OnClick clickExpr)))
               p (document s)) s in
        (true, removeAttribute p "o-click" s1)
  end.

(** *** The render closure of processDirectives *)

(** The body of the [forEach] over [root.querySelectorAll('[o-if]')]. A
    missing attribute reads as [null], which the template literal of
    [evalInContext] prints as [null]. *)
Definition recheckIf (p : path) (s : State) : State :=
  let expr := default "null" (getAttribute p "o-if" s) in
  let '(v, s1) := evalInContext expr s in
  if truthy v then removeAttribute p "o-if" s1
  else
    match parentNode p s1 with
    | Some _ => remove p s1
    | None => s1
    end.

Definition render (root : path) (s : State) : State :=
  let s1 := interpolate root s in
  let s2 :=
    forEach (fun p s => snd (bindModel p s))
      (querySelectorAll root "o-model" s1) s1 in
  forEach recheckIf (querySelectorAll root "o-if" s2) s2.

(** *** The reactive store *)

(** [function notify() { handlers.forEach(h => h()); }] *)
Definition notify (s : State) : State :=
  forEach (fun h s => render h (log_event (ECall h (store s)) s))
    (handlers s) s.

(** The [set] trap of the proxy: [target[prop] = value; notify(); return true;] *)
Definition proxy_set (prop : string) (v : jsval) (s : State) : State :=
  notify (with_store (<[prop := v]> (store s)) s).

(** *** processFor *)

(** The callback of the [replace] calls on the loop variable's property
    accesses: the body [name ++ rest] is evaluated with [item] bound;
    [undefined] and a throw both give the empty string. *)
Definition item_callback (name : string) (item : jsval)
  (st : gmap string jsval) (rest _matched _before _after : string)
  : string * list unit :=
  (match js_eval_item name item (name +:+ rest) st with
   | Some VUndef => ""
   | Some v => to_string v
   | None => ""
   end, []).

(** The replacement [String(item)], given as a string. *)
Definition item_string (item : jsval) (_cap matched before after : string)
  : string * list unit :=
  (Re.expand_dollar matched before after (to_string item), []).

Definition subst_text (name : string) (item : jsval) (st : gmap string jsval)
  (text : string) : string :=
  let t1 := fst (Re.replace_all (Re.pat_item_expr name)
                   (item_callback name item st) text) in
  fst (Re.replace_all (Re.pat_item name) (item_string item) t1).

Definition subst_attr (name : string) (item : jsval) (st : gmap string jsval)
  (v : string) : string :=
  if negb (String.eqb v "") && Re.includes name v then
    let v1 := fst (Re.replace_all (Re.pat_attr_expr name)
                     (item_callback name item st) v) in
    fst (Re.replace_all (Re.pat_attr_word name) (item_string item) v1)
  else v.

(** What the [nodes.forEach] over the tree walker does to one node. *)
Fixpoint subst_node (name : string) (item : jsval) (st : gmap string jsval)
  (n : node) : node :=
  match n with
  | TextNode text => TextNode (subst_text name item st text)
  | Element d e cs =>
      Element d
        (set_attributes
           (map (fun kv => (fst kv, subst_attr name item st (snd kv)))
              (attributes e)) e)
        (map (subst_node name item st) cs)
  end.

(** The tree walker starts below its root: the clone itself is not in
    [nodes], its descendants are. *)
Definition subst_clone (name : string) (item : jsval) (st : gmap string jsval)
  (clone : node) : node :=
  match clone with
  | TextNode _ => clone
  | Element d e cs => Element d e (map (subst_node name item st) cs)
  end.

(** [v || []] followed by [list.forEach]: the items when the value is an
    array or falsy, [None] when [forEach] is not a function of it. *)
Definition forEach_items (v : jsval) : option (list jsval) :=
  match (if truthy v then v else VArr []) with
  | VArr items => Some items
  | _ => None
  end.

Section ProcessFor.
(** The recursive call [processDirectives(clone)]. *)
Variable processDirectives_rec : path -> State -> outcome unit.

(** The body of [list.forEach((item, idx) => ...)]. *)
Definition for_item (itemName : string) (template : node)
  (parent : option path) (item : jsval) (s : State) : outcome unit :=
  let clone := subst_clone itemName item (store s) (cloneNode template) in
  match parent with
  | Some par =>
      let '(c, s1) := appendChild par clone s in
      processDirectives_rec c s1
  | None => Threw s
  end.

Definition processFor_body (p : path) (s : State) : outcome bool :=
  let s := log_event (EFor p) s in
  match getAttribute p "o-for" s with
  | None => Done false s
  | Some forExpr =>
      if String.eqb forExpr "" then Done false s
      else
        match Re.match_for forExpr with
        | None => Done false s
        | Some (itemName, listExpr) =>
            let '(v, s1) := evalInContext listExpr s in
            let parent := parentNode p s1 in
            let template :=
              cloneNode (default (TextNode "") (lookup_node p (document s1))) in
            let s2 := remove p s1 in
            match forEach_items v with
            | Some items =>
                bind (forEachO (for_item itemName template parent) items s2)
                  (fun _ s3 => Done true s3)
            | None => Threw s2
            end
        end
  end.
End ProcessFor.

(** *** processDirectives *)

(** The statements of [processDirectives] after the repeat pass, one
definition per statement. *)

(** [Array.from(root.querySelectorAll('[o-if]')).forEach(node => processIf(node));] *)
Definition if_pass (root : path) (s : State) : State :=
  forEach (fun p s => snd (processIf p s)) (querySelectorAll root "o-if" s) s.

(** [Array.from(root.querySelectorAll('[o-model]')).forEach(node => bindModel(node));] *)
Definition model_pass (root : path) (s : State) : State :=
  forEach (fun p s => snd (bindModel p s)) (querySelectorAll root "o-model" s) s.

(** [Array.from(root.querySelectorAll('[o-click]')).forEach(node => bindClick(node));] *)
Definition click_pass (root : path) (s : State) : State :=
  forEach (fun p s => snd (bindClick p s)) (querySelectorAll root "o-click" s) s.

(** [handlers.push(render);] *)
Definition subscribe (root : path) (s : State) : State :=
  push_handler root (log_event (ESubscribe root) s).

Fixpoint processDirectives (fuel : nat) (root : path) (s : State)
  : outcome unit :=
  match fuel with
  | 0 => OutOfFuel
  | S fuel' =>
      bind (forEachO (processFor_body (processDirectives fuel'))
              (querySelectorAll root "o-for" s) s)
        (fun _ s1 =>
           Done tt
             (subscribe root
                (interpolate root
                   (click_pass root (model_pass root (if_pass root s1))))))
  end.

Definition processFor (fuel : nat) : path -> State -> outcome bool :=
  processFor_body (processDirectives fuel).

(** *** Listeners *)

Definition apply_write (w : write) (s : State) : State :=
  match w with
  | WStore prop v => proxy_set prop v s
  | WDeep field keys v =>
      with_store
        (<[field := set_path keys v (default VUndef (store s !! field))]>
           (store s)) s
  end.

(** The click listener of [bindClick]:
    [try { fn(e, proxy, proxy.data); notify(); } catch (err) { console.error(...) }] *)
Definition click_listener (clickExpr : string) (s : State) : State :=
  let '(ws, ok) := js_exec clickExpr None (store s) in
  let s1 := forEach apply_write ws s in
  if ok then notify s1 else log_console [Error clickExpr] s1.

(** The input listener of [bindModel]:
    [assign(proxy, proxy.data, node.value); notify();] *)
Definition input_listener (p : path) (model : string) (s : State) : State :=
  let v := match lookup_node p (document s) with
           | Some (Element _ e _) => value e
           | _ => ""
           end in
  let '(ws, ok) := js_exec (model +:+ " = val") (Some (VStr v)) (store s) in
  let s1 := forEach apply_write ws s in
  if ok then notify s1 else s1.

Definition listeners_of (p : path) (s : State) : list listener :=
  match lookup_node p (document s) with
  | Some (Element _ e _) => listeners e
  | _ => []
  end.

(** A click on the element [p]: its click listeners run in the order
    they were added. *)
Definition click (p : path) (s : State) : State :=
  forEach (fun l s => match l with
                      | OnClick clickExpr => click_listener clickExpr s
                      | OnInput _ => s
                      end) (listeners_of p s) s.

(** The user types [text] into the control [p]. *)
Definition input (p : path) (text : string) (s : State) : State :=
  let s1 := with_document
              (alter_node (map_elem (set_value text)) p (document s)) s in
  forEach (fun l s => match l with
                      | OnInput model => input_listener p model s
                      | OnClick _ => s
                      end) (listeners_of p s1) s1.

End Engine.

(** ** A concrete engine for the closed examples

    [Toy] evaluates the fragment of JavaScript the examples are written
    in: the literals [true], [false], [null], [undefined], decimal
    integers and single-quoted strings without escapes; dotted paths
    [a.b.c] of own properties, whose first name is resolved in the data
    object, then in the store, then among the parameters of the function;
    and, as statements, assignments [path = expression] separated by
    [;]. A name found nowhere is a [ReferenceError] (the examples use no
    name of a browser global), and a property read from [undefined] or
    [null] is a [TypeError]. *)
Module Toy.

Fixpoint rev_string (acc s : string) : string :=
  match s with
  | EmptyString => acc
  | String c s' => rev_string (String c acc) s'
  end.

Definition trim (s : string) : string :=
  rev_string "" (Re.skip_spaces (rev_string "" (Re.skip_spaces s))).

(** [s.split(c)] *)
Fixpoint split_on (c : ascii) (s : string) : list string :=
  match s with
  | EmptyString => [EmptyString]
  | String d s' =>
      if Ascii.eqb c d then EmptyString :: split_on c s'
      else match split_on c s' with
           | x :: r => String d x :: r
           | [] => [String d EmptyString]
           end
  end.

Definition is_digit (c : ascii) : bool :=
  (48 <=? Re.code c) && (Re.code c <=? 57).

Fixpoint all_chars (f : ascii -> bool) (s : string) : bool :=
  match s with
  | EmptyString => true
  | String c s' => f c && all_chars f s'
  end.

Definition is_ident (s : string) : bool :=
  match s with
  | EmptyString => false
  | String c _ => negb (is_digit c) && all_chars Re.is_word s
  end.

Fixpoint digits_value (acc : Z) (s : string) : Z :=
  match s with
  | EmptyString => acc
  | String c s' => digits_value (10 * acc + Z.of_nat (Re.code c - 48))%Z s'
  end.

(** A single-quoted literal without quote or backslash inside. *)
Definition string_literal (s : string) : option string :=
  match s with
  | String "'" s' =>
      match rev_string "" s' with
      | String "'" r =>
          let body := rev_string "" r in
          if all_chars (fun c => negb (Ascii.eqb c "'" || Ascii.eqb c "\")) body
          then Some body else None
      | _ => None
      end
  | _ => None
  end.

Definition data_of (st : gmap string jsval) : list (string * jsval) :=
  match st !! "data" with
  | Some (VObj fs) => fs
  | _ => []
  end.

(** Where a bare name resolves: [with(data)], then [with(state)], then
    the parameters. *)
Inductive binding : Type :=
| InData
| InStore
| InParams (v : jsval)
| Unbound.

Definition resolve (params : list (string * jsval)) (st : gmap string jsval)
  (x : string) : binding :=
  match get_field x (data_of st) with
  | Some _ => InData
  | None =>
      match st !! x with
      | Some _ => InStore
      | None =>
          match get_field x params with
          | Some v => InParams v
          | None => Unbound
          end
      end
  end.

(** [v.k] for an own property [k]; [None] is a [TypeError]. *)
Definition get_prop (v : jsval) (k : string) : option jsval :=
  match v with
  | VUndef | VNull => None
  | VObj fs => Some (default VUndef (get_field k fs))
  | VArr l =>
      Some (if String.eqb k "length" then VNum (Z.of_nat (length l)) else VUndef)
  | VStr s =>
      Some (if String.eqb k "length" then VNum (Z.of_nat (String.length s))
            else VUndef)
  | _ => Some VUndef
  end.

Fixpoint get_props (v : jsval) (ks : list string) : option jsval :=
  match ks with
  | [] => Some v
  | k :: ks' =>
      match get_prop v k with
      | Some v' => get_props v' ks'
      | None => None
      end
  end.

Definition eval_expr (params : list (string * jsval)) (st : gmap string jsval)
  (expr : string) : option jsval :=
  let e := trim expr in
  if String.eqb e "true" then Some (VBool true)
  else if String.eqb e "false" then Some (VBool false)
  else if String.eqb e "null" then Some VNull
  else if negb (String.eqb e "") && all_chars is_digit e
  then Some (VNum (digits_value 0 e))
  else
    match string_literal e with
    | Some lit => Some (VStr lit)
    | None =>
        match split_on "." e with
        | x :: ks =>
            if is_ident x && forallb is_ident ks then
              match resolve params st x with
              | InData => get_props (default VUndef (get_field x (data_of st))) ks
              | InStore => get_props (default VUndef (st !! x)) ks
              | InParams v => get_props v ks
              | Unbound =>
                  if String.eqb x "undefined" then get_props VUndef ks
                  else None
              end
            else None
        | [] => None
        end
    end.

(** The value the parameter [state] (the proxy) reads as. *)
Definition state_param (st : gmap string jsval) : string * jsval :=
  ("state", VObj (map_to_list st)).

Definition js_eval (expr : string) (st : gmap string jsval) : option jsval :=
  eval_expr [state_param st] st expr.

Definition js_eval_item (name : string) (item : jsval) (body : string)
  (st : gmap string jsval) : option jsval :=
  eval_expr [(name, item); state_param st] st body.

(** One assignment [path = expression]: the write it performs, if any,
    or [None] when it throws. *)
Definition exec_assign (params : list (string * jsval))
  (st : gmap string jsval) (stmt : string) : option (list write) :=
  match split_on "=" stmt with
  | [lhs; rhs] =>
      match eval_expr params st rhs with
      | None => None
      | Some v =>
          match split_on "." (trim lhs) with
          | x :: ks =>
              if is_ident x && forallb is_ident ks then
                match resolve params st x, ks with
                | InData, _ => Some [WDeep "data" (x :: ks) v]
                | InStore, [] => Some [WStore x v]
                | InStore, _ => Some [WDeep x ks v]
                | InParams _, [] => Some []
                | InParams _, k :: ks' =>
                    if String.eqb x "state" then
                      match ks' with
                      | [] => Some [WStore k v]
                      | _ => Some [WDeep k ks' v]
                      end
                    else None
                | Unbound, [] => Some []
                | Unbound, _ => None
                end
              else None
          | [] => None
          end
      end
  | _ => None
  end.

Definition store_after (w : write) (st : gmap string jsval) : gmap string jsval :=
  match w with
  | WStore prop v => <[prop := v]> st
  | WDeep field keys v =>
      <[field := set_path keys v (default VUndef (st !! field))]> st
  end.

Fixpoint exec_stmts (params : list (string * jsval)) (st : gmap string jsval)
  (stmts : list string) : list write * bool :=
  match stmts with
  | [] => ([], true)
  | stmt :: rest =>
      if String.eqb (trim stmt) "" then exec_stmts params st rest
      else
        match exec_assign params st stmt with
        | None => ([], false)
        | Some ws =>
            let '(ws', ok) :=
              exec_stmts params (fold_left (fun st w => store_after w st) ws st)
                rest in
            (ws ++ ws', ok)
        end
  end.

Definition js_exec (body : string) (val : option jsval) (st : gmap string jsval)
  : list write * bool :=
  exec_stmts
    (match val with
     | Some v => [("val", v); state_param st]
     | None => [state_param st]
     end) st (split_on ";" body).

Definition processDirectives := processDirectives js_eval js_eval_item.
Definition notify := notify js_eval.
Definition proxy_set := proxy_set js_eval.
Definition render := render js_eval.
Definition click := click js_eval js_exec.
Definition input := input js_eval js_exec.

End Toy.

(** * Properties *)

(** ** What a pass leaves alone *)

Definition is_call (e : event) : bool :=
  match e with ECall _ _ => true | _ => false end.

(** The notification events of a trace. *)
Definition calls (t : list event) : list event := List.filter is_call t.

(** [frame s s']: going from [s] to [s'] changed neither the store nor the
    subscriber list, and called no subscriber. *)
Definition frame (s s' : State) : Prop :=
  store s' = store s /\ handlers s' = handlers s
  /\ calls (trace s') = calls (trace s).


(** ** Notification rounds *)

(** [N] writes through the proxy, one after the other. *)
Definition write_all (js_eval : string -> gmap string jsval -> option jsval)
  (ws : list (string * jsval)) (s : State) : State :=
  fold_left (fun s w => proxy_set js_eval (fst w) (snd w) s) ws s.

(** One full round per write: every subscriber of [hs], in order, called
    on the store as the write left it. *)
Fixpoint rounds (hs : list path) (st : gmap string jsval)
  (ws : list (string * jsval)) : list event :=
  match ws with
  | [] => []
  | w :: ws' =>
      map (fun h => ECall h (<[fst w := snd w]> st)) hs
        ++ rounds hs (<[fst w := snd w]> st) ws'
  end.


(** ** Elements present in the document *)

(** [present n q]: the node reached from [n] along [q] is still below
    [n], no element on the way (itself included) has been detached. *)
Fixpoint present (n : node) (q : path) : bool :=
  match q with
  | [] => true
  | i :: q' =>
      match children n !! i with
      | Some c => negb (is_detached c) && present c q'
      | None => false
      end
  end.

(** [below root q s]: [root ++ q] is an element or text node of the
    subtree of [root], different from [root] and present in it. *)
Definition below (root q : path) (s : State) : Prop :=
  q <> [] /\ exists n, lookup_node root (document s) = Some n
                       /\ present n q = true
                       /\ is_Some (lookup_node q n).




(** The displayed value of the control [p]. *)
Definition displayed (p : path) (s : State) : option string :=
  match lookup_node p (document s) with
  | Some (Element _ e _) => Some (value e)
  | _ => None
  end.

(** An element still attached to its parent. *)
Definition is_rendered (c : node) : bool :=
  match c with
  | Element d _ _ => negb d
  | TextNode _ => false
  end.

(** The number of elements rendered as children of [par]. *)
Definition rendered (par : path) (s : State) : nat :=
  match lookup_node par (document s) with
  | Some n => length (List.filter is_rendered (children n))
  | None => 0
  end.

(** ** Closed examples *)

Module Ex.

Definition el (tag : string) (attrs : list (string * string))
(cs : list node) : node :=
Element false (Elem tag attrs "" []) cs.

(** A page whose store holds [data] and the route [home], before any
  processing. *)
Definition page (data : jsval) (doc : node) : State :=
mkState (<["data" := data]> (<["route" := VStr "home"]> ∅)) [] doc [] [].

(** The state a call left behind. *)
Definition after (o : outcome unit) (s0 : State) : State :=
match o with
| Done _ s => s
| Threw s => s
| OutOfFuel => s0
end.

Definition first_pass (s : State) : State :=
after (Toy.processDirectives 4 [] s) s.


(** [<div><p o-if="showBox">hello</p></div>] with [data.showBox = true] *)
Definition if_page : State :=
page (VObj [("showBox", VBool true)])
  (el "DIV" [] [el "P" [("o-if", "showBox")] [TextNode "hello"]]).

(** [<div><input o-model="userName"></div>] with [data.userName = "ann"] *)
Definition model_page : State :=
page (VObj [("userName", VStr "ann")])
  (el "DIV" [] [el "INPUT" [("o-model", "userName")] []]).

(** [<div><ul><li o-for="c in userName">x</li></ul></div>]: the list
  expression is a string. *)
Definition for_string_page : State :=
page (VObj [("userName", VStr "ann")])
  (el "DIV" [] [el "UL" [] [el "LI" [("o-for", "c in userName")] [TextNode "x"]]]).

(** [<div><ul><li o-for="t in todoList">{{ t }}</li></ul></div>] *)
Definition for_page : State :=
page (VObj [("todoList", VArr [VStr "a"; VStr "b"])])
  (el "DIV" [] [el "UL" [] [el "LI" [("o-for", "t in todoList")]
                              [TextNode "{{ t }}"]]]).



(** A page with every directive:
    [<div><p o-if="showBox">hello {{ userName }}</p>
          <input o-model="userName">
          <ul><li o-for="t in todoList" class="c">item {{ t }}</li></ul>
          <button o-click="route = 'about'"></button></div>] *)
Definition first_page : State :=
page (VObj [("showBox", VBool true); ("userName", VStr "ann");
            ("todoList", VArr [VStr "a"; VStr "b"])])
  (el "DIV" []
     [el "P" [("o-if", "showBox")] [TextNode "hello {{ userName }}"];
      el "INPUT" [("o-model", "userName")] [];
      el "UL" [] [el "LI" [("o-for", "t in todoList"); ("class", "c")]
                    [TextNode "item {{ t }}"]];
      el "BUTTON" [("o-click", "route = 'about'")] []]).

End Ex.

(** ** Observing nodes through paths *)

Definition node_attr (a : string) (n : node) : option string :=
  match n with
  | TextNode _ => None
  | Element _ e _ => get_attr a (attributes e)
  end.

(** [f] leaves the list of children alone. *)
Definition local (f : node -> node) : Prop :=
  forall n, children (f n) = children n.

(** [obs] looks at a node without looking into its children. *)
Definition shallow {A : Type} (obs : node -> A) : Prop :=
  forall d e cs cs', length cs = length cs' ->
                     obs (Element d e cs) = obs (Element d e cs').

(** [node_evolve a n n']: whatever is present below [n'] was present
    below [n], and a non-empty attribute [a] there was non-empty before. *)
Definition node_evolve (a : string) (n n' : node) : Prop :=
  forall q, q <> [] -> present n' q = true -> is_Some (lookup_node q n') ->
    present n q = true /\ is_Some (lookup_node q n)
    /\ forall v, lookup_node q n' ≫= node_attr a = Some v -> v <> "" ->
         exists v', lookup_node q n ≫= node_attr a = Some v' /\ v' <> "".

(** The same between two states, for the subtree of [root]. *)
Definition evolve (a : string) (root : path) (s s' : State) : Prop :=
  forall q, below root q s' ->
    below root q s
    /\ forall v, getAttribute (root ++ q) a s' = Some v -> v <> "" ->
         exists v', getAttribute (root ++ q) a s = Some v' /\ v' <> "".


(** What [interpolate] does to a child of the node it visits. *)
Definition interpolated_child
  (js_eval : string -> gmap string jsval -> option jsval)
  (st : gmap string jsval) (c : node) : node :=
  if is_detached c then c else fst (interpolate_node js_eval st c).


(** ** The shape of the document *)

(** Text node or element, and the number of children. *)
Definition kind (n : node) : bool * nat :=
  (match n with TextNode _ => true | Element _ _ _ => false end,
   length (children n)).

(** [flags_rel R n n']: [n'] has the nodes of [n], of the same kind at the
    same paths, and [R] relates their [detached] flags. *)
Definition flags_rel (R : bool -> bool -> Prop) (n n' : node) : Prop :=
  forall q,
    kind <$> lookup_node q n' = kind <$> lookup_node q n
    /\ forall m m', lookup_node q n = Some m -> lookup_node q n' = Some m' ->
                    R (is_detached m) (is_detached m').

(** Elements may have been detached, none attached again. *)
Definition only_detaches (d d' : bool) : Prop := d = true -> d' = true.


(** [obs] cannot tell [n'] from [n], at any path. *)
Definition obs_eq {A : Type} (obs : node -> A) (n n' : node) : Prop :=
  forall q, obs <$> lookup_node q n' = obs <$> lookup_node q n.

(** [n'] carries attribute [a] only where [n] does. *)
Definition attr_le (a : string) (n n' : node) : Prop :=
  forall q m', lookup_node q n' = Some m' -> has_attr a m' = true ->
               exists m, lookup_node q n = Some m /\ has_attr a m = true.

(** Going from [s] to [s'] detached nothing, attached nothing, and put
    attribute [a] on no node. *)
Definition calm (a : string) (s s' : State) : Prop :=
  flags_rel eq (document s) (document s')
  /\ attr_le a (document s) (document s').

(** Going from [s] to [s'] may have detached elements, and created or
    attached none. *)
Definition quiet (s s' : State) : Prop :=
  flags_rel only_detaches (document s) (document s').

(** ** The order of the first pass *)


(** [x] is a node of the subtree of [root] other than [root]. *)
Definition inside (root x : path) : Prop :=
  exists r, r <> [] /\ x = root ++ r.



(** * The rest of the file: routing, loading, theme *)

(** ** getComponentPath *)

(** [if (!route) route = 'home'; return `components/${route}.html`;] *)
Definition getComponentPath (route : jsval) : string :=
  let route := if truthy route then route else VStr "home" in
  "components/" +:+ to_string route +:+ ".html".

(** [s.replace('#', '')]: the first [#] is removed. *)
Fixpoint remove_first_hash (s : string) : string :=
  match s with
  | EmptyString => EmptyString
  | String c s' =>
      if Ascii.eqb c "#" then s' else String c (remove_first_hash s')
  end.

(** [location.hash.replace('#','') || 'home'], as [init] and
    [updateNavActive] compute the route. *)
Definition route_of_hash (hash : string) : string :=
  let r := remove_first_hash hash in
  if String.eqb r "" then "home" else r.

(** ** The page around the engine *)

(** What the functions outside the engine log. *)
Inductive app_log_entry : Type :=
| DataError            (* console.error('Failed to load data:', e) *)
| RouteWarn.           (* console.warn(e) in loadRoute *)

(** The engine state, the class list of [document.body], the local
    storage and the log of the outer functions. *)
Record App : Type := mkApp {
  page : State;
  body_classes : list string;
  localStorage : gmap string string;
  app_console : list app_log_entry
}.

Definition with_page (s : State) (a : App) : App :=
  mkApp s (body_classes a) (localStorage a) (app_console a).

(** A function of the page that may throw: the page as it is when it
    returns or throws. *)
Inductive completion : Type :=
| Normal (a : App)
| Abrupt (a : App).

(** *** DOMTokenList *)

(** ASCII whitespace: TAB, LF, FF, CR, space. *)
Definition is_ascii_whitespace (c : ascii) : bool :=
  let n := Re.code c in
  (n =? 9) || (n =? 10) || (n =? 12) || (n =? 13) || (n =? 32).

Fixpoint has_whitespace (s : string) : bool :=
  match s with
  | EmptyString => false
  | String c s' => is_ascii_whitespace c || has_whitespace s'
  end.

(** [classList.remove(...tokens)] *)
Definition classList_remove (tokens cl : list string) : list string :=
  List.filter (fun c => negb (existsb (String.eqb c) tokens)) cl.

(** [classList.add(token)]: [None] when the token is empty or holds
    whitespace (the call throws); a token already there is not added
    again. *)
Definition classList_add (token : string) (cl : list string)
  : option (list string) :=
  if String.eqb token "" || has_whitespace token then None
  else Some (if existsb (String.eqb token) cl then cl else cl ++ [token]).

Section Shell.

Variable js_eval : string -> gmap string jsval -> option jsval.
Variable js_eval_item :
  string -> jsval -> string -> gmap string jsval -> option jsval.

(** The HTML parser behind [innerHTML = html]: the nodes a fragment
    parses to. *)
Variable parse_html : string -> list node.

(** ** loadData *)

(** The continuation of [loadData] once the fetch has settled:
    [response] is the parsed payload, [None] when [fetch] or [res.json()]
    rejected. [state.data = payload] writes the target, not the proxy,
    and [notify()] follows. *)
Definition loadData (response : option jsval) (a : App) : App :=
  match response with
  | Some payload =>
      with_page
        (notify js_eval (with_store (<["data" := payload]> (store (page a))) (page a)))
        a
  | None =>
      mkApp (page a) (body_classes a) (localStorage a)
        (app_console a ++ [DataError])
  end.

(** ** applyTheme and toggleTheme *)

(** [state.theme] *)
Definition theme_of (a : App) : jsval :=
  default VUndef (store (page a) !! "theme").

Definition applyTheme (a : App) : completion :=
  let cl := classList_remove ["theme-light"; "theme-dark"] (body_classes a) in
  match classList_add ("theme-" +:+ to_string (theme_of a)) cl with
  | Some cl' =>
      Normal (mkApp (page a) cl'
                (<["olly-theme" := to_string (theme_of a)]> (localStorage a))
                (app_console a))
  | None => Abrupt (mkApp (page a) cl (localStorage a) (app_console a))
  end.

(** [state.theme === 'dark'] *)
Definition is_dark (v : jsval) : bool :=
  match v with
  | VStr s => String.eqb s "dark"
  | _ => false
  end.

(** [state.theme === 'dark' ? 'light' : 'dark'] *)
Definition toggled (v : jsval) : string :=
  if is_dark v then "light" else "dark".

Definition toggleTheme (a : App) : completion :=
  let t := VStr (toggled (theme_of a)) in
  (* state.theme = ...: the target is written, no notification *)
  let s1 := with_store (<["theme" := t]> (store (page a))) (page a) in
  (* proxy.theme = state.theme: trigger update *)
  let s2 := proxy_set js_eval "theme" (default VUndef (store s1 !! "theme")) s1 in
  applyTheme (with_page s2 a).

(** ** loadRoute *)

(** A child taken out of its parent by [innerHTML = ...]. Nothing refers
    to a removed text node any more; it is kept as a detached
    placeholder so that the indices of the other children stay. *)
Definition discard (c : node) : node :=
  match c with
  | Element _ e cs => Element true e cs
  | TextNode t => Element true (Elem "#text" [] t []) []
  end.

Definition replace_children (new : list node) (n : node) : node :=
  match n with
  | TextNode _ => n
  | Element d e cs => Element d e (map discard cs ++ new)
  end.

(** [container.innerHTML = html] *)
Definition set_innerHTML (container : path) (html : string) (s : State) : State :=
  with_document
    (alter_node (replace_children (parse_html html)) container (document s)) s.

(** The markup of the fallback. *)
Definition dquote : string := String (ascii_of_nat 34) EmptyString.

Definition notfound_html (path : string) : string :=
  "<div class=" +:+ dquote +:+ "notfound" +:+ dquote
  +:+ "><h2>Page not found</h2><p>Couldn't load <code>"
  +:+ path +:+ "</code></p></div>".

(** The [catch] block of [loadRoute]. *)
Definition route_fallback (container : path) (path : string) (a : App) : App :=
  mkApp (set_innerHTML container (notfound_html path) (page a))
    (body_classes a) (localStorage a) (app_console a ++ [RouteWarn]).

(** The continuation of [loadRoute(route)] once the fetch has settled:
    [response] is the text of the component, [None] when the fetch
    rejected or the response was not ok; [container] is the element with
    id [app]. [None] is returned when the recursion bound of
    [processDirectives] is too small. *)
Definition loadRoute (fuel : nat) (container : path) (route : jsval)
  (response : option string) (a : App) : option App :=
  let path := getComponentPath route in
  match response with
  | None => Some (route_fallback container path a)
  | Some html =>
      match processDirectives js_eval js_eval_item fuel container
              (set_innerHTML container html (page a)) with
      | Done _ s' => Some (with_page s' a)
      | Threw s' => Some (route_fallback container path (with_page s' a))
      | OutOfFuel => None
      end
  end.

End Shell.

(** ** What happens to a page after its first pass *)

(** The events that reach the engine once a page is rendered. *)
Inductive action : Type :=
| Notify                                 (* notify() *)
| Write (prop : string) (v : jsval)      (* OLLYSPA.state[prop] = v *)
| Mutate (st : gmap string jsval)        (* a change below the store's fields *)
| Click (p : path)
| Input (p : path) (text : string).

Definition act
  (js_eval : string -> gmap string jsval -> option jsval)
  (js_exec : string -> option jsval -> gmap string jsval -> list write * bool)
  (x : action) (s : State) : State :=
  match x with
  | Notify => notify js_eval s
  | Write prop v => proxy_set js_eval prop v s
  | Mutate st => with_store st s
  | Click p => click js_eval js_exec p s
  | Input p text => input js_eval js_exec p text s
  end.

Definition run
  (js_eval : string -> gmap string jsval -> option jsval)
  (js_exec : string -> option jsval -> gmap string jsval -> list write * bool)
  (xs : list action) (s : State) : State :=
  fold_left (fun s x => act js_eval js_exec x s) xs s.

(** The proxy writes among the assignments of a statement. *)
Definition is_store_write (w : write) : bool :=
  match w with WStore _ _ => true | WDeep _ _ _ => false end.

(** The page a call left behind, whether it returned or threw. *)
Definition settled (c : completion) : App :=
  match c with
  | Normal a => a
  | Abrupt a => a
  end.



(** ** What a first pass leaves alone *)

(** A node without its children: the text, or the flag, the element data
    and the number of children. *)
Definition look (n : node) : string + bool * elem * nat :=
  match n with
  | TextNode t => inl t
  | Element d e cs => inr (d, e, length cs)
  end.

(** The state a call ended in, returned or thrown. *)
Definition final {A : Type} (o : outcome A) : option State :=
  match o with
  | Done _ s => Some s
  | Threw s => Some s
  | OutOfFuel => None
  end.

(** Going from [s] to [s'] stayed within the subtree of [root]: the
    store is the same, the subscribers of [s] are still there, in order,
    followed by new ones for nodes of the subtree, every node outside
    the subtree looks the same, and [root] is attached or detached as it
    was. *)
Definition confined (root : path) (s s' : State) : Prop :=
  store s' = store s
  /\ (exists h, handlers s' = handlers s ++ h
                /\ Forall (fun x => root `prefix_of` x) h)
  /\ (forall q, ~ root `prefix_of` q ->
                look <$> lookup_node q (document s')
                = look <$> lookup_node q (document s))
  /\ is_detached <$> lookup_node root (document s')
     = is_detached <$> lookup_node root (document s).

(** Every node of [s] is still there in [s'], a text node as a text node
    and an element as an element, and detached if it was. *)
Definition survives (s s' : State) : Prop :=
  forall q m, lookup_node q (document s) = Some m ->
    exists m', lookup_node q (document s') = Some m'
               /\ fst (kind m') = fst (kind m)
               /\ (is_detached m = true -> is_detached m' = true).

(** ** What a route load leaves behind *)

(** [node.childNodes], for the node at [p]: the children still
    attached. *)
Definition childNodes_at (p : path) (s : State) : list node :=
  match lookup_node p (document s) with
  | Some n => List.filter (fun c => negb (is_detached c)) (children n)
  | None => []
  end.

(** Going from [s] to [s'] kept the subscribers and added some, all for
    nodes strictly inside [root]. *)
Definition subscribes_inside (root : path) (s s' : State) : Prop :=
  exists h, handlers s' = handlers s ++ h /\ Forall (inside root) h.

(** How many times [root] is subscribed: the number of times one
    notification renders it. *)
Definition subscriptions (root : path) (s : State) : nat :=
  count_occ (decide_rel (=)) (handlers s) root.

(** ** How deep the recursion goes *)

(** The height of a subtree, detached children included. *)
Fixpoint height (n : node) : nat :=
  match n with
  | TextNode _ => 0
  | Element _ _ cs => S (list_max (map height cs))
  end.

Definition height_at (p : path) (s : State) : nat :=
  match lookup_node p (document s) with
  | Some n => height n
  | None => 0
  end.

(** Every node of [s] is still there in [s'], and as high as it was. *)
Definition keeps_height (s s' : State) : Prop :=
  forall q x, lookup_node q (document s) = Some x ->
    exists x', lookup_node q (document s') = Some x' /\ height x' = height x.

(** ** Well-formed directives *)

(** Every character of [s] satisfies [f]. *)
Fixpoint all_chars (f : ascii -> bool) (s : string) : bool :=
  match s with
  | EmptyString => true
  | String c s' => f c && all_chars f s'
  end.

(** A character a placeholder's expression may hold for the closing
    marker to be found where it is meant: no line terminator, no closing
    brace. *)
Definition is_plain (c : ascii) : bool :=
  Re.is_dot c && negb (Ascii.eqb c "}").

(** The last character of [s], if any, is no space. *)
Definition ends_tight (s : string) : bool :=
  match Re.last_char s with
  | Some c => negb (Re.is_space c)
  | None => true
  end.

(** ** updateNavActive *)

(** *** Class lists *)

(** The tokens of an attribute value: the runs between ASCII whitespace,
    in order. [cur] is the token being read. *)
Fixpoint split_tokens (cur : string) (s : string) : list string :=
  match s with
  | EmptyString => if String.eqb cur "" then [] else [cur]
  | String c s' =>
      if is_ascii_whitespace c
      then (if String.eqb cur "" then split_tokens "" s'
            else cur :: split_tokens "" s')
      else split_tokens (cur +:+ String c EmptyString) s'
  end.

(** Appending to an ordered set: a token already there is skipped. *)
Definition ordered_set_add (acc l : list string) : list string :=
  fold_left (fun acc t => if existsb (String.eqb t) acc then acc else acc ++ [t])
    l acc.

(** The token set of the [class] attribute; no attribute reads as the
    empty set. *)
Definition class_tokens (e : elem) : list string :=
  ordered_set_add [] (split_tokens "" (default "" (get_attr "class" (attributes e)))).

(** The ordered set serializer. *)
Definition serialize (l : list string) : string := String.concat " " l.

(** [setAttribute]: the value is changed in place, a new attribute comes
    last. *)
Fixpoint set_attr (a v : string) (attrs : list (string * string))
  : list (string * string) :=
  match attrs with
  | [] => [(a, v)]
  | (k, w) :: attrs' =>
      if String.eqb k a then (k, v) :: attrs' else (k, w) :: set_attr a v attrs'
  end.

Definition set_class (l : list string) (e : elem) : elem :=
  set_attributes (set_attr "class" (serialize l) (attributes e)) e.

(** [classList.toggle(token, force)] for a token that is neither empty
    nor holds whitespace (the call throws otherwise; the token of the
    source is [active]). The attribute is written only when the set
    changes. *)
Definition classList_toggle (token : string) (force : bool) (e : elem) : elem :=
  let ts := class_tokens e in
  if existsb (String.eqb token) ts then
    if force then e
    else set_class (List.filter (fun t => negb (String.eqb t token)) ts) e
  else
    if force then set_class (ts ++ [token]) e else e.

(** [.c] matches the node. *)
Definition has_class (c : string) (n : node) : bool :=
  match n with
  | TextNode _ => false
  | Element _ e _ => existsb (String.eqb c) (class_tokens e)
  end.

(** *** document.querySelectorAll('.c') *)

Section SelectClass.
Variable c : string.
Variable select_node : node -> list path.

Fixpoint select_class_list (cs : list node) (i : nat) : list path :=
  match cs with
  | [] => []
  | n :: cs' =>
      (if is_detached n then []
       else (if has_class c n then [[i]] else [])
              ++ map (cons i) (select_node n))
        ++ select_class_list cs' (S i)
  end.
End SelectClass.

Fixpoint select_class (c : string) (n : node) : list path :=
  match n with
  | TextNode _ => []
  | Element _ _ cs => select_class_list c (select_class c) cs 0
  end.

(** The elements of the document with class [c], in document order; the
    top element is one of them when it matches. *)
Definition querySelectorAll_class (c : string) (s : State) : list path :=
  (if has_class c (document s) then [[]] else []) ++ select_class c (document s).

(** [a.getAttribute('href') === `#${route}`] *)
Definition is_current (route : string) (e : elem) : bool :=
  match get_attr "href" (attributes e) with
  | Some h => String.eqb h ("#" +:+ route)
  | None => false
  end.

(** The callback of the [forEach]. *)
Definition nav_toggle (route : string) (e : elem) : elem :=
  classList_toggle "active" (is_current route e) e.

(** [hash] is [location.hash]. *)
Definition updateNavActive (hash : string) (s : State) : State :=
  let route := route_of_hash hash in
  forEach (fun a s =>
             with_document
               (alter_node (map_elem (nav_toggle route)) a (document s)) s)
    (querySelectorAll_class "nav-link" s) s.

(** The node is a link to [route]. *)
Definition links_to (route : string) (n : node) : bool :=
  match n with
  | Element _ e _ => is_current route e
  | TextNode _ => false
  end.

(** A token of a class list: not empty, no whitespace. *)
Definition is_token (t : string) : Prop :=
  t <> "" /\ has_whitespace t = false.

(** ** The state a page load starts with *)

(** [localStorage.getItem('olly-theme') || 'light'] *)
Definition initial_theme (ls : gmap string string) : string :=
  match ls !! "olly-theme" with
  | Some t => if String.eqb t "" then "light" else t
  | None => "light"
  end.

(** The object [state] as the module creates it. *)
Definition initial_store (hash : string) (ls : gmap string string)
  : gmap string jsval :=
  <["theme" := VStr (initial_theme ls)]>
    (<["route" := VStr (route_of_hash hash)]> (<["data" := VObj []]> ∅)).

(** The application when the script has run and [init] has not: no
    subscriber yet, the document as parsed, the body classes of the
    markup. *)
Definition boot (hash : string) (doc : node) (classes : list string)
  (ls : gmap string string) : App :=
  mkApp (mkState (initial_store hash ls) [] doc [] []) classes ls [].

(** The first two statements of [init]:
    [state.theme = state.theme || 'light'; applyTheme();] *)
Definition init_theme (a : App) : completion :=
  let t := theme_of a in
  applyTheme
    (with_page
       (with_store
          (<["theme" := if truthy t then t else VStr "light"]> (store (page a)))
          (page a)) a).

(** More closed examples. *)
Module Ex2.

(** [<div><p o-if="showBox">hello</p><span>x</span></div>] with
    [data.showBox = false] *)
Definition hidden_page : State :=
  Ex.page (VObj [("showBox", VBool false)])
    (Ex.el "DIV" [] [Ex.el "P" [("o-if", "showBox")] [TextNode "hello"];
                     Ex.el "SPAN" [] [TextNode "x"]]).

Definition shown_data : jsval := VObj [("showBox", VBool true)].


(** A parser that knows one fragment, [<li o-for="c in items">{{ c }}</li>],
    and takes any other markup for a paragraph of text. *)
Definition item_html : string := "<li o-for='c in items'>{{ c }}</li>".

Definition parse_html (html : string) : list node :=
  if String.eqb html item_html
  then [Ex.el "LI" [("o-for", "c in items")] [TextNode "{{ c }}"]]
  else [Ex.el "P" [] [TextNode html]].

(** [<body><nav>menu</nav><main id="app">old</main></body>]; the
    container is at [[1]]. *)
Definition shell (data : jsval) : State :=
  Ex.page data
    (Ex.el "BODY" [] [Ex.el "NAV" [] [TextNode "menu"];
                      Ex.el "MAIN" [] [TextNode "old"]]).

Definition app (data : jsval) : App :=
  mkApp (shell data) [] ∅ [].

Definition items_list : jsval := VObj [("items", VArr [VStr "a"; VStr "b"])].
Definition items_text : jsval := VObj [("items", VStr "ab")].

(** [<body><nav><a class="nav-link active" href="#home">Home</a>
    <a class="nav-link" href="#about">About</a></nav><main>x</main></body>] *)
Definition about_link : node :=
  Ex.el "A" [("class", "nav-link"); ("href", "#about")] [TextNode "About"].

Definition nav_page : State :=
  Ex.page (VObj [])
    (Ex.el "BODY" []
       [Ex.el "NAV" []
          [Ex.el "A" [("class", "nav-link active"); ("href", "#home")]
             [TextNode "Home"];
           about_link];
        Ex.el "MAIN" [] [TextNode "x"]]).


End Ex2.


(** * Proofs *)

Lemma frame_refl s : frame s s.
Proof. by repeat split. Qed.

Lemma frame_trans s1 s2 s3 : frame s1 s2 -> frame s2 s3 -> frame s1 s3.
Proof.
  intros (A1 & A2 & A3) (B1 & B2 & B3).
  repeat split; congruence.
Qed.

Lemma calls_app t1 t2 : calls (t1 ++ t2) = calls t1 ++ calls t2.
Proof. apply List.filter_app. Qed.

Lemma frame_log_event e s : is_call e = false -> frame s (log_event e s).
Proof.
  intros He. repeat split. simpl. rewrite calls_app. simpl. rewrite He.
  by rewrite app_nil_r.
Qed.

Lemma frame_log_console l s : frame s (log_console l s).
Proof. by repeat split. Qed.

Lemma frame_with_document d s : frame s (with_document d s).
Proof. by repeat split. Qed.

Lemma forEach_inv {A : Type} (P : State -> Prop) (f : A -> State -> State) l s :
  P s -> (forall x s, P s -> P (f x s)) -> P (forEach f l s).
Proof.
  intros Hs Hf. revert s Hs. unfold forEach.
  induction l as [|x l IH]; intros s Hs; simpl; [done|].
  apply IH, Hf, Hs.
Qed.

Lemma forEach_frame {A : Type} (f : A -> State -> State) l s :
  (forall x s, frame s (f x s)) -> frame s (forEach f l s).
Proof.
  intros Hf. apply (forEach_inv (frame s)); [apply frame_refl|].
  intros x s' Hs'. eapply frame_trans; [exact Hs'|apply Hf].
Qed.

Section Frames.
Variable js_eval : string -> gmap string jsval -> option jsval.

Lemma evalInContext_snd expr s :
  snd (evalInContext js_eval expr s)
  = log_console (snd (eval_read js_eval (store s) expr)) s.
Proof. unfold evalInContext. by destruct (eval_read _ _ _). Qed.

Lemma frame_evalInContext expr s : frame s (snd (evalInContext js_eval expr s)).
Proof. rewrite evalInContext_snd. apply frame_log_console. Qed.

Lemma frame_removeAttribute p a s : frame s (removeAttribute p a s).
Proof. apply frame_with_document. Qed.

Lemma frame_remove p s : frame s (remove p s).
Proof. apply frame_with_document. Qed.

Lemma frame_interpolate root s : frame s (interpolate js_eval root s).
Proof.
  unfold interpolate.
  eapply frame_trans; [apply (frame_log_event (EInterp root)); done|].
  destruct (lookup_node _ _); [|apply frame_refl].
  destruct (interpolate_node _ _ _).
  eapply frame_trans; [apply frame_with_document|apply frame_log_console].
Qed.

Lemma frame_processIf p s : frame s (snd (processIf js_eval p s)).
Proof.
  unfold processIf.
  eapply frame_trans; [apply (frame_log_event (EIf p)); done|].
  destruct (getAttribute _ _ _) as [e|]; [|apply frame_refl].
  destruct (String.eqb e ""); [apply frame_refl|].
  pose proof (frame_evalInContext e (log_event (EIf p) s)) as H.
  destruct (evalInContext _ _ _) as [v s1]. simpl in H.
  destruct (truthy v); simpl;
    (eapply frame_trans; [exact H|apply frame_with_document]).
Qed.

Lemma frame_bindModel p s : frame s (snd (bindModel js_eval p s)).
Proof.
  unfold bindModel.
  eapply frame_trans; [apply (frame_log_event (EModel p)); done|].
  destruct (getAttribute _ _ _) as [e|]; [|apply frame_refl].
  destruct (String.eqb e ""); [apply frame_refl|].
  pose proof (frame_evalInContext e (log_event (EModel p) s)) as H.
  destruct (evalInContext _ _ _) as [v s1]. simpl in H. simpl.
  eapply frame_trans; [exact H|].
  eapply frame_trans; [|apply frame_removeAttribute].
  destruct (is_input_tag _); [apply frame_with_document|apply frame_refl].
Qed.

Lemma frame_bindClick p s : frame s (snd (bindClick p s)).
Proof.
  unfold bindClick.
  eapply frame_trans; [apply (frame_log_event (EClick p)); done|].
  destruct (getAttribute _ _ _) as [e|]; [|apply frame_refl].
  destruct (String.eqb e ""); [apply frame_refl|]. simpl.
  eapply frame_trans; [apply frame_with_document|apply frame_removeAttribute].
Qed.

Lemma frame_recheckIf p s : frame s (recheckIf js_eval p s).
Proof.
  unfold recheckIf.
  pose proof (frame_evalInContext
                (default "null" (getAttribute p "o-if" s)) s) as H.
  destruct (evalInContext _ _ _) as [v s1]. simpl in H.
  destruct (truthy v).
  - eapply frame_trans; [exact H|apply frame_removeAttribute].
  - destruct (parentNode _ _); [|exact H].
    eapply frame_trans; [exact H|apply frame_remove].
Qed.

Lemma frame_render root s : frame s (render js_eval root s).
Proof.
  unfold render.
  eapply frame_trans; [|apply forEach_frame; intros; apply frame_recheckIf].
  eapply frame_trans; [|apply forEach_frame; intros; apply frame_bindModel].
  apply frame_interpolate.
Qed.

(** One notification round over the subscribers [hs]: each is called
    once, in order, and finds the store as it is. *)
Lemma notify_loop hs s :
  let s' := forEach (fun h s => render js_eval h (log_event (ECall h (store s)) s)) hs s in
  store s' = store s /\ handlers s' = handlers s
  /\ calls (trace s') = calls (trace s) ++ map (fun h => ECall h (store s)) hs.
Proof.
  revert s. induction hs as [|h hs IH]; intros s; simpl.
  - repeat split. by rewrite app_nil_r.
  - unfold forEach in *. simpl.
    set (s1 := render js_eval h (log_event (ECall h (store s)) s)).
    destruct (frame_render h (log_event (ECall h (store s)) s)) as (F1 & F2 & F3).
    fold s1 in F1, F2, F3. simpl in F1, F2, F3.
    destruct (IH s1) as (I1 & I2 & I3).
    repeat split; [congruence|congruence|].
    rewrite I3, F3, F1, calls_app. simpl. by rewrite <- app_assoc.
Qed.

Lemma notify_spec s :
  store (notify js_eval s) = store s
  /\ handlers (notify js_eval s) = handlers s
  /\ calls (trace (notify js_eval s))
     = calls (trace s) ++ map (fun h => ECall h (store s)) (handlers s).
Proof. apply notify_loop. Qed.

End Frames.
(** ** The reactive store *)

Section Store.
Variable js_eval : string -> gmap string jsval -> option jsval.
Variable js_exec :
  string -> option jsval -> gmap string jsval -> list write * bool.

Lemma proxy_set_spec prop v s :
  let s' := proxy_set js_eval prop v s in
  store s' = <[prop := v]> (store s)
  /\ handlers s' = handlers s
  /\ calls (trace s')
     = calls (trace s)
         ++ map (fun h => ECall h (<[prop := v]> (store s))) (handlers s).
Proof.
  unfold proxy_set.
  destruct (notify_spec js_eval (with_store (<[prop := v]> (store s)) s))
    as (H1 & H2 & H3).
  by repeat split.
Qed.

Lemma rounds_length hs st ws :
  length (rounds hs st ws) = length ws * length hs.
Proof.
  revert st. induction ws as [|w ws IH]; intros st; simpl; [done|].
  rewrite length_app, length_map, IH. lia.
Qed.

Lemma write_all_spec ws s :
  handlers (write_all js_eval ws s) = handlers s
  /\ calls (trace (write_all js_eval ws s))
     = calls (trace s) ++ rounds (handlers s) (store s) ws.
Proof.
  revert s. unfold write_all.
  induction ws as [|w ws IH]; intros s; simpl.
  - by rewrite app_nil_r.
  - destruct (proxy_set_spec (fst w) (snd w) s) as (H1 & H2 & H3).
    destruct (IH (proxy_set js_eval (fst w) (snd w) s)) as (I1 & I2).
    split; [congruence|].
    rewrite I2, H3, H2, H1. by rewrite <- app_assoc.
Qed.

(** C6: a write to a top-level field of the Store, present before or
    not, stores the value and then calls every registered subscriber
    once, in registration order, on the updated store; [N] writes give
    [N] full rounds, one after the other. *)
Theorem proxy_set_notifies prop v ws s :
  let s' := proxy_set js_eval prop v s in
  (store s' !! prop = Some v
   /\ store s' = <[prop := v]> (store s)
   /\ handlers s' = handlers s
   /\ calls (trace s')
      = calls (trace s)
          ++ map (fun h => ECall h (<[prop := v]> (store s))) (handlers s))
  /\ calls (trace (write_all js_eval ws s))
     = calls (trace s) ++ rounds (handlers s) (store s) ws
  /\ length (rounds (handlers s) (store s) ws) = length ws * length (handlers s).
Proof.
  destruct (proxy_set_spec prop v s) as (H1 & H2 & H3).
  split; [|split].
  - repeat split; try done. simpl in *. rewrite H1. apply lookup_insert_eq.
  - apply write_all_spec.
  - apply rounds_length.
Qed.


End Store.


(** ** The read evaluator and interpolation *)

Lemma append_empty_r s : s +:+ EmptyString = s.
Proof.
  induction s as [|c s IH]; [done|].
  change (String c (s +:+ EmptyString) = String c s). by f_equal.
Qed.


Lemma includes_prefix p s r :
  Re.strip_prefix p s = Some r -> Re.includes p s = true.
Proof. intros H. destruct s; cbn [Re.includes]; by rewrite H. Qed.



Section Evaluator.
Variable js_eval : string -> gmap string jsval -> option jsval.






End Evaluator.


(** ** Closed runs of the directive handlers *)

(** C1 fails on the code. [<p o-if="showBox">] is retained by the first
    pass because [showBox] is true; [processIf] strips its [o-if], so
    after [data] is replaced by an object whose [showBox] is false, the
    notification round of that write and a further round leave the
    element attached: the re-check of [render] selects on [o-if]. *)
Theorem retained_if_never_rechecked :
  let s1 := Ex.first_pass Ex.if_page in
  let s2 := Toy.proxy_set "data" (VObj [("showBox", VBool false)]) s1 in
  Toy.js_eval "showBox" (store Ex.if_page) = Some (VBool true)
  /\ present (document s1) [0] = true
  /\ getAttribute [0] "o-if" s1 = None
  /\ Toy.js_eval "showBox" (store s2) = Some (VBool false)
  /\ calls (trace s2) = [ECall [] (store s2)]
  /\ querySelectorAll [] "o-if" s2 = []
  /\ present (document s2) [0] = true
  /\ present (document (Toy.notify s2)) [0] = true.
Proof. vm_compute. repeat split; reflexivity. Qed.

(** C2 fails on the code. [<input o-model="userName">] shows [ann] after
    the first pass; [bindModel] strips its [o-model], so after [data] is
    replaced by an object whose [userName] is [bob], the notification
    round of that write and a further round leave [ann] displayed: the
    re-sync of [render] selects on [o-model]. The listener stays single. *)
Theorem model_never_resynced :
  let s1 := Ex.first_pass Ex.model_page in
  let s2 := Toy.proxy_set "data" (VObj [("userName", VStr "bob")]) s1 in
  displayed [0] s1 = Some "ann"
  /\ getAttribute [0] "o-model" s1 = None
  /\ Toy.js_eval "userName" (store s2) = Some (VStr "bob")
  /\ calls (trace s2) = [ECall [] (store s2)]
  /\ querySelectorAll [] "o-model" s2 = []
  /\ displayed [0] s2 = Some "ann"
  /\ displayed [0] (Toy.notify s2) = Some "ann"
  /\ listeners_of [0] (Toy.notify s2) = [OnInput "userName"].
Proof. vm_compute. repeat split; reflexivity. Qed.

Lemma log_console_nil s : log_console [] s = s.
Proof. destruct s. unfold log_console. simpl. by rewrite app_nil_r. Qed.

Section ForThrows.
Variable js_eval : string -> gmap string jsval -> option jsval.
Variable js_eval_item :
  string -> jsval -> string -> gmap string jsval -> option jsval.

(** A list expression whose value is truthy and not an array: the
    template is removed and [list.forEach] throws. *)
Lemma processFor_truthy_non_list fuel p s forExpr itemName listExpr v :
  getAttribute p "o-for" s = Some forExpr ->
  Re.match_for forExpr = Some (itemName, listExpr) ->
  js_eval listExpr (store s) = Some v ->
  truthy v = true ->
  (forall l, v <> VArr l) ->
  processFor js_eval js_eval_item fuel p s
  = Threw (remove p (log_event (EFor p) s)).
Proof.
  intros Ha Hm Hv Ht Hl. unfold processFor, processFor_body.
  change (getAttribute p "o-for" (log_event (EFor p) s))
    with (getAttribute p "o-for" s).
  rewrite Ha.
  assert (forExpr <> "") as Hne by (intros ->; by vm_compute in Hm).
  apply String.eqb_neq in Hne. rewrite Hne, Hm.
  unfold evalInContext, eval_read. simpl. rewrite Hv.
  unfold forEach_items. rewrite Ht, log_console_nil.
  destruct v as [| |b|n|x|l|o]; try done. by destruct (Hl l).
Qed.

(** A falsy value is taken for the empty list: the template is removed
    and nothing is appended. *)
Lemma processFor_falsy fuel p s forExpr itemName listExpr v :
  getAttribute p "o-for" s = Some forExpr ->
  Re.match_for forExpr = Some (itemName, listExpr) ->
  fst (evalInContext js_eval listExpr (log_event (EFor p) s)) = v ->
  truthy v = false ->
  processFor js_eval js_eval_item fuel p s
  = Done true (remove p (snd (evalInContext js_eval listExpr (log_event (EFor p) s)))).
Proof.
  intros Ha Hm Hv Ht. unfold processFor, processFor_body.
  change (getAttribute p "o-for" (log_event (EFor p) s))
    with (getAttribute p "o-for" s).
  rewrite Ha.
  assert (forExpr <> "") as Hne by (intros ->; by vm_compute in Hm).
  apply String.eqb_neq in Hne. rewrite Hne, Hm.
  destruct (evalInContext _ _ _) as [v' s1]. simpl in *. subst v'.
  unfold forEach_items. by rewrite Ht.
Qed.
End ForThrows.

(** C4 fails on the code. With [o-for="c in userName"] and [userName] the
    string [ann], the template is detached, nothing is appended, and
    [processFor], hence [processDirectives], throws: no later pass runs
    and no [render] is registered. *)
Theorem for_over_string_throws :
  Re.match_for "c in userName" = Some ("c", "userName")
  /\ Toy.js_eval "userName" (store Ex.for_string_page) = Some (VStr "ann")
  /\ exists s',
       Toy.processDirectives 4 [] Ex.for_string_page = Threw s'
       /\ processFor Toy.js_eval Toy.js_eval_item 3 [0; 0] Ex.for_string_page
          = Threw (remove [0; 0] (log_event (EFor [0; 0]) Ex.for_string_page))
       /\ present (document s') [0; 0] = false
       /\ rendered [0] s' = 0
       /\ handlers s' = []
       /\ trace s' = [EFor [0; 0]].
Proof.
  split; [vm_compute; reflexivity|].
  split; [vm_compute; reflexivity|].
  eexists. split; [vm_compute; reflexivity|].
  split.
  - apply processFor_truthy_non_list
      with (forExpr := "c in userName") (itemName := "c")
           (listExpr := "userName") (v := VStr "ann");
      try (vm_compute; reflexivity); discriminate.
  - vm_compute. repeat split; reflexivity.
Qed.


(** ** Paths into the tree *)

Lemma lookup_node_cons i q n :
  lookup_node (i :: q) n = children n !! i ≫= lookup_node q.
Proof. destruct n as [t|d e cs]; simpl; [done|]. by destruct (cs !! i). Qed.

Lemma lookup_node_app p q n :
  lookup_node (p ++ q) n = lookup_node p n ≫= lookup_node q.
Proof.
  revert n. induction p as [|i p IH]; intros n; [done|].
  rewrite <- app_comm_cons, !lookup_node_cons.
  destruct (children n !! i) as [c|]; simpl; [apply IH|done].
Qed.

Lemma children_alter_cons f i p n :
  children (alter_node f (i :: p) n) = alter (alter_node f p) i (children n).
Proof. by destruct n. Qed.

Lemma lookup_alter_eq f p n :
  lookup_node p (alter_node f p n) = f <$> lookup_node p n.
Proof.
  revert n. induction p as [|i p IH]; intros n; [done|].
  rewrite !lookup_node_cons, children_alter_cons, list_lookup_alter_eq.
  destruct (children n !! i) as [c|]; simpl; [apply IH|done].
Qed.

Lemma alter_node_app f p q n :
  alter_node f (p ++ q) n = alter_node (alter_node f q) p n.
Proof.
  revert n. induction p as [|i p IH]; intros n; [done|].
  destruct n as [t|d e cs]; simpl; [done|]. f_equal.
  apply list_alter_ext; [|done]. intros c _. apply IH.
Qed.

Lemma lookup_alter_below f root r n :
  lookup_node root (alter_node f (root ++ r) n)
  = alter_node f r <$> lookup_node root n.
Proof. rewrite alter_node_app. apply lookup_alter_eq. Qed.

Lemma shallow_alter {A : Type} (obs : node -> A) f p n :
  shallow obs -> p <> [] -> obs (alter_node f p n) = obs n.
Proof.
  intros Ho Hp. destruct p as [|i p]; [done|].
  destruct n as [t|d e cs]; simpl; [done|].
  apply Ho. by rewrite length_alter.
Qed.

(** Altering the node at [p] by a local function is invisible, through a
    shallow observation, at every other path. *)
Lemma lookup_alter_ne {A : Type} (obs : node -> A) f p q n :
  shallow obs -> local f -> q <> p ->
  obs <$> lookup_node q (alter_node f p n) = obs <$> lookup_node q n.
Proof.
  intros Ho Hf. revert q n. induction p as [|j p IH]; intros q n Hne.
  - destruct q as [|i q]; [done|]. simpl alter_node.
    by rewrite !lookup_node_cons, Hf.
  - destruct q as [|i q].
    + change (Some (obs (alter_node f (j :: p) n)) = Some (obs n)).
      f_equal. by apply shallow_alter.
    + rewrite !lookup_node_cons, children_alter_cons.
      destruct (decide (i = j)) as [->|Hij].
      * rewrite list_lookup_alter_eq.
        destruct (children n !! j) as [c|]; simpl; [|done].
        apply IH. congruence.
      * by rewrite list_lookup_alter_ne.
Qed.

Lemma shallow_node_attr a : shallow (node_attr a).
Proof. by intros d e cs cs' _. Qed.

Lemma shallow_is_detached : shallow is_detached.
Proof. by intros d e cs cs' _. Qed.

Lemma shallow_arity : shallow (fun n => length (children n)).
Proof. by intros d e cs cs' H. Qed.

Lemma local_map_elem g : local (map_elem g).
Proof. by intros [t|d e cs]. Qed.

Lemma local_set_detached d : local (set_detached d).
Proof. by intros [t|d' e cs]. Qed.

(** [present] in terms of the nodes met on the way. *)
Lemma present_spec n q :
  present n q = true
  <-> forall q1 q2, q = q1 ++ q2 -> q1 <> [] ->
                    is_detached <$> lookup_node q1 n = Some false.
Proof.
  revert n. induction q as [|i q IH]; intros n; simpl.
  - split; [|done]. intros _ q1 q2 H Hne.
    symmetry in H. apply app_eq_nil in H as [-> _]. done.
  - split.
    + intros H q1 q2 Hq Hne.
      destruct q1 as [|i' q1]; [done|].
      simpl in Hq. injection Hq as <- ->.
      rewrite lookup_node_cons.
      destruct (children n !! i) as [c|]; [|done].
      apply andb_true_iff in H as [Hc Hp]. simpl.
      destruct q1 as [|i1 q1]; simpl.
      * f_equal. by apply negb_true_iff.
      * apply (proj1 (IH c) Hp (i1 :: q1) q2); done.
    + intros H.
      pose proof (H [i] q eq_refl ltac:(done)) as H1.
      rewrite lookup_node_cons in H1.
      destruct (children n !! i) as [c|] eqn:E; [|done]. simpl in H1.
      apply andb_true_iff. split.
      * apply negb_true_iff. congruence.
      * apply IH. intros q1 q2 Hq Hne.
        specialize (H (i :: q1) q2). rewrite lookup_node_cons, E in H.
        apply H; [by rewrite Hq|done].
Qed.
(** ** How the passes change what is present *)

Lemma getAttribute_lookup p a s :
  getAttribute p a s = lookup_node p (document s) ≫= node_attr a.
Proof.
  unfold getAttribute. destruct (lookup_node p (document s)) as [[t|d e cs]|]; done.
Qed.

Lemma getAttribute_below root q a s n :
  lookup_node root (document s) = Some n ->
  getAttribute (root ++ q) a s = lookup_node q n ≫= node_attr a.
Proof.
  intros H. by rewrite getAttribute_lookup, lookup_node_app, H.
Qed.

Lemma node_evolve_refl a n : node_evolve a n n.
Proof. intros q _ Hp Hl. repeat split; try done. intros v Hv Hne. eauto. Qed.

Lemma evolve_refl a root s : evolve a root s s.
Proof. intros q Hb. split; [done|]. intros v Hv Hne. eauto. Qed.

Lemma evolve_trans a root s1 s2 s3 :
  evolve a root s1 s2 -> evolve a root s2 s3 -> evolve a root s1 s3.
Proof.
  intros H12 H23 q Hb3.
  destruct (H23 q Hb3) as [Hb2 Ha2]. destruct (H12 q Hb2) as [Hb1 Ha1].
  split; [done|]. intros v Hv Hne.
  destruct (Ha2 v Hv Hne) as (v2 & Hv2 & Hne2). eauto.
Qed.

Lemma evolve_same_document a root s s' :
  document s' = document s -> evolve a root s s'.
Proof.
  intros Hd q Hb. unfold below, getAttribute in *. rewrite Hd in *.
  split; [done|]. intros v Hv Hne. eauto.
Qed.


(** From the subtree of [root] to the state. *)
Lemma evolve_of_node a root s s' n n' :
  lookup_node root (document s) = Some n ->
  lookup_node root (document s') = Some n' ->
  node_evolve a n n' -> evolve a root s s'.
Proof.
  intros Hn Hn' He q (Hq & m & Hm & Hp & Hl).
  rewrite Hn' in Hm. injection Hm as <-.
  destruct (He q Hq Hp Hl) as (Hp0 & Hl0 & Ha).
  split.
  - split; [done|]. by exists n.
  - intros v. rewrite (getAttribute_below _ _ _ _ _ Hn'),
      (getAttribute_below _ _ _ _ _ Hn). apply Ha.
Qed.

(** A local change at [r] that detaches nothing back and adds no
    non-empty [a]. *)
Lemma node_evolve_alter a f r n :
  local f ->
  (forall m, is_detached (f m) = false -> is_detached m = false) ->
  (forall m v, node_attr a (f m) = Some v -> v <> "" ->
               exists v', node_attr a m = Some v' /\ v' <> "") ->
  node_evolve a n (alter_node f r n).
Proof.
  intros Hf Hd Ha q Hq Hp Hl.
  assert (Hobs : forall {A : Type} (obs : node -> A) q1, shallow obs -> q1 <> r ->
            obs <$> lookup_node q1 (alter_node f r n) = obs <$> lookup_node q1 n).
  { intros A obs q1 Ho Hne. by apply lookup_alter_ne. }
  split; [|split].
  - apply present_spec. intros q1 q2 Hq12 Hne.
    pose proof (proj1 (present_spec _ _) Hp q1 q2 Hq12 Hne) as H1.
    destruct (decide (q1 = r)) as [->|Hr].
    + rewrite lookup_alter_eq in H1.
      destruct (lookup_node r n) as [m|]; [|done]. simpl in *.
      injection H1 as H1. f_equal. by apply Hd.
    + by rewrite <- (Hobs _ is_detached q1 shallow_is_detached Hr).
  - destruct (decide (q = r)) as [->|Hr].
    + rewrite lookup_alter_eq in Hl. by apply fmap_is_Some in Hl.
    + pose proof (Hobs _ (fun _ => tt) q ltac:(done) Hr) as H1.
      destruct Hl as [m Hm]. rewrite Hm in H1.
      destruct (lookup_node q n); [eauto|done].
  - intros v Hv Hne.
    destruct (decide (q = r)) as [->|Hr].
    + rewrite lookup_alter_eq in Hv.
      destruct (lookup_node r n) as [m|]; [|done]. simpl in *.
      by apply (Ha m v).
    + pose proof (Hobs _ (node_attr a) q (shallow_node_attr a) Hr) as H1.
      exists v. split; [|done].
      destruct (lookup_node q (alter_node f r n)) as [m'|]; [|done].
      destruct (lookup_node q n) as [m|]; [|done]. simpl in *. congruence.
Qed.

Lemma evolve_alter a root r f s :
  local f ->
  (forall m, is_detached (f m) = false -> is_detached m = false) ->
  (forall m v, node_attr a (f m) = Some v -> v <> "" ->
               exists v', node_attr a m = Some v' /\ v' <> "") ->
  evolve a root s (with_document (alter_node f (root ++ r) (document s)) s).
Proof.
  intros Hf Hd Ha.
  destruct (lookup_node root (document s)) as [n|] eqn:Hn.
  - eapply evolve_of_node; [exact Hn| |by apply (node_evolve_alter a f r n)].
    simpl. by rewrite lookup_alter_below, Hn.
  - intros q (_ & m & Hm & _). simpl in Hm.
    rewrite lookup_alter_below, Hn in Hm. done.
Qed.

Lemma get_attr_remove_attr_eq a attrs : get_attr a (remove_attr a attrs) = None.
Proof.
  induction attrs as [|[k w] attrs IH]; simpl; [done|].
  destruct (String.eqb k a) eqn:E; [done|]. simpl. by rewrite E.
Qed.

Lemma get_attr_remove_attr a b attrs v :
  get_attr a (remove_attr b attrs) = Some v -> get_attr a attrs = Some v.
Proof.
  induction attrs as [|[k w] attrs IH]; simpl; [done|].
  destruct (String.eqb k b) eqn:Ekb; simpl.
  - intros H. destruct (String.eqb k a) eqn:Eka; [|by apply IH].
    apply String.eqb_eq in Ekb, Eka. subst.
    by rewrite get_attr_remove_attr_eq in H.
  - destruct (String.eqb k a); [done|apply IH].
Qed.

Lemma evolve_removeAttribute a b root r s :
  evolve a root s (removeAttribute (root ++ r) b s).
Proof.
  apply evolve_alter.
  - apply local_map_elem.
  - by intros [t|d e cs].
  - intros [t|d e cs] v; simpl; [done|]. intros H Hne.
    exists v. split; [|done]. by eapply get_attr_remove_attr.
Qed.

Lemma evolve_remove a root r s : evolve a root s (remove (root ++ r) s).
Proof.
  apply evolve_alter.
  - apply local_set_detached.
  - by intros [t|d e cs].
  - intros [t|d e cs] v; simpl; [done|]. eauto.
Qed.




(** ** Selection is complete *)




Lemma querySelectorAll_below root a s p :
  p ∈ querySelectorAll root a s -> exists r, p = root ++ r.
Proof.
  unfold querySelectorAll.
  destruct (lookup_node root (document s)); [|by intros ?%elem_of_nil].
  intros H. apply list_elem_of_fmap in H as (r & -> & _). eauto.
Qed.

(** ** A pass that strips an attribute consumes it *)


Section Passes.
Variable js_eval : string -> gmap string jsval -> option jsval.

Lemma evalInContext_document expr s :
  document (snd (evalInContext js_eval expr s)) = document s.
Proof. by rewrite evalInContext_snd. Qed.

Lemma evolve_processIf a root r s :
  evolve a root s (snd (processIf js_eval (root ++ r) s)).
Proof.
  unfold processIf. set (p := root ++ r). set (s0 := log_event (EIf p) s).
  assert (H0 : evolve a root s s0) by by apply evolve_same_document.
  destruct (getAttribute p "o-if" s0) as [e|]; [|done].
  destruct (String.eqb e ""); [done|].
  pose proof (evalInContext_document e s0) as Hd.
  destruct (evalInContext js_eval e s0) as [v s1]. simpl in Hd.
  assert (H1 : evolve a root s s1).
  { eapply evolve_trans; [exact H0|by apply evolve_same_document]. }
  destruct (truthy v); simpl.
  - eapply evolve_trans; [exact H1|apply evolve_removeAttribute].
  - eapply evolve_trans; [exact H1|apply evolve_remove].
Qed.






Lemma forEach_evolve a root (F : path -> State -> State) L s :
  (forall p, p ∈ L -> exists r, p = root ++ r) ->
  (forall r s, evolve a root s (F (root ++ r) s)) ->
  evolve a root s (forEach F L s).
Proof.
  intros HL HF. revert s. unfold forEach.
  induction L as [|p L IH]; intros s; simpl; [apply evolve_refl|].
  destruct (HL p ltac:(by apply elem_of_cons; left)) as [r ->].
  eapply evolve_trans; [apply HF|]. apply IH. intros p' Hp'. apply HL.
  by apply elem_of_cons; right.
Qed.

Lemma evolve_if_pass a root s : evolve a root s (if_pass js_eval root s).
Proof.
  apply forEach_evolve; [apply querySelectorAll_below|].
  intros r s'. apply evolve_processIf.
Qed.






End Passes.
(** ** Interpolation changes texts and attribute values only *)

Section Interpolation.
Variable js_eval : string -> gmap string jsval -> option jsval.
Variable st : gmap string jsval.

Lemma interpolate_list_fst cs :
  fst (interpolate_list (interpolate_node js_eval st) cs)
  = interpolated_child js_eval st <$> cs.
Proof.
  induction cs as [|c cs IH]; [done|]. simpl. unfold interpolated_child at 1.
  destruct (is_detached c); [|destruct (interpolate_node js_eval st c)];
    destruct (interpolate_list _ cs); simpl in *; by rewrite IH.
Qed.

Lemma interpolate_node_children n :
  children (fst (interpolate_node js_eval st n))
  = interpolated_child js_eval st <$> children n.
Proof.
  destruct n as [t|d e cs]; simpl.
  - destruct (Re.includes "{{" t); [|done]. by destruct (interp_string _ _ _).
  - pose proof (interpolate_list_fst cs) as H.
    destruct (interp_attrs _ _ _), (interpolate_list _ cs). done.
Qed.

Lemma interpolate_node_detached n :
  is_detached (fst (interpolate_node js_eval st n)) = is_detached n.
Proof.
  destruct n as [t|d e cs]; simpl.
  - destruct (Re.includes "{{" t); [|done]. by destruct (interp_string _ _ _).
  - by destruct (interp_attrs _ _ _), (interpolate_list _ cs).
Qed.






End Interpolation.

(** ** Selection is sound *)

Lemma select_list_sound a (sel : node -> list path) cs k x :
  x ∈ select_list a sel cs k ->
  exists i c r, x = (k + i) :: r /\ cs !! i = Some c /\ is_detached c = false
                /\ ((r = [] /\ has_attr a c = true) \/ r ∈ sel c).
Proof.
  revert k. induction cs as [|c0 cs IH]; intros k Hx; simpl in Hx.
  - by apply elem_of_nil in Hx.
  - apply elem_of_app in Hx as [Hx|Hx].
    + destruct (is_detached c0) eqn:Hd; [by apply elem_of_nil in Hx|].
      exists 0, c0. rewrite Nat.add_0_r.
      apply elem_of_app in Hx as [Hx|Hx].
      * destruct (has_attr a c0) eqn:Ha; [|by apply elem_of_nil in Hx].
        apply list_elem_of_singleton in Hx as ->. exists []. naive_solver.
      * apply list_elem_of_fmap in Hx as (r & -> & Hr). exists r. naive_solver.
    + destruct (IH (S k) Hx) as (i & c & r & -> & Hc & Hd & Hr).
      exists (S i), c, r. replace (k + S i) with (S k + i) by lia. naive_solver.
Qed.

Lemma select_sound a q : forall n,
  q ∈ select a n ->
  q <> [] /\ present n q = true
  /\ exists m, lookup_node q n = Some m /\ has_attr a m = true.
Proof.
  induction q as [|i q IH]; intros n Hq.
  - destruct n as [t|d e cs]; simpl in Hq; [by apply elem_of_nil in Hq|].
    by apply select_list_sound in Hq as (i & c & r & ? & _).
  - destruct n as [t|d e cs]; simpl in Hq; [by apply elem_of_nil in Hq|].
    apply select_list_sound in Hq as (j & c & r & [= -> ->] & Hc & Hd & Hr).
    split; [done|]. rewrite lookup_node_cons. simpl. rewrite Hc, Hd. simpl.
    destruct Hr as [[-> Ha]|Hr]; [eauto|].
    destruct (IH c Hr) as (_ & Hp & Hm). eauto.
Qed.

Lemma querySelectorAll_sound root a s p :
  p ∈ querySelectorAll root a s ->
  exists q, p = root ++ q /\ below root q s /\ is_Some (getAttribute p a s).
Proof.
  unfold querySelectorAll.
  destruct (lookup_node root (document s)) as [n|] eqn:Hn;
    [|by intros ?%elem_of_nil].
  intros H. apply list_elem_of_fmap in H as (q & -> & Hq).
  apply select_sound in Hq as (Hne & Hp & m & Hm & Ha).
  exists q. split; [done|]. split.
  - split; [done|]. exists n. rewrite Hm. eauto.
  - rewrite (getAttribute_below _ _ _ _ _ Hn), Hm.
    destruct m as [t|d e cs]; simpl in *; [done|]. by apply bool_decide_eq_true in Ha.
Qed.





Section FirstPass.
Variable js_eval : string -> gmap string jsval -> option jsval.
Variable js_eval_item :
  string -> jsval -> string -> gmap string jsval -> option jsval.



(** The passes that follow the repeat pass. *)
Lemma processDirectives_Done fuel root s s' :
  processDirectives js_eval js_eval_item fuel root s = Done tt s' ->
  exists fuel' s1,
    fuel = S fuel'
    /\ forEachO (processFor_body js_eval js_eval_item
                   (processDirectives js_eval js_eval_item fuel'))
         (querySelectorAll root "o-for" s) s = Done tt s1
    /\ s' = subscribe root
              (interpolate js_eval root
                 (click_pass root
                    (model_pass js_eval root (if_pass js_eval root s1)))).
Proof.
  destruct fuel as [|fuel']; [done|]. cbn [processDirectives].
  destruct (forEachO _ _ s) as [[] s1| |] eqn:E; cbn [bind]; [|done|done].
  intros [= <-]. exists fuel', s1. split; [done|]. split; [exact E|done].
Qed.






End FirstPass.

(** ** Notification rounds create no element *)

Lemma lookup_alter_under f p r n :
  lookup_node (p ++ r) (alter_node f p n) = (f <$> lookup_node p n) ≫= lookup_node r.
Proof. by rewrite lookup_node_app, lookup_alter_eq. Qed.

(** A change at [p] is invisible, through a shallow observation, at the
    paths that do not go through [p]. *)
Lemma lookup_alter_above {A : Type} (obs : node -> A) f p q n :
  shallow obs -> ~ p `prefix_of` q ->
  obs <$> lookup_node q (alter_node f p n) = obs <$> lookup_node q n.
Proof.
  intros Ho. revert q n. induction p as [|j p IH]; intros q n Hpre.
  - destruct Hpre. apply prefix_nil.
  - destruct q as [|i q].
    + change (Some (obs (alter_node f (j :: p) n)) = Some (obs n)).
      f_equal. by apply shallow_alter.
    + rewrite !lookup_node_cons, children_alter_cons.
      destruct (decide (i = j)) as [->|Hij].
      * rewrite list_lookup_alter_eq.
        destruct (children n !! j) as [c|]; simpl; [|done].
        apply IH. intros Hp. apply Hpre. by apply prefix_cons.
      * by rewrite list_lookup_alter_ne.
Qed.

Lemma shallow_kind : shallow kind.
Proof. intros d e cs cs' H. unfold kind. simpl. by rewrite H. Qed.

Lemma shallow_has_attr a : shallow (has_attr a).
Proof. by intros d e cs cs' _. Qed.

Lemma obs_eq_refl {A : Type} (obs : node -> A) n : obs_eq obs n n.
Proof. by intros q. Qed.

Lemma obs_eq_alter {A : Type} (obs : node -> A) f p n :
  shallow obs -> local f -> (forall m, obs (f m) = obs m) ->
  obs_eq obs n (alter_node f p n).
Proof.
  intros Ho Hf Hobs q. destruct (decide (q = p)) as [->|Hne].
  - rewrite lookup_alter_eq. destruct (lookup_node p n) as [m|]; simpl; [|done].
    by rewrite Hobs.
  - by apply lookup_alter_ne.
Qed.

(** Replacing the subtree of [root] by one [obs] cannot tell from it. *)
Lemma obs_eq_replace {A : Type} (obs : node -> A) root n n' doc :
  shallow obs -> lookup_node root doc = Some n -> obs_eq obs n n' ->
  obs_eq obs doc (alter_node (fun _ => n') root doc).
Proof.
  intros Ho Hn He q. destruct (decide (root `prefix_of` q)) as [[r ->]|Hpre].
  - rewrite lookup_alter_under, lookup_node_app, Hn. simpl. apply He.
  - by apply lookup_alter_above.
Qed.

Lemma flags_rel_refl (R : bool -> bool -> Prop) n :
  (forall d, R d d) -> flags_rel R n n.
Proof. intros HR q. split; [done|]. intros m m' H H'. by simplify_eq. Qed.

Lemma flags_rel_trans (R : bool -> bool -> Prop) n1 n2 n3 :
  (forall a b c, R a b -> R b c -> R a c) ->
  flags_rel R n1 n2 -> flags_rel R n2 n3 -> flags_rel R n1 n3.
Proof.
  intros HR H12 H23 q. destruct (H12 q) as [K12 F12], (H23 q) as [K23 F23].
  split; [congruence|]. intros m1 m3 H1 H3.
  destruct (lookup_node q n2) as [m2|] eqn:H2.
  - eapply HR; [by apply F12|by apply F23].
  - rewrite H1 in K12. done.
Qed.

Lemma flags_rel_of_obs_eq (R : bool -> bool -> Prop) n n' :
  (forall d, R d d) -> obs_eq kind n n' -> obs_eq is_detached n n' ->
  flags_rel R n n'.
Proof.
  intros HR Hk Hd q. split; [apply Hk|]. intros m m' Hm Hm'.
  specialize (Hd q). rewrite Hm, Hm' in Hd. injection Hd as ->. apply HR.
Qed.

Lemma flags_rel_alter (R : bool -> bool -> Prop) f p n :
  (forall d, R d d) -> local f -> (forall m, kind (f m) = kind m) ->
  (forall m, R (is_detached m) (is_detached (f m))) ->
  flags_rel R n (alter_node f p n).
Proof.
  intros HR Hf Hk Hd q. split.
  - by apply (obs_eq_alter kind f p n shallow_kind).
  - intros m m' Hm Hm'. destruct (decide (q = p)) as [->|Hne].
    + rewrite lookup_alter_eq, Hm in Hm'. injection Hm' as <-. apply Hd.
    + pose proof (lookup_alter_ne is_detached f p q n shallow_is_detached Hf Hne) as H.
      rewrite Hm, Hm' in H. injection H as ->. apply HR.
Qed.

Lemma attr_le_refl a n : attr_le a n n.
Proof. intros q m Hm Ha. eauto. Qed.

Lemma attr_le_trans a n1 n2 n3 :
  attr_le a n1 n2 -> attr_le a n2 n3 -> attr_le a n1 n3.
Proof.
  intros H12 H23 q m3 Hm3 Ha3.
  destruct (H23 q m3 Hm3 Ha3) as (m2 & Hm2 & Ha2). eauto.
Qed.

Lemma attr_le_of_obs_eq a n n' : obs_eq (has_attr a) n n' -> attr_le a n n'.
Proof.
  intros He q m' Hm' Ha'. specialize (He q). rewrite Hm' in He.
  destruct (lookup_node q n) as [m|]; [|done]. injection He as He.
  exists m. split; [done|congruence].
Qed.

Lemma attr_le_alter a f p n :
  local f -> (forall m, has_attr a (f m) = true -> has_attr a m = true) ->
  attr_le a n (alter_node f p n).
Proof.
  intros Hf Ha q m' Hm' Ha'. destruct (decide (q = p)) as [->|Hne].
  - rewrite lookup_alter_eq in Hm'.
    destruct (lookup_node p n) as [m|]; [|done]. injection Hm' as <-. eauto.
  - pose proof (lookup_alter_ne (has_attr a) f p q n (shallow_has_attr a) Hf Hne) as H.
    rewrite Hm' in H. destruct (lookup_node q n) as [m|]; [|done].
    injection H as H. exists m. split; [done|congruence].
Qed.


(** Counting the rendered children. *)
Lemma filter_length_le {A : Type} (f : A -> bool) l l' :
  length l = length l' ->
  (forall i c c', l !! i = Some c -> l' !! i = Some c' -> f c' = true -> f c = true) ->
  length (List.filter f l') <= length (List.filter f l).
Proof.
  revert l'. induction l as [|c l IH]; intros [|c' l'] Hlen H; simpl in *;
    try done; try lia.
  assert (Hrec : length (List.filter f l') <= length (List.filter f l)).
  { apply IH; [lia|]. intros i. apply (H (S i)). }
  destruct (f c') eqn:Hc'.
  - rewrite (H 0 c c' eq_refl eq_refl Hc'). simpl. lia.
  - destruct (f c); simpl; lia.
Qed.

Lemma lookup_child par i doc n :
  lookup_node par doc = Some n -> lookup_node (par ++ [i]) doc = children n !! i.
Proof.
  intros H. rewrite lookup_node_app, H. cbn [mbind option_bind].
  rewrite lookup_node_cons. by destruct (children n !! i).
Qed.

Lemma rendered_le par s s' :
  flags_rel only_detaches (document s) (document s') ->
  rendered par s' <= rendered par s.
Proof.
  intros Hrel. unfold rendered. destruct (Hrel par) as [Hk _].
  destruct (lookup_node par (document s')) as [n'|] eqn:Hn';
    destruct (lookup_node par (document s)) as [n|] eqn:Hn; try done.
  injection Hk as _ Hlen.
  apply filter_length_le; [done|]. intros i c c' Hc Hc' Hr.
  destruct (Hrel (par ++ [i])) as [Hki Hdi].
  rewrite (lookup_child _ _ _ _ Hn), (lookup_child _ _ _ _ Hn'), Hc, Hc' in Hki.
  rewrite (lookup_child _ _ _ _ Hn), (lookup_child _ _ _ _ Hn') in Hdi.
  specialize (Hdi c c' Hc Hc'). injection Hki as Hki _.
  destruct c as [t|d e cs], c' as [t'|d' e' cs']; try done. simpl in *.
  destruct d; [|done]. by rewrite Hdi in Hr.
Qed.

Lemma only_detaches_refl d : only_detaches d d.
Proof. by intros H. Qed.

Lemma only_detaches_trans a b c :
  only_detaches a b -> only_detaches b c -> only_detaches a c.
Proof. unfold only_detaches. auto. Qed.

Lemma calm_refl a s : calm a s s.
Proof. split; [by apply flags_rel_refl|apply attr_le_refl]. Qed.

Lemma calm_trans a s1 s2 s3 : calm a s1 s2 -> calm a s2 s3 -> calm a s1 s3.
Proof.
  intros [F12 A12] [F23 A23]. split.
  - eapply flags_rel_trans; [|exact F12|exact F23]. congruence.
  - by eapply attr_le_trans.
Qed.

Lemma calm_same_document a s s' : document s' = document s -> calm a s s'.
Proof. intros H. unfold calm. rewrite H. apply calm_refl. Qed.

Lemma calm_map_elem a p g s :
  (forall e v, get_attr a (attributes (g e)) = Some v -> is_Some (get_attr a (attributes e))) ->
  calm a s (with_document (alter_node (map_elem g) p (document s)) s).
Proof.
  intros Hg. split; simpl.
  - apply flags_rel_alter; [done|apply local_map_elem|by intros [t|d e cs]..].
  - apply attr_le_alter; [apply local_map_elem|].
    intros [t|d e cs]; simpl; [done|]. intros H%bool_decide_eq_true.
    apply bool_decide_eq_true. destruct H as [v Hv]. by eapply Hg.
Qed.

Lemma calm_removeAttribute a b p s : calm a s (removeAttribute p b s).
Proof.
  apply calm_map_elem. intros e v H. simpl in H.
  apply get_attr_remove_attr in H. eauto.
Qed.

Lemma quiet_refl s : quiet s s.
Proof. apply flags_rel_refl, only_detaches_refl. Qed.

Lemma quiet_trans s1 s2 s3 : quiet s1 s2 -> quiet s2 s3 -> quiet s1 s3.
Proof. apply flags_rel_trans, only_detaches_trans. Qed.

Lemma quiet_of_calm a s s' : calm a s s' -> quiet s s'.
Proof.
  intros [H _] q. destruct (H q) as [Hk Hd]. split; [done|].
  intros m m' Hm Hm'. rewrite (Hd m m' Hm Hm'). apply only_detaches_refl.
Qed.

Lemma quiet_remove p s : quiet s (remove p s).
Proof.
  apply flags_rel_alter.
  - apply only_detaches_refl.
  - apply local_set_detached.
  - by intros [t|d e cs].
  - by intros [t|d e cs].
Qed.

Lemma forEach_rel {A : Type} (R : State -> State -> Prop)
  (f : A -> State -> State) l s :
  (forall s, R s s) -> (forall s1 s2 s3, R s1 s2 -> R s2 s3 -> R s1 s3) ->
  (forall x s, R s (f x s)) -> R s (forEach f l s).
Proof.
  intros Hrefl Htrans Hf. revert s. unfold forEach.
  induction l as [|x l IH]; intros s; simpl; [apply Hrefl|].
  eapply Htrans; [apply Hf|apply IH].
Qed.

Section Rounds.
Variable js_eval : string -> gmap string jsval -> option jsval.

Lemma interp_attrs_has a st attrs :
  is_Some (get_attr a (fst (interp_attrs js_eval st attrs)))
  <-> is_Some (get_attr a attrs).
Proof.
  induction attrs as [|[k w] attrs IH]; simpl; [done|].
  destruct (if negb (String.eqb w "") && Re.includes "{{" w
            then interp_string js_eval st w else (w, [])) as [w' l1].
  destruct (interp_attrs js_eval st attrs) as [r l2]. simpl in *.
  destruct (String.eqb k a); [|done]. split; eauto.
Qed.

Lemma interpolate_node_has_attr a st n :
  has_attr a (fst (interpolate_node js_eval st n)) = has_attr a n.
Proof.
  destruct n as [t|d e cs]; simpl.
  - destruct (Re.includes "{{" t); [|done]. by destruct (interp_string _ _ _).
  - pose proof (interp_attrs_has a st (attributes e)) as H.
    destruct (interp_attrs _ _ _), (interpolate_list _ cs). simpl in *.
    apply bool_decide_ext. done.
Qed.

Lemma interpolate_node_kind st n :
  kind (fst (interpolate_node js_eval st n)) = kind n.
Proof.
  unfold kind. rewrite interpolate_node_children, length_fmap. f_equal.
  destruct n as [t|d e cs]; simpl.
  - destruct (Re.includes "{{" t); [|done]. by destruct (interp_string _ _ _).
  - by destruct (interp_attrs _ _ _), (interpolate_list _ cs).
Qed.

Lemma interpolate_node_obs_eq {A : Type} (obs : node -> A) st n :
  (forall n, obs (fst (interpolate_node js_eval st n)) = obs n) ->
  obs_eq obs n (fst (interpolate_node js_eval st n)).
Proof.
  intros Hobs q. revert n. induction q as [|i q IH]; intros n.
  - simpl. by rewrite Hobs.
  - rewrite !lookup_node_cons, interpolate_node_children, list_lookup_fmap.
    destruct (children n !! i) as [c|]; simpl; [|done].
    unfold interpolated_child. destruct (is_detached c); [done|apply IH].
Qed.

Lemma calm_interpolate a root s : calm a s (interpolate js_eval root s).
Proof.
  unfold interpolate.
  eapply calm_trans;
    [apply (calm_same_document _ _ (log_event (EInterp root) s)); done|].
  generalize (log_event (EInterp root) s). intros s0.
  destruct (lookup_node root (document s0)) as [n|] eqn:Hn; [|apply calm_refl].
  pose proof (interpolate_node_obs_eq kind (store s0) n
                (interpolate_node_kind (store s0))) as Hk.
  pose proof (interpolate_node_obs_eq is_detached (store s0) n
                (interpolate_node_detached js_eval (store s0))) as Hd.
  pose proof (interpolate_node_obs_eq (has_attr a) (store s0) n
                (interpolate_node_has_attr a (store s0))) as Ha.
  destruct (interpolate_node js_eval (store s0) n) as [n' l]. simpl in *.
  split; simpl.
  - apply flags_rel_of_obs_eq; [done| |].
    + by apply (obs_eq_replace kind root n n' _ shallow_kind).
    + by apply (obs_eq_replace is_detached root n n' _ shallow_is_detached).
  - apply attr_le_of_obs_eq.
    by apply (obs_eq_replace (has_attr a) root n n' _ (shallow_has_attr a)).
Qed.

Lemma calm_evalInContext a expr s : calm a s (snd (evalInContext js_eval expr s)).
Proof. apply calm_same_document, evalInContext_document. Qed.

Lemma calm_bindModel a p s : calm a s (snd (bindModel js_eval p s)).
Proof.
  unfold bindModel.
  eapply calm_trans;
    [apply (calm_same_document _ _ (log_event (EModel p) s)); done|].
  generalize (log_event (EModel p) s). intros s0.
  destruct (getAttribute p "o-model" s0) as [e|]; [|apply calm_refl].
  destruct (String.eqb e ""); [apply calm_refl|].
  pose proof (calm_evalInContext a e s0) as H.
  destruct (evalInContext js_eval e s0) as [v s1]. cbn [snd] in *.
  eapply calm_trans; [exact H|].
  eapply calm_trans; [|apply calm_removeAttribute].
  destruct (is_input_tag _); [|apply calm_refl].
  apply calm_map_elem. intros e0 w Hw. simpl in Hw. eauto.
Qed.

Lemma quiet_recheckIf p s : quiet s (recheckIf js_eval p s).
Proof.
  unfold recheckIf.
  pose proof (calm_evalInContext "o-if"
                (default "null" (getAttribute p "o-if" s)) s) as H.
  destruct (evalInContext js_eval _ s) as [v s1]. cbn [snd] in *.
  apply quiet_of_calm in H.
  destruct (truthy v).
  - eapply quiet_trans; [exact H|].
    eapply quiet_of_calm. apply (calm_removeAttribute "o-if").
  - destruct (parentNode p s1); [|done].
    eapply quiet_trans; [exact H|apply quiet_remove].
Qed.

Lemma calm_model_sync a root s :
  calm a s (forEach (fun p s => snd (bindModel js_eval p s))
              (querySelectorAll root "o-model" s) s).
Proof.
  apply (forEach_rel (calm a)); [apply calm_refl|apply calm_trans|].
  intros p s'. apply calm_bindModel.
Qed.

Lemma quiet_render root s : quiet s (render js_eval root s).
Proof.
  unfold render.
  eapply quiet_trans; [eapply quiet_of_calm, (calm_interpolate "o-if")|].
  eapply quiet_trans; [eapply quiet_of_calm, (calm_model_sync "o-if")|].
  apply (forEach_rel quiet); [apply quiet_refl|apply quiet_trans|].
  intros p s'. apply quiet_recheckIf.
Qed.



Lemma quiet_notify s : quiet s (notify js_eval s).
Proof.
  unfold notify. apply (forEach_rel quiet); [apply quiet_refl|apply quiet_trans|].
  intros h s'. apply (quiet_trans _ (log_event (ECall h (store s')) s')).
  - by apply (quiet_of_calm "o-if"), calm_same_document.
  - apply quiet_render.
Qed.





End Rounds.
(** ** The order of the passes *)


Lemma inside_app root c r : inside root c -> inside root (c ++ r).
Proof.
  intros (r1 & H1 & ->). exists (r1 ++ r).
  split; [|by rewrite app_assoc]. by destruct r1.
Qed.





Lemma querySelectorAll_inside root a s p :
  p ∈ querySelectorAll root a s -> inside root p.
Proof.
  intros H. apply querySelectorAll_sound in H as (q & -> & (Hq & _) & _).
  by exists q.
Qed.

Lemma parentNode_Some p s par :
  parentNode p s = Some par -> par = removelast p.
Proof.
  unfold parentNode. destruct p as [|i p]; [done|].
  destruct (lookup_node _ _) as [n|]; [|done].
  destruct (is_detached n); [done|]. congruence.
Qed.

Lemma inside_parent root p i :
  inside root p -> inside root (removelast p ++ [i]).
Proof.
  intros (r & Hr & ->). rewrite removelast_app by done.
  exists (removelast r ++ [i]). split; [by destruct (removelast r)|].
  by rewrite app_assoc.
Qed.

(** What a pass of one handler over a snapshot logs. *)
Lemma forEach_trace (ev : path -> event) (F : path -> State -> State) L s :
  (forall p s, trace (F p s) = trace s ++ [ev p] /\ handlers (F p s) = handlers s) ->
  trace (forEach F L s) = trace s ++ map ev L
  /\ handlers (forEach F L s) = handlers s.
Proof.
  intros HF. revert s. unfold forEach.
  induction L as [|p L IH]; intros s; simpl; [by rewrite app_nil_r|].
  destruct (HF p s) as [Ht Hh]. destruct (IH (F p s)) as [It Ih].
  rewrite It, Ih, Ht, Hh. by rewrite <- app_assoc.
Qed.


Section Order.
Variable js_eval : string -> gmap string jsval -> option jsval.
Variable js_eval_item :
  string -> jsval -> string -> gmap string jsval -> option jsval.

Lemma evalInContext_trace expr s :
  trace (snd (evalInContext js_eval expr s)) = trace s
  /\ handlers (snd (evalInContext js_eval expr s)) = handlers s.
Proof. by rewrite evalInContext_snd. Qed.

Lemma log_event_trace e s :
  trace (log_event e s) = trace s ++ [e]
  /\ handlers (log_event e s) = handlers s.
Proof. done. Qed.

Lemma processIf_trace p s :
  trace (snd (processIf js_eval p s)) = trace s ++ [EIf p]
  /\ handlers (snd (processIf js_eval p s)) = handlers s.
Proof.
  unfold processIf. pose proof (log_event_trace (EIf p) s) as H0.
  revert H0. generalize (log_event (EIf p) s). intros s0 H0.
  destruct (getAttribute p "o-if" s0) as [e|]; [|exact H0].
  destruct (String.eqb e ""); [exact H0|].
  destruct (evalInContext_trace e s0) as [Ht Hh].
  destruct (evalInContext js_eval e s0) as [v s1]. cbn [snd] in Ht, Hh.
  destruct H0 as [H0t H0h].
  destruct (truthy v); cbn [snd]; unfold removeAttribute, remove; simpl;
    by rewrite Ht, Hh.
Qed.

Lemma bindModel_trace p s :
  trace (snd (bindModel js_eval p s)) = trace s ++ [EModel p]
  /\ handlers (snd (bindModel js_eval p s)) = handlers s.
Proof.
  unfold bindModel. pose proof (log_event_trace (EModel p) s) as H0.
  revert H0. generalize (log_event (EModel p) s). intros s0 H0.
  destruct (getAttribute p "o-model" s0) as [e|]; [|exact H0].
  destruct (String.eqb e ""); [exact H0|].
  destruct (evalInContext_trace e s0) as [Ht Hh].
  destruct (evalInContext js_eval e s0) as [v s1]. cbn [snd] in Ht, Hh.
  destruct H0 as [H0t H0h].
  cbn [snd]. destruct (is_input_tag _); unfold removeAttribute; simpl;
    by rewrite Ht, Hh.
Qed.

Lemma bindClick_trace p s :
  trace (snd (bindClick p s)) = trace s ++ [EClick p]
  /\ handlers (snd (bindClick p s)) = handlers s.
Proof.
  unfold bindClick. pose proof (log_event_trace (EClick p) s) as H0.
  revert H0. generalize (log_event (EClick p) s). intros s0 H0.
  destruct (getAttribute p "o-click" s0) as [e|]; [|exact H0].
  destruct (String.eqb e ""); exact H0.
Qed.

Lemma interpolate_trace root s :
  trace (interpolate js_eval root s) = trace s ++ [EInterp root]
  /\ handlers (interpolate js_eval root s) = handlers s.
Proof.
  unfold interpolate. pose proof (log_event_trace (EInterp root) s) as H0.
  revert H0. generalize (log_event (EInterp root) s). intros s0 H0.
  destruct (lookup_node root (document s0)); [|exact H0].
  by destruct (interpolate_node _ _ _).
Qed.




End Order.
(** ** Closed instances *)



(** The trace of that run, event by event. *)
Example first_pass_trace :
  trace (Ex.first_pass Ex.first_page)
  = [EFor [2; 0];
     EInterp [2; 1]; ESubscribe [2; 1]; EInterp [2; 2]; ESubscribe [2; 2];
     EIf [0]; EModel [1]; EClick [3]; EInterp []; ESubscribe []]
  /\ handlers (Ex.first_pass Ex.first_page) = [[2; 1]; [2; 2]; []].
Proof. vm_compute. split; reflexivity. Qed.


(** * Routing, loading, theme *)

Lemma append_assoc s1 s2 s3 : (s1 +:+ s2) +:+ s3 = s1 +:+ (s2 +:+ s3).
Proof.
  induction s1 as [|c s1 IH]; [done|].
  change (String c ((s1 +:+ s2) +:+ s3) = String c (s1 +:+ (s2 +:+ s3))).
  by f_equal.
Qed.

Lemma append_length s1 s2 :
  String.length (s1 +:+ s2) = String.length s1 + String.length s2.
Proof.
  induction s1 as [|c s1 IH]; [done|].
  change (S (String.length (s1 +:+ s2)) = S (String.length s1 + String.length s2)).
  by f_equal.
Qed.

(** Cancelling a common suffix. *)
Lemma append_inv_tail s1 s2 t : s1 +:+ t = s2 +:+ t -> s1 = s2.
Proof.
  revert s2. induction s1 as [|c s1 IH]; intros [|d s2] H.
  - done.
  - apply (f_equal String.length) in H. rewrite !append_length in H.
    simpl in H. lia.
  - apply (f_equal String.length) in H. rewrite !append_length in H.
    simpl in H. lia.
  - change (String c (s1 +:+ t) = String d (s2 +:+ t)) in H.
    injection H as -> H. f_equal. by apply IH.
Qed.

Lemma truthy_VStr r : r <> "" -> truthy (VStr r) = true.
Proof. intros H. simpl. by apply negb_true_iff, String.eqb_neq. Qed.

(** X1: two different non-empty routes never share a component file. *)
Theorem getComponentPath_injective (r1 r2 : string) :
  r1 <> "" -> r2 <> "" ->
  getComponentPath (VStr r1) = getComponentPath (VStr r2) -> r1 = r2.
Proof.
  intros H1 H2. unfold getComponentPath.
  rewrite (truthy_VStr r1 H1), (truthy_VStr r2 H2).
  change (to_string (VStr r1)) with r1. change (to_string (VStr r2)) with r2.
  intros H.
  assert (H' : r1 +:+ ".html" = r2 +:+ ".html").
  { revert H. generalize (r1 +:+ ".html") (r2 +:+ ".html"). intros x y H.
    by injection H. }
  by apply append_inv_tail in H'.
Qed.

Lemma getComponentPath_injective_witness :
  "about" <> "" /\ "about" <> ""
  /\ getComponentPath (VStr "about") = getComponentPath (VStr "about")
  /\ "about" = "about".
Proof.
  assert (H : "about" <> "") by discriminate.
  exact (conj H (conj H (conj eq_refl
           (getComponentPath_injective "about" "about" H H eq_refl)))).
Defined.

Lemma remove_first_hash_cons r : remove_first_hash (String "#" r) = r.
Proof. done. Qed.

(** X2: the route of a hash [#r] is [r], and [home] when [r] is empty or
    there is no hash at all; it is never empty, so the component loaded
    for it is [components/<route>.html], and a missing route falls back
    to [components/home.html]. *)
Theorem route_of_hash_spec (r hash : string) (v : jsval) :
  route_of_hash (String "#" r) = (if String.eqb r "" then "home" else r)
  /\ route_of_hash "" = "home"
  /\ route_of_hash hash <> ""
  /\ getComponentPath (VStr (route_of_hash hash))
     = "components/" +:+ route_of_hash hash +:+ ".html"
  /\ (truthy v = false -> getComponentPath v = "components/home.html").
Proof.
  assert (Hne : route_of_hash hash <> "").
  { unfold route_of_hash. destruct (String.eqb (remove_first_hash hash) "") eqn:E.
    - discriminate.
    - by apply String.eqb_neq. }
  split; [done|]. split; [done|]. split; [done|]. split.
  - unfold getComponentPath. by rewrite (truthy_VStr _ Hne).
  - intros Hv. unfold getComponentPath. by rewrite Hv.
Qed.

Section ShellProofs.
Variable js_eval : string -> gmap string jsval -> option jsval.

(** X3: when the payload arrives, [loadData] stores it as [data] and runs
    exactly one notification round, in which every subscriber finds the
    new payload; when the fetch fails, the page is left as it was and the
    failure is logged. *)
Theorem loadData_spec payload a :
  let a' := loadData js_eval (Some payload) a in
  let a0 := loadData js_eval None a in
  (store (page a') = <["data" := payload]> (store (page a))
   /\ handlers (page a') = handlers (page a)
   /\ calls (trace (page a'))
      = calls (trace (page a))
          ++ map (fun h => ECall h (<["data" := payload]> (store (page a))))
               (handlers (page a))
   /\ app_console a' = app_console a)
  /\ page a0 = page a /\ app_console a0 = app_console a ++ [DataError].
Proof.
  simpl.
  destruct (notify_spec js_eval
              (with_store (<["data" := payload]> (store (page a))) (page a)))
    as (H1 & H2 & H3).
  repeat split; assumption.
Qed.

Lemma classList_add_theme t cl :
  t = "light" \/ t = "dark" ->
  classList_add ("theme-" +:+ t) cl
  = Some (if existsb (String.eqb ("theme-" +:+ t)) cl then cl
          else cl ++ ["theme-" +:+ t]).
Proof. by intros [-> | ->]. Qed.

Lemma classList_remove_In tokens cl c :
  In c (classList_remove tokens cl) <-> In c cl /\ ~ In c tokens.
Proof.
  unfold classList_remove. rewrite filter_In. split; intros [H1 H2]; split; try done.
  - intros Hin. apply negb_true_iff in H2.
    assert (existsb (String.eqb c) tokens = true); [|congruence].
    apply existsb_exists. exists c. split; [done|apply String.eqb_refl].
  - apply negb_true_iff. destruct (existsb _ tokens) eqn:E; [|done].
    apply existsb_exists in E as (x & Hx & Heq). apply String.eqb_eq in Heq.
    by subst x.
Qed.

Lemma classList_add_In t cl cl' c :
  classList_add t cl = Some cl' -> In c cl' <-> In c cl \/ c = t.
Proof.
  unfold classList_add. destruct (_ || _); [done|]. intros [= <-].
  destruct (existsb (String.eqb t) cl) eqn:E.
  - split; [by left|]. intros [H| ->]; [done|].
    apply existsb_exists in E as (x & Hx & Heq). apply String.eqb_eq in Heq.
    by subst x.
  - rewrite in_app_iff. simpl. split; [intros [H|[H|[]]]|intros [H|H]]; auto.
Qed.

Lemma applyTheme_theme a t :
  theme_of a = VStr t -> t = "light" \/ t = "dark" ->
  exists cl',
    applyTheme a
    = Normal (mkApp (page a) cl' (<["olly-theme" := t]> (localStorage a))
                (app_console a))
    /\ forall c, In c cl'
                 <-> (In c (body_classes a)
                      /\ ~ In c ["theme-light"; "theme-dark"])
                     \/ c = "theme-" +:+ t.
Proof.
  intros Hth Ht. unfold applyTheme. rewrite Hth.
  change (to_string (VStr t)) with t. rewrite (classList_add_theme t _ Ht).
  eexists. split; [reflexivity|]. intros c.
  rewrite <- classList_remove_In.
  apply (classList_add_In ("theme-" +:+ t)). by apply classList_add_theme.
Qed.

Lemma toggled_cases v :
  (is_dark v = true /\ toggled v = "light")
  \/ (is_dark v = false /\ toggled v = "dark").
Proof. unfold toggled. destruct (is_dark v); auto. Qed.

(** The theme after a toggle, and what is stored. *)
Lemma toggleTheme_theme a :
  exists a',
    toggleTheme js_eval a = Normal a'
    /\ theme_of a' = VStr (toggled (theme_of a))
    /\ localStorage a' !! "olly-theme" = Some (toggled (theme_of a)).
Proof.
  unfold toggleTheme. cbv zeta. generalize (toggled_cases (theme_of a)).
  generalize (toggled (theme_of a)). intros t Hcase.
  assert (Ht : t = "light" \/ t = "dark") by (destruct Hcase as [[_ ->]|[_ ->]]; auto).
  set (s1 := with_store (<["theme" := VStr t]> (store (page a))) (page a)).
  assert (Hs1 : store s1 !! "theme" = Some (VStr t)) by apply lookup_insert_eq.
  rewrite Hs1. change (default VUndef (Some (VStr t))) with (VStr t).
  destruct (proxy_set_spec js_eval "theme" (VStr t) s1) as (P1 & _).
  revert P1. generalize (proxy_set js_eval "theme" (VStr t) s1). intros s2 P1.
  assert (Hth : theme_of (with_page s2 a) = VStr t).
  { unfold theme_of. simpl. by rewrite P1, lookup_insert_eq. }
  destruct (applyTheme_theme (with_page s2 a) t Hth Ht) as (cl' & -> & _).
  eexists. split; [reflexivity|]. simpl.
  split; [exact Hth|apply lookup_insert_eq].
Qed.

(** X4: [toggleTheme] never throws. It makes the theme [light] when it
    was [dark] and [dark] otherwise, runs exactly one notification round
    on the store with the new theme, leaves on the body the class of the
    new theme and not that of the other, keeps every other class, and
    stores the new theme under [olly-theme]. *)
Theorem toggleTheme_spec a :
  exists a',
    toggleTheme js_eval a = Normal a'
    /\ theme_of a' = VStr (toggled (theme_of a))
    /\ store (page a') = <["theme" := VStr (toggled (theme_of a))]> (store (page a))
    /\ calls (trace (page a'))
       = calls (trace (page a))
           ++ map (fun h => ECall h (store (page a'))) (handlers (page a))
    /\ In ("theme-" +:+ toggled (theme_of a)) (body_classes a')
    /\ ~ In ("theme-" +:+ toggled (VStr (toggled (theme_of a)))) (body_classes a')
    /\ (forall c, c <> "theme-light" -> c <> "theme-dark" ->
                  (In c (body_classes a') <-> In c (body_classes a)))
    /\ localStorage a' !! "olly-theme" = Some (toggled (theme_of a)).
Proof.
  unfold toggleTheme. cbv zeta. generalize (toggled_cases (theme_of a)).
  generalize (toggled (theme_of a)). intros t Hcase.
  assert (Ht : t = "light" \/ t = "dark") by (destruct Hcase as [[_ ->]|[_ ->]]; auto).
  set (s1 := with_store (<["theme" := VStr t]> (store (page a))) (page a)).
  assert (Hs1 : store s1 !! "theme" = Some (VStr t)) by apply lookup_insert_eq.
  rewrite Hs1. change (default VUndef (Some (VStr t))) with (VStr t).
  destruct (proxy_set_spec js_eval "theme" (VStr t) s1) as (P1 & P2 & P3).
  revert P1 P2 P3. generalize (proxy_set js_eval "theme" (VStr t) s1).
  intros s2 P1 P2 P3.
  assert (Hst : store s2 = <["theme" := VStr t]> (store (page a))).
  { rewrite P1. simpl. apply insert_insert_eq. }
  assert (Hth : theme_of (with_page s2 a) = VStr t).
  { unfold theme_of. simpl. by rewrite Hst, lookup_insert_eq. }
  destruct (applyTheme_theme (with_page s2 a) t Hth Ht) as (cl' & -> & Hin).
  eexists. split; [reflexivity|]. simpl in *.
  split; [by unfold theme_of; simpl; rewrite Hst, lookup_insert_eq|].
  split; [exact Hst|]. split.
  { rewrite P3, Hst. f_equal. apply map_ext. intros h. f_equal.
    apply insert_insert_eq. }
  split; [apply Hin; by right|]. split.
  { intros H. apply Hin in H as [[_ H]|H].
    - apply H. destruct Ht as [-> | ->]; simpl; auto.
    - destruct Ht as [-> | ->]; discriminate. }
  split.
  { intros c Hl Hd. rewrite Hin. split.
    - intros [[H _]|H]; [done|]. destruct Ht as [-> | ->]; by subst c.
    - intros H. left. split; [done|]. intros [H'|[H'|[]]]; congruence. }
  apply lookup_insert_eq.
Qed.

(** X5: toggling twice gives back the theme, when it was [light] or
    [dark]. *)
Theorem toggleTheme_twice a :
  theme_of a = VStr "light" \/ theme_of a = VStr "dark" ->
  theme_of (settled (toggleTheme js_eval (settled (toggleTheme js_eval a))))
  = theme_of a.
Proof.
  intros Ha.
  destruct (toggleTheme_theme a) as (a1 & E1 & T1 & _).
  destruct (toggleTheme_theme a1) as (a2 & E2 & T2 & _).
  rewrite E1. cbn [settled]. rewrite E2. cbn [settled].
  rewrite T2, T1. by destruct Ha as [-> | ->].
Qed.

End ShellProofs.

Lemma toggleTheme_twice_witness :
  let a := mkApp (Ex.page (VObj []) (TextNode "")) ["wide"] ∅ [] in
  let a0 := with_page (with_store (<["theme" := VStr "light"]> (store (page a))) (page a)) a in
  (theme_of a0 = VStr "light" \/ theme_of a0 = VStr "dark")
  /\ theme_of (settled (toggleTheme Toy.js_eval (settled (toggleTheme Toy.js_eval a0))))
     = theme_of a0.
Proof.
  assert (H : theme_of
                (with_page
                   (with_store
                      (<["theme" := VStr "light"]>
                         (store (page (mkApp (Ex.page (VObj []) (TextNode "")) ["wide"] ∅ []))))
                      (page (mkApp (Ex.page (VObj []) (TextNode "")) ["wide"] ∅ [])))
                   (mkApp (Ex.page (VObj []) (TextNode "")) ["wide"] ∅ []))
              = VStr "light" \/
              theme_of
                (with_page
                   (with_store
                      (<["theme" := VStr "light"]>
                         (store (page (mkApp (Ex.page (VObj []) (TextNode "")) ["wide"] ∅ []))))
                      (page (mkApp (Ex.page (VObj []) (TextNode "")) ["wide"] ∅ [])))
                   (mkApp (Ex.page (VObj []) (TextNode "")) ["wide"] ∅ []))
              = VStr "dark").
  { left. vm_compute. reflexivity. }
  exact (conj H (toggleTheme_twice Toy.js_eval _ H)).
Defined.

(** * Listeners and what follows the first pass *)

Section AfterFirstPass.
Variable js_eval : string -> gmap string jsval -> option jsval.
Variable js_exec :
  string -> option jsval -> gmap string jsval -> list write * bool.

(** The assignments of a statement: each one through the proxy runs a
    round. *)
Lemma apply_writes_rounds ws s :
  let s' := forEach (apply_write js_eval) ws s in
  handlers s' = handlers s
  /\ length (calls (trace s'))
     = length (calls (trace s))
       + length (List.filter is_store_write ws) * length (handlers s).
Proof.
  revert s. unfold forEach. induction ws as [|w ws IH]; intros s; simpl.
  - split; [done|lia].
  - destruct (IH (apply_write js_eval w s)) as [I1 I2].
    destruct w as [prop v|field keys v]; simpl in *.
    + destruct (proxy_set_spec js_eval prop v s) as (P1 & P2 & P3).
      rewrite I1, I2, P2, P3, length_app, length_map. split; [done|lia].
    + by rewrite I1, I2.
Qed.

(** X6: one click runs one notification round per assignment the
    statement makes through the proxy, and one more when the statement
    completes; when it throws, that last round is skipped and the error
    is the last entry of the console. The subscriber list is unchanged. *)
Theorem click_listener_rounds clickExpr s :
  let ws := fst (js_exec clickExpr None (store s)) in
  let ok := snd (js_exec clickExpr None (store s)) in
  let s' := click_listener js_eval js_exec clickExpr s in
  handlers s' = handlers s
  /\ length (calls (trace s'))
     = length (calls (trace s))
       + (length (List.filter is_store_write ws) + (if ok then 1 else 0))
         * length (handlers s)
  /\ (ok = false -> exists l, console s' = l ++ [Error clickExpr]).
Proof.
  unfold click_listener. destruct (js_exec clickExpr None (store s)) as [ws ok].
  cbn [fst snd]. destruct (apply_writes_rounds ws s) as [W1 W2].
  revert W1 W2. generalize (forEach (apply_write js_eval) ws s). intros s1 W1 W2.
  destruct ok.
  - destruct (notify_spec js_eval s1) as (N1 & N2 & N3).
    rewrite N2, N3, length_app, length_map, W1, W2.
    split; [done|]. split; [lia|done].
  - simpl. rewrite W1, W2. split; [done|]. split; [lia|]. intros _. eauto.
Qed.

Lemma input_unfold p d e cs model text s :
  lookup_node p (document s) = Some (Element d e cs) ->
  listeners e = [OnInput model] ->
  let s1 := with_document
              (alter_node (map_elem (set_value text)) p (document s)) s in
  let r := js_exec (model +:+ " = val") (Some (VStr text)) (store s) in
  displayed p s1 = Some text
  /\ input js_eval js_exec p text s
     = (if snd r then notify js_eval else id)
         (forEach (apply_write js_eval) (fst r) s1).
Proof.
  intros Hp Hl s1 r.
  assert (Hp1 : lookup_node p (document s1) = Some (Element d (set_value text e) cs)).
  { simpl. by rewrite lookup_alter_eq, Hp. }
  split; [by unfold displayed; rewrite Hp1|].
  unfold input. fold s1.
  assert (Hls : listeners_of p s1 = [OnInput model]).
  { unfold listeners_of. by rewrite Hp1. }
  rewrite Hls. unfold forEach at 1. cbn [fold_left].
  unfold input_listener. rewrite Hp1. cbn [value set_value].
  change (store s1) with (store s). fold r. by destruct r as [ws [|]].
Qed.

(** X7: typing into a bound control stores the typed text: the control
    shows it, the statement [model = val] runs with [val] the typed text,
    and one notification round follows per assignment through the proxy,
    plus one when the statement completes; the subscribers are the
    same. *)
Theorem input_round_trip p d e cs model text s :
  lookup_node p (document s) = Some (Element d e cs) ->
  listeners e = [OnInput model] ->
  let ws := fst (js_exec (model +:+ " = val") (Some (VStr text)) (store s)) in
  let ok := snd (js_exec (model +:+ " = val") (Some (VStr text)) (store s)) in
  let s' := input js_eval js_exec p text s in
  exists s1,
    displayed p s1 = Some text
    /\ store s1 = store s
    /\ s' = (if ok then notify js_eval else id) (forEach (apply_write js_eval) ws s1)
    /\ handlers s' = handlers s
    /\ length (calls (trace s'))
       = length (calls (trace s))
         + (length (List.filter is_store_write ws) + (if ok then 1 else 0))
           * length (handlers s).
Proof.
  intros Hp Hl. cbv zeta.
  destruct (input_unfold p d e cs model text s Hp Hl) as [Hd ->].
  set (s1 := with_document
               (alter_node (map_elem (set_value text)) p (document s)) s) in *.
  exists s1. split; [done|]. split; [done|]. split; [done|].
  destruct (js_exec (model +:+ " = val") (Some (VStr text)) (store s)) as [ws ok].
  cbn [fst snd]. destruct (apply_writes_rounds ws s1) as [W1 W2].
  revert W1 W2. generalize (forEach (apply_write js_eval) ws s1). intros s2 W1 W2.
  change (handlers s1) with (handlers s) in *.
  change (trace s1) with (trace s) in *.
  destruct ok; unfold id.
  - destruct (notify_spec js_eval s2) as (N1 & N2 & N3).
    rewrite N2, N3, length_app, length_map, W1, W2. split; [done|lia].
  - rewrite W1, W2. split; [done|lia].
Qed.

End AfterFirstPass.

Lemma input_round_trip_witness :
  let s := Ex.first_pass Ex.model_page in
  let s' := Toy.input [0] "carl" s in
  (exists d e cs, lookup_node [0] (document s) = Some (Element d e cs)
                  /\ listeners e = [OnInput "userName"])
  /\ Toy.js_exec "userName = val" (Some (VStr "carl")) (store s)
     = ([WDeep "data" ["userName"] (VStr "carl")], true)
  /\ Toy.js_eval "userName" (store s') = Some (VStr "carl")
  /\ displayed [0] s' = Some "carl"
  /\ length (calls (trace s')) = length (calls (trace s)) + 1 * length (handlers s).
Proof.
  assert (Hp : lookup_node [0] (document (Ex.first_pass Ex.model_page))
               = Some (Element false
                         (Elem "INPUT" [] "ann" [OnInput "userName"]) []))
    by (vm_compute; reflexivity).
  assert (Hx : Toy.js_exec "userName = val" (Some (VStr "carl"))
                 (store (Ex.first_pass Ex.model_page))
               = ([WDeep "data" ["userName"] (VStr "carl")], true))
    by (vm_compute; reflexivity).
  assert (Hv : Toy.js_eval "userName"
                 (store (Toy.input [0] "carl" (Ex.first_pass Ex.model_page)))
               = Some (VStr "carl")) by (vm_compute; reflexivity).
  assert (Hd : displayed [0] (Toy.input [0] "carl" (Ex.first_pass Ex.model_page))
               = Some "carl") by (vm_compute; reflexivity).
  destruct (input_round_trip Toy.js_eval Toy.js_exec [0] false
              (Elem "INPUT" [] "ann" [OnInput "userName"]) [] "userName" "carl"
              (Ex.first_pass Ex.model_page) Hp eq_refl)
    as (s1 & _ & _ & _ & _ & Hn).
  change (fst (Toy.js_exec ("userName" +:+ " = val") (Some (VStr "carl"))
            (store (Ex.first_pass Ex.model_page))))
    with (fst (Toy.js_exec "userName = val" (Some (VStr "carl"))
            (store (Ex.first_pass Ex.model_page)))) in Hn.
  change (snd (Toy.js_exec ("userName" +:+ " = val") (Some (VStr "carl"))
            (store (Ex.first_pass Ex.model_page))))
    with (snd (Toy.js_exec "userName = val" (Some (VStr "carl"))
            (store (Ex.first_pass Ex.model_page)))) in Hn.
  rewrite Hx in Hn.
  refine (conj _ (conj Hx (conj Hv (conj Hd Hn)))).
  exists false, (Elem "INPUT" [] "ann" [OnInput "userName"]), []. by split.
Defined.

(** ** Nothing comes back *)

Lemma present_only_detaches n n' q :
  flags_rel only_detaches n n' -> present n' q = true -> present n q = true.
Proof.
  intros Hrel Hp. apply present_spec. intros q1 q2 Hq Hne.
  pose proof (proj1 (present_spec _ _) Hp q1 q2 Hq Hne) as H.
  destruct (Hrel q1) as [Hk Hd].
  destruct (lookup_node q1 n') as [m'|] eqn:Hm'; [|done].
  destruct (lookup_node q1 n) as [m|] eqn:Hm; [|done].
  simpl in *. injection H as H. f_equal.
  destruct (is_detached m) eqn:E; [|done].
  by rewrite (Hd m m' eq_refl eq_refl E) in H.
Qed.

Section Quiet.
Variable js_eval : string -> gmap string jsval -> option jsval.
Variable js_exec :
  string -> option jsval -> gmap string jsval -> list write * bool.

Lemma quiet_same_document s s' : document s' = document s -> quiet s s'.
Proof. intros H. by apply (quiet_of_calm "o-if"), calm_same_document. Qed.

Lemma quiet_proxy_set prop v s : quiet s (proxy_set js_eval prop v s).
Proof.
  unfold proxy_set.
  eapply quiet_trans; [|apply quiet_notify]. by apply quiet_same_document.
Qed.

Lemma quiet_apply_write w s : quiet s (apply_write js_eval w s).
Proof.
  destruct w as [prop v|field keys v]; simpl.
  - apply quiet_proxy_set.
  - by apply quiet_same_document.
Qed.

Lemma quiet_apply_writes ws s : quiet s (forEach (apply_write js_eval) ws s).
Proof.
  apply (forEach_rel quiet); [apply quiet_refl|apply quiet_trans|].
  intros w s'. apply quiet_apply_write.
Qed.

Lemma quiet_click_listener clickExpr s :
  quiet s (click_listener js_eval js_exec clickExpr s).
Proof.
  unfold click_listener. destruct (js_exec _ _ _) as [ws ok].
  eapply quiet_trans; [apply quiet_apply_writes|].
  destruct ok; [apply quiet_notify|by apply quiet_same_document].
Qed.

Lemma quiet_input_listener p model s :
  quiet s (input_listener js_eval js_exec p model s).
Proof.
  unfold input_listener. destruct (js_exec _ _ _) as [ws ok].
  eapply quiet_trans; [apply quiet_apply_writes|].
  destruct ok; [apply quiet_notify|apply quiet_refl].
Qed.

Lemma quiet_click p s : quiet s (click js_eval js_exec p s).
Proof.
  unfold click. apply (forEach_rel quiet); [apply quiet_refl|apply quiet_trans|].
  intros [model|clickExpr] s'; [apply quiet_refl|apply quiet_click_listener].
Qed.

Lemma quiet_input p text s : quiet s (input js_eval js_exec p text s).
Proof.
  unfold input.
  apply (quiet_trans _ (with_document
                          (alter_node (map_elem (set_value text)) p (document s)) s)).
  - apply (quiet_of_calm "o-if"), calm_map_elem. intros e v H. simpl in H. eauto.
  - apply (forEach_rel quiet); [apply quiet_refl|apply quiet_trans|].
    intros [model|clickExpr] s'; [apply quiet_input_listener|apply quiet_refl].
Qed.

Lemma quiet_act x s : quiet s (act js_eval js_exec x s).
Proof.
  destruct x as [|prop v|st|p|p text]; simpl.
  - apply quiet_notify.
  - apply quiet_proxy_set.
  - by apply quiet_same_document.
  - apply quiet_click.
  - apply quiet_input.
Qed.

Lemma quiet_run xs s : quiet s (run js_eval js_exec xs s).
Proof.
  revert s. unfold run. induction xs as [|x xs IH]; intros s; simpl.
  - apply quiet_refl.
  - eapply quiet_trans; [apply quiet_act|apply IH].
Qed.

(** X8: whatever follows (notifications, writes to the Store, changes
    below it, clicks, typing), an element that is not in the document
    does not come back: what is present afterwards was present before.
    And no parent gets more rendered children. *)
Theorem run_never_reattaches xs s q par :
  present (document (run js_eval js_exec xs s)) q = true ->
  present (document s) q = true
  /\ rendered par (run js_eval js_exec xs s) <= rendered par s.
Proof.
  intros H. split.
  - eapply present_only_detaches; [apply quiet_run|exact H].
  - apply rendered_le, quiet_run.
Qed.

End Quiet.

(** [<p o-if="showBox">] with [showBox] false is detached by the first
    pass; making [showBox] true and notifying does not bring it back,
    while its sibling stays. *)
Lemma run_never_reattaches_witness :
  let s := Ex.first_pass Ex2.hidden_page in
  let xs := [Write "data" Ex2.shown_data; Notify; Click [1]] in
  present (document (run Toy.js_eval Toy.js_exec xs s)) [1] = true
  /\ present (document s) [1] = true
  /\ Toy.js_eval "showBox" (store (run Toy.js_eval Toy.js_exec xs s))
     = Some (VBool true)
  /\ present (document s) [0] = false
  /\ present (document (run Toy.js_eval Toy.js_exec xs s)) [0] = false.
Proof.
  assert (H : present
                (document
                   (run Toy.js_eval Toy.js_exec
                      [Write "data" Ex2.shown_data; Notify; Click [1]]
                      (Ex.first_pass Ex2.hidden_page))) [1] = true)
    by (vm_compute; reflexivity).
  destruct (run_never_reattaches Toy.js_eval Toy.js_exec
              [Write "data" Ex2.shown_data; Notify; Click [1]]
              (Ex.first_pass Ex2.hidden_page) [1] [] H) as [H1 _].
  assert (H2 : Toy.js_eval "showBox"
                 (store (run Toy.js_eval Toy.js_exec
                           [Write "data" Ex2.shown_data; Notify; Click [1]]
                           (Ex.first_pass Ex2.hidden_page)))
               = Some (VBool true)) by (vm_compute; reflexivity).
  assert (H3 : present (document (Ex.first_pass Ex2.hidden_page)) [0] = false)
    by (vm_compute; reflexivity).
  assert (H4 : present
                 (document
                    (run Toy.js_eval Toy.js_exec
                       [Write "data" Ex2.shown_data; Notify; Click [1]]
                       (Ex.first_pass Ex2.hidden_page))) [0] = false)
    by (vm_compute; reflexivity).
  exact (conj H (conj H1 (conj H2 (conj H3 H4)))).
Defined.

(** ** Render latest, then freeze *)

Lemma node_ind' (P : node -> Prop) :
  (forall t, P (TextNode t)) ->
  (forall d e cs, Forall P cs -> P (Element d e cs)) ->
  forall n, P n.
Proof.
  intros Ht He. fix IH 1. intros [t|d e cs]; [apply Ht|].
  apply He. induction cs as [|c cs IHcs]; constructor; [apply IH|exact IHcs].
Qed.



Section Freeze.
Variable js_eval : string -> gmap string jsval -> option jsval.










End Freeze.


(** * The first pass stays in its subtree *)

Lemma shallow_look : shallow look.
Proof. intros d e cs cs' H. simpl. by rewrite H. Qed.

Lemma confined_refl root s : confined root s s.
Proof.
  split; [done|]. split; [|done]. exists []. by rewrite app_nil_r.
Qed.

Lemma confined_trans root s1 s2 s3 :
  confined root s1 s2 -> confined root s2 s3 -> confined root s1 s3.
Proof.
  intros (A1 & (h1 & A2 & A2') & A3 & A4) (B1 & (h2 & B2 & B2') & B3 & B4).
  split; [congruence|]. split; [|split; [|congruence]].
  - exists (h1 ++ h2). rewrite B2, A2, app_assoc. split; [done|].
    by apply Forall_app.
  - intros q Hq. by rewrite B3, A3.
Qed.

(** A state that differs by logs only. *)
Lemma confined_same root s s' :
  store s' = store s -> handlers s' = handlers s -> document s' = document s ->
  confined root s s'.
Proof.
  intros H1 H2 H3. split; [done|]. split; [|by rewrite H3].
  exists []. by rewrite app_nil_r.
Qed.

Lemma not_prefix_app (root r q : path) : ~ root `prefix_of` q -> ~ (root ++ r) `prefix_of` q.
Proof. intros H [k Hk]. apply H. exists (r ++ k). by rewrite Hk, app_assoc. Qed.

(** A change of the document at a node of the subtree. At [root] itself
    it must keep the flag. *)
Lemma confined_alter root r f s :
  (r = [] -> forall n, lookup_node root (document s) = Some n ->
             is_detached (f n) = is_detached n) ->
  confined root s
    (with_document (alter_node f (root ++ r) (document s)) s).
Proof.
  intros Hroot. split; [done|]. split; [|split].
  - exists []. by rewrite app_nil_r.
  - intros q Hq. simpl. apply lookup_alter_above; [apply shallow_look|].
    by apply not_prefix_app.
  - simpl. destruct r as [|i r].
    + rewrite app_nil_r, lookup_alter_eq.
      destruct (lookup_node root (document s)) as [n|] eqn:Hn; [|done].
      simpl. by rewrite (Hroot eq_refl n).
    + apply lookup_alter_above; [apply shallow_is_detached|].
      intros [k Hk]. apply (f_equal length) in Hk.
      rewrite !length_app in Hk. simpl in Hk. lia.
Qed.

(** What stays within a subtree of the subtree stays within the subtree. *)
Lemma confined_inside root c s s' :
  inside root c -> confined c s s' -> confined root s s'.
Proof.
  intros (r & Hr & ->) (A1 & (h & A2 & A2') & A3 & A4).
  split; [done|]. split; [|split].
  - exists h. split; [done|]. eapply Forall_impl; [exact A2'|].
    intros x [k ->]. exists (r ++ k). by rewrite app_assoc.
  - intros q Hq. apply A3. by apply not_prefix_app.
  - assert (Hn : ~ (root ++ r) `prefix_of` root).
    { intros [k Hk]. apply (f_equal length) in Hk.
      rewrite !length_app in Hk. destruct r; [done|]. simpl in Hk. lia. }
    pose proof (A3 root Hn) as H.
    destruct (lookup_node root (document s')) as [[t'|d' e' cs']|],
             (lookup_node root (document s)) as [[t|d e cs]|]; simpl in *;
      congruence.
Qed.

Lemma forEach_confined root (F : path -> State -> State) L s :
  (forall p s, p ∈ L -> confined root s (F p s)) ->
  confined root s (forEach F L s).
Proof.
  revert s. unfold forEach. induction L as [|p L IH]; intros s HF; simpl.
  - apply confined_refl.
  - eapply confined_trans; [apply HF; by apply elem_of_cons; left|].
    apply IH. intros p' s' Hp'. apply HF. by apply elem_of_cons; right.
Qed.

Lemma forEachO_confined {A B : Type} root (f : A -> State -> outcome B) l s s' :
  (forall x s s', x ∈ l -> final (f x s) = Some s' -> confined root s s') ->
  final (forEachO f l s) = Some s' -> confined root s s'.
Proof.
  revert s. induction l as [|x l IH]; intros s Hf H; simpl in H.
  - injection H as <-. apply confined_refl.
  - pose proof (Hf x s) as Hx.
    destruct (f x s) as [b s1|s1|] eqn:E; simpl in H; [| |done].
    + eapply confined_trans; [apply Hx; [by apply elem_of_cons; left|done]|].
      apply IH; [|done]. intros y s2 s3 Hy. apply Hf. by apply elem_of_cons; right.
    + injection H as <-. apply Hx; [by apply elem_of_cons; left|done].
Qed.

Section Confined.
Variable js_eval : string -> gmap string jsval -> option jsval.
Variable js_eval_item :
  string -> jsval -> string -> gmap string jsval -> option jsval.

Lemma evalInContext_same expr s :
  store (snd (evalInContext js_eval expr s)) = store s
  /\ handlers (snd (evalInContext js_eval expr s)) = handlers s
  /\ document (snd (evalInContext js_eval expr s)) = document s.
Proof. by rewrite evalInContext_snd. Qed.

Lemma confined_evalInContext root expr s :
  confined root s (snd (evalInContext js_eval expr s)).
Proof. destruct (evalInContext_same expr s) as (H1 & H2 & H3). by apply confined_same. Qed.

Lemma confined_removeAttribute root r a s :
  r <> [] -> confined root s (removeAttribute (root ++ r) a s).
Proof. intros Hr. by apply confined_alter. Qed.

Lemma confined_remove root r s :
  r <> [] -> confined root s (remove (root ++ r) s).
Proof. intros Hr. by apply confined_alter. Qed.

Lemma confined_processIf root r s :
  r <> [] -> confined root s (snd (processIf js_eval (root ++ r) s)).
Proof.
  intros Hr. unfold processIf.
  assert (H0 : confined root s (log_event (EIf (root ++ r)) s))
    by by apply confined_same.
  revert H0. generalize (log_event (EIf (root ++ r)) s). intros s0 H0.
  destruct (getAttribute _ _ s0) as [e|]; [|done].
  destruct (String.eqb e ""); [done|].
  pose proof (confined_evalInContext root e s0) as H1.
  destruct (evalInContext js_eval e s0) as [v s1]. cbn [snd] in *.
  eapply confined_trans; [exact H0|]. eapply confined_trans; [exact H1|].
  destruct (truthy v); cbn [snd];
    [by apply confined_removeAttribute|by apply confined_remove].
Qed.

Lemma confined_bindModel root r s :
  r <> [] -> confined root s (snd (bindModel js_eval (root ++ r) s)).
Proof.
  intros Hr. unfold bindModel.
  assert (H0 : confined root s (log_event (EModel (root ++ r)) s))
    by by apply confined_same.
  revert H0. generalize (log_event (EModel (root ++ r)) s). intros s0 H0.
  destruct (getAttribute _ _ s0) as [e|]; [|done].
  destruct (String.eqb e ""); [done|].
  pose proof (confined_evalInContext root e s0) as H1.
  destruct (evalInContext js_eval e s0) as [v s1]. cbn [snd] in *.
  eapply confined_trans; [exact H0|]. eapply confined_trans; [exact H1|].
  eapply confined_trans; [|by apply confined_removeAttribute].
  destruct (is_input_tag _); [by apply confined_alter|apply confined_refl].
Qed.

Lemma confined_bindClick root r s :
  r <> [] -> confined root s (snd (bindClick (root ++ r) s)).
Proof.
  intros Hr. unfold bindClick.
  assert (H0 : confined root s (log_event (EClick (root ++ r)) s))
    by by apply confined_same.
  revert H0. generalize (log_event (EClick (root ++ r)) s). intros s0 H0.
  destruct (getAttribute _ _ s0) as [e|]; [|done].
  destruct (String.eqb e ""); [done|]. cbn [snd].
  eapply confined_trans; [exact H0|].
  eapply confined_trans; [|by apply confined_removeAttribute].
  by apply confined_alter.
Qed.

Lemma confined_interpolate root s : confined root s (interpolate js_eval root s).
Proof.
  unfold interpolate.
  assert (H0 : confined root s (log_event (EInterp root) s))
    by by apply confined_same.
  revert H0. generalize (log_event (EInterp root) s). intros s0 H0.
  destruct (lookup_node root (document s0)) as [n|] eqn:Hn; [|done].
  pose proof (interpolate_node_detached js_eval (store s0) n) as Hd.
  destruct (interpolate_node js_eval (store s0) n) as [n' l]. simpl in Hd.
  eapply confined_trans; [exact H0|].
  eapply confined_trans; [|by apply confined_same].
  pose proof (confined_alter root [] (fun _ => n') s0) as H.
  rewrite app_nil_r in H. apply H. intros _ m Hm. congruence.
Qed.

Lemma selected_inside root a s p :
  p ∈ querySelectorAll root a s -> exists r, r <> [] /\ p = root ++ r.
Proof. intros H. by apply querySelectorAll_inside in H. Qed.

Lemma confined_passes root s :
  confined root s
    (subscribe root
       (interpolate js_eval root
          (click_pass root (model_pass js_eval root (if_pass js_eval root s))))).
Proof.
  eapply confined_trans.
  { apply (forEach_confined root (fun p s => snd (processIf js_eval p s))).
    intros p s' (r & Hr & ->)%selected_inside. by apply confined_processIf. }
  eapply confined_trans.
  { apply (forEach_confined root (fun p s => snd (bindModel js_eval p s))).
    intros p s' (r & Hr & ->)%selected_inside. by apply confined_bindModel. }
  eapply confined_trans.
  { apply (forEach_confined root (fun p s => snd (bindClick p s))).
    intros p s' (r & Hr & ->)%selected_inside. by apply confined_bindClick. }
  eapply confined_trans; [apply confined_interpolate|].
  split; [done|]. split; [|done].
  exists [root]. split; [done|]. by apply Forall_singleton.
Qed.

(** One repeat directive, when the recursive calls stay in their
    subtrees. *)
Lemma processFor_body_confined root rec r s s' :
  (forall c s s', inside root c -> final (rec c s) = Some s' -> confined root s s') ->
  r <> [] ->
  final (processFor_body js_eval js_eval_item rec (root ++ r) s) = Some s' ->
  confined root s s'.
Proof.
  intros Hrec Hr. unfold processFor_body. set (p := root ++ r).
  assert (H0 : confined root s (log_event (EFor p) s)) by by apply confined_same.
  revert H0. generalize (log_event (EFor p) s). intros s0 H0.
  destruct (getAttribute p "o-for" s0) as [forExpr|]; [|by intros [= <-]].
  destruct (String.eqb forExpr ""); [by intros [= <-]|].
  destruct (Re.match_for forExpr) as [[itemName listExpr]|]; [|by intros [= <-]].
  pose proof (confined_evalInContext root listExpr s0) as H1.
  destruct (evalInContext js_eval listExpr s0) as [v s1]. cbn [snd] in H1.
  assert (H2 : confined root s (remove p s1)).
  { eapply confined_trans; [exact H0|]. eapply confined_trans; [exact H1|].
    by apply confined_remove. }
  destruct (forEach_items v) as [items|]; [|by intros [= <-]].
  pose proof (parentNode_Some p s1) as Hpar.
  destruct (parentNode p s1) as [par|]; cycle 1.
  { destruct items as [|item items]; simpl; by intros [= <-]. }
  specialize (Hpar par eq_refl). subst par.
  intros H.
  assert (H3 : final (forEachO
                        (for_item js_eval_item rec itemName
                           (cloneNode (default (TextNode "") (lookup_node p (document s1))))
                           (Some (removelast p))) items (remove p s1)) = Some s').
  { destruct (forEachO _ items (remove p s1)) as [[] s3|s3|]; done. }
  clear H. eapply confined_trans; [exact H2|].
  eapply forEachO_confined; [|exact H3].
  intros item s4 s5 _. unfold for_item, appendChild.
  intros H. apply Hrec in H; cycle 1.
  { apply inside_parent. by exists r. }
  eapply confined_trans; [|exact H].
  unfold p. rewrite removelast_app by done.
  apply confined_alter. intros _ [t|d e cs] _; done.
Qed.

(** A first pass over [root], whether it completes or throws, stays
    within the subtree of [root]. *)
Lemma processDirectives_stays fuel root s s' :
  final (processDirectives js_eval js_eval_item fuel root s) = Some s' ->
  confined root s s'.
Proof.
  revert root s s'. induction fuel as [|fuel IH]; intros root s s' H; [done|].
  cbn [processDirectives] in H.
  assert (Hfor : forall s1,
            final (forEachO (processFor_body js_eval js_eval_item
                               (processDirectives js_eval js_eval_item fuel))
                     (querySelectorAll root "o-for" s) s) = Some s1 ->
            confined root s s1).
  { intros s1. apply forEachO_confined.
    intros p s2 s3 (r & Hr & ->)%selected_inside. apply processFor_body_confined; [|done].
    intros c s4 s5 Hc Hrun. eapply confined_inside; [exact Hc|]. by apply IH. }
  destruct (forEachO _ _ s) as [[] s1|s1|]; simpl in H; [| |done].
  - injection H as <-. eapply confined_trans; [by apply Hfor|].
    apply confined_passes.
  - injection H as <-. by apply Hfor.
Qed.

(** X10: a first pass over [root], whether it completes or throws, stays
    within the subtree of [root]: the store is untouched, every
    subscriber registered before is still registered, in place, the new
    ones are for nodes of the subtree, every node outside the subtree
    keeps its text or its flag, tag, attributes, value, listeners and
    number of children, and [root] is attached or detached as it was. *)
Theorem processDirectives_confined fuel root s s' :
  final (processDirectives js_eval js_eval_item fuel root s) = Some s' ->
  store s' = store s
  /\ (exists h, handlers s' = handlers s ++ h
                /\ Forall (fun x => root `prefix_of` x) h)
  /\ (forall q, ~ root `prefix_of` q ->
                look <$> lookup_node q (document s')
                = look <$> lookup_node q (document s))
  /\ is_detached <$> lookup_node root (document s')
     = is_detached <$> lookup_node root (document s).
Proof.
  intros H. destruct (processDirectives_stays fuel root s s' H)
    as (H1 & H2 & H3 & H4).
  split; [exact H1|]. split; [exact H2|]. split; [exact H3|exact H4].
Qed.

End Confined.

(** The pass over the first clone of [for_page] leaves its sibling and
    the template alone. *)
Lemma processDirectives_confined_witness :
  let s := Ex.first_pass Ex.for_page in
  exists s',
    final (Toy.processDirectives 2 [0; 1] s) = Some s'
    /\ confined [0; 1] s s'
    /\ look <$> lookup_node [0; 2] (document s')
       = look <$> lookup_node [0; 2] (document s).
Proof.
  eexists. 
  assert (H : final (Toy.processDirectives 2 [0; 1] (Ex.first_pass Ex.for_page))
              = Some (Ex.after (Toy.processDirectives 2 [0; 1] (Ex.first_pass Ex.for_page))
                        (Ex.first_pass Ex.for_page))) by (vm_compute; reflexivity).
  pose proof (processDirectives_confined Toy.js_eval Toy.js_eval_item 2 [0; 1]
                _ _ H) as Hc.
  refine (conj H (conj Hc _)).
  destruct Hc as (_ & _ & Hout & _). apply Hout.
  intros [k Hk]. discriminate.
Defined.

(** * The first pass attaches nothing again *)

Lemma survives_refl s : survives s s.
Proof. intros q m H. by exists m. Qed.

Lemma survives_trans s1 s2 s3 :
  survives s1 s2 -> survives s2 s3 -> survives s1 s3.
Proof.
  intros H12 H23 q m Hm.
  destruct (H12 q m Hm) as (m2 & Hm2 & K2 & D2).
  destruct (H23 q m2 Hm2) as (m3 & Hm3 & K3 & D3).
  exists m3. split; [done|]. split; [congruence|auto].
Qed.

Lemma survives_of_quiet s s' : quiet s s' -> survives s s'.
Proof.
  intros H q m Hm. destruct (H q) as [Hk Hd]. rewrite Hm in Hk.
  destruct (lookup_node q (document s')) as [m'|] eqn:Hm'; [|done].
  exists m'. split; [done|]. split.
  - assert (Some (kind m') = Some (kind m)) as E by exact Hk.
    congruence.
  - by apply Hd.
Qed.

Lemma lookup_add_child c r m x :
  r <> [] -> lookup_node r m = Some x -> lookup_node r (add_child c m) = Some x.
Proof.
  destruct r as [|i r]; [done|]. intros _. rewrite !lookup_node_cons.
  destruct m as [t|d e cs]; [done|]. simpl.
  destruct (cs !! i) as [ci|] eqn:Hi; [|done].
  by rewrite (lookup_app_l_Some _ _ _ _ Hi).
Qed.

Lemma survives_appendChild par c s : survives s (snd (appendChild par c s)).
Proof.
  intros q m Hm. unfold appendChild. cbn [snd document with_document].
  destruct (decide (par `prefix_of` q)) as [[r ->]|Hn].
  - rewrite lookup_alter_under. rewrite lookup_node_app in Hm.
    destruct (lookup_node par (document s)) as [m0|]; [|done]. simpl in *.
    destruct r as [|i r].
    + simpl in *. injection Hm as <-. exists (add_child c m0).
      split; [done|]. by destruct m0.
    + exists m. split; [by apply lookup_add_child|done].
  - pose proof (lookup_alter_above (fun n => (fst (kind n), is_detached n))
                  (add_child c) par q (document s)) as H.
    rewrite Hm in H. simpl in H.
    destruct (lookup_node q (alter_node _ _ _)) as [m'|].
    + exists m'. split; [done|].
      assert (Some (fst (kind m'), is_detached m') = Some (fst (kind m), is_detached m))
        as [= H1 H2].
      { apply H; [by intros d e cs cs' _|done]. }
      split; [done|]. by rewrite H2.
    + exfalso. assert (@None (bool * bool) = Some (fst (kind m), is_detached m)) as [=].
      apply H; [by intros d e cs cs' _|done].
Qed.

Section Survives.
Variable js_eval : string -> gmap string jsval -> option jsval.
Variable js_eval_item :
  string -> jsval -> string -> gmap string jsval -> option jsval.

Lemma quiet_processIf p s : quiet s (snd (processIf js_eval p s)).
Proof.
  unfold processIf.
  eapply quiet_trans;
    [apply (quiet_same_document _ (log_event (EIf p) s)); done|].
  generalize (log_event (EIf p) s). intros s0.
  destruct (getAttribute _ _ s0) as [e|]; [|apply quiet_refl].
  destruct (String.eqb e ""); [apply quiet_refl|].
  pose proof (calm_evalInContext js_eval "o-if" e s0) as H.
  destruct (evalInContext js_eval e s0) as [v s1]. cbn [snd] in *.
  eapply quiet_trans; [eapply quiet_of_calm; exact H|].
  destruct (truthy v); cbn [snd].
  - eapply quiet_of_calm. apply (calm_removeAttribute "o-if").
  - apply quiet_remove.
Qed.

Lemma quiet_bindClick p s : quiet s (snd (bindClick p s)).
Proof.
  unfold bindClick.
  eapply quiet_trans;
    [apply (quiet_same_document _ (log_event (EClick p) s)); done|].
  generalize (log_event (EClick p) s). intros s0.
  destruct (getAttribute _ _ s0) as [e|]; [|apply quiet_refl].
  destruct (String.eqb e ""); [apply quiet_refl|]. cbn [snd].
  eapply quiet_trans; [|eapply quiet_of_calm; apply (calm_removeAttribute "o-if")].
  eapply (quiet_of_calm "o-if"). apply calm_map_elem.
  intros e0 w Hw. simpl in Hw. eauto.
Qed.

Lemma forEach_quiet (F : path -> State -> State) L s :
  (forall p s, quiet s (F p s)) -> quiet s (forEach F L s).
Proof.
  intros HF. revert s. unfold forEach. induction L as [|p L IH]; intros s; simpl.
  - apply quiet_refl.
  - eapply quiet_trans; [apply HF|apply IH].
Qed.

Lemma quiet_passes root s :
  quiet s
    (subscribe root
       (interpolate js_eval root
          (click_pass root (model_pass js_eval root (if_pass js_eval root s))))).
Proof.
  eapply quiet_trans.
  { apply (forEach_quiet (fun p s => snd (processIf js_eval p s))).
    intros p s'. apply quiet_processIf. }
  eapply quiet_trans.
  { apply (forEach_quiet (fun p s => snd (bindModel js_eval p s))).
    intros p s'. eapply quiet_of_calm. apply (calm_bindModel js_eval "o-if"). }
  eapply quiet_trans.
  { apply (forEach_quiet (fun p s => snd (bindClick p s))).
    intros p s'. apply quiet_bindClick. }
  eapply quiet_trans.
  { eapply quiet_of_calm. apply (calm_interpolate js_eval "o-if"). }
  by apply quiet_same_document.
Qed.

Lemma forEachO_survives {A B : Type} (f : A -> State -> outcome B) l s s' :
  (forall x s s', final (f x s) = Some s' -> survives s s') ->
  final (forEachO f l s) = Some s' -> survives s s'.
Proof.
  intros Hf. revert s. induction l as [|x l IH]; intros s H; simpl in H.
  - injection H as <-. apply survives_refl.
  - pose proof (Hf x s) as Hx.
    destruct (f x s) as [b s1|s1|] eqn:E; simpl in H; [| |done].
    + eapply survives_trans; [by apply Hx|]. by apply IH.
    + injection H as <-. by apply Hx.
Qed.

Lemma processFor_body_survives rec p s s' :
  (forall c s s', final (rec c s) = Some s' -> survives s s') ->
  final (processFor_body js_eval js_eval_item rec p s) = Some s' ->
  survives s s'.
Proof.
  intros Hrec. unfold processFor_body.
  assert (H0 : survives s (log_event (EFor p) s)) by (intros q m Hm; by exists m).
  revert H0. generalize (log_event (EFor p) s). intros s0 H0.
  destruct (getAttribute p "o-for" s0) as [forExpr|]; [|by intros [= <-]].
  destruct (String.eqb forExpr ""); [by intros [= <-]|].
  destruct (Re.match_for forExpr) as [[itemName listExpr]|]; [|by intros [= <-]].
  pose proof (calm_evalInContext js_eval "o-if" listExpr s0) as H1.
  destruct (evalInContext js_eval listExpr s0) as [v s1]. cbn [snd] in H1.
  assert (H2 : survives s (remove p s1)).
  { eapply survives_trans; [exact H0|]. apply survives_of_quiet.
    eapply quiet_trans; [eapply quiet_of_calm; exact H1|apply quiet_remove]. }
  destruct (forEach_items v) as [items|]; [|by intros [= <-]].
  destruct (parentNode p s1) as [par|]; cycle 1.
  { destruct items as [|item items]; simpl; by intros [= <-]. }
  intros H.
  assert (H3 : final (forEachO
                        (for_item js_eval_item rec itemName
                           (cloneNode (default (TextNode "") (lookup_node p (document s1))))
                           (Some par)) items (remove p s1)) = Some s').
  { destruct (forEachO _ items (remove p s1)) as [[] s3|s3|]; done. }
  clear H. eapply survives_trans; [exact H2|].
  eapply forEachO_survives; [|exact H3].
  intros item s4 s5. unfold for_item.
  pose proof (survives_appendChild par
                (subst_clone js_eval_item itemName item (store s4)
                   (cloneNode (cloneNode (default (TextNode "")
                                            (lookup_node p (document s1))))))
                s4) as Ha.
  destruct (appendChild par _ s4) as [c s6]. cbn [snd] in Ha.
  intros H. eapply survives_trans; [exact Ha|]. by eapply Hrec.
Qed.

Lemma processDirectives_survives fuel root s s' :
  final (processDirectives js_eval js_eval_item fuel root s) = Some s' ->
  survives s s'.
Proof.
  revert root s s'. induction fuel as [|fuel IH]; intros root s s' H; [done|].
  cbn [processDirectives] in H.
  assert (Hfor : forall s1,
            final (forEachO (processFor_body js_eval js_eval_item
                               (processDirectives js_eval js_eval_item fuel))
                     (querySelectorAll root "o-for" s) s) = Some s1 ->
            survives s s1).
  { intros s1. apply forEachO_survives.
    intros p s2 s3. apply processFor_body_survives. apply IH. }
  destruct (forEachO _ _ s) as [[] s1|s1|]; simpl in H; [| |done].
  - injection H as <-. eapply survives_trans; [by apply Hfor|].
    apply survives_of_quiet, quiet_passes.
  - injection H as <-. by apply Hfor.
Qed.

Lemma present_survives s s' q :
  survives s s' -> is_Some (lookup_node q (document s)) ->
  present (document s') q = true -> present (document s) q = true.
Proof.
  intros Hs [m Hm] Hp. apply present_spec. intros q1 q2 -> Hne.
  pose proof (proj1 (present_spec _ _) Hp q1 q2 eq_refl Hne) as H.
  rewrite lookup_node_app in Hm.
  destruct (lookup_node q1 (document s)) as [m1|] eqn:Hm1; [|done].
  destruct (Hs q1 m1 Hm1) as (m1' & Hm1' & _ & Hd).
  rewrite Hm1' in H. simpl in *. injection H as H. f_equal.
  destruct (is_detached m1); [|done]. by rewrite Hd in H.
Qed.

(** X11: a first pass over any root, whether it completes or throws,
    keeps every node of the document in its place, a text node as a text
    node and an element as an element, and attaches nothing again: a node
    that was there before the pass and is part of the document after it
    was part of the document before. *)
Theorem processDirectives_never_reattaches fuel root s s' q :
  final (processDirectives js_eval js_eval_item fuel root s) = Some s' ->
  is_Some (lookup_node q (document s)) ->
  (fun n => fst (kind n)) <$> lookup_node q (document s')
  = (fun n => fst (kind n)) <$> lookup_node q (document s)
  /\ (present (document s') q = true -> present (document s) q = true).
Proof.
  intros H Hq. apply processDirectives_survives in H.
  split; [|by apply present_survives].
  destruct Hq as [m Hm]. destruct (H q m Hm) as (m' & Hm' & Hk & _).
  rewrite Hm, Hm'. cbn [fmap option_fmap option_map]. by f_equal.
Qed.

End Survives.

(** The clones of [for_page] are appended behind the template; the
    template was part of the document before the pass, the second clone
    was not there at all. *)
Lemma processDirectives_never_reattaches_witness :
  let s := Ex.for_page in
  exists s',
    final (Toy.processDirectives 4 [] s) = Some s'
    /\ present (document s') [0; 0] = false
    /\ present (document s') [0; 2] = true
    /\ lookup_node [0; 2] (document s) = None
    /\ ((fun n => fst (kind n)) <$> lookup_node [0; 0] (document s')
        = (fun n => fst (kind n)) <$> lookup_node [0; 0] (document s)
        /\ (present (document s') [0; 0] = true ->
            present (document s) [0; 0] = true)).
Proof.
  assert (H : final (Toy.processDirectives 4 [] Ex.for_page)
              = Some (Ex.first_pass Ex.for_page)) by (vm_compute; reflexivity).
  exists (Ex.first_pass Ex.for_page).
  refine (conj H (conj _ (conj _ (conj _ _)))); [vm_compute; reflexivity..|].
  apply (processDirectives_never_reattaches Toy.js_eval Toy.js_eval_item 4 []
           Ex.for_page _ [0; 0] H).
  vm_compute. eauto.
Defined.

(** * Route loads *)

Lemma subscribes_inside_refl root s : subscribes_inside root s s.
Proof. exists []. by rewrite app_nil_r. Qed.

Lemma subscribes_inside_trans root s1 s2 s3 :
  subscribes_inside root s1 s2 -> subscribes_inside root s2 s3 ->
  subscribes_inside root s1 s3.
Proof.
  intros (h1 & H1 & F1) (h2 & H2 & F2). exists (h1 ++ h2).
  rewrite H2, H1, app_assoc. split; [done|]. by apply Forall_app.
Qed.

Lemma subscribes_inside_same root s s' :
  handlers s' = handlers s -> subscribes_inside root s s'.
Proof. intros H. exists []. by rewrite app_nil_r. Qed.

Lemma forEachO_subscribes {A B : Type} root (f : A -> State -> outcome B) l s s' :
  (forall x s s', final (f x s) = Some s' -> subscribes_inside root s s') ->
  final (forEachO f l s) = Some s' -> subscribes_inside root s s'.
Proof.
  intros Hf. revert s. induction l as [|x l IH]; intros s H; simpl in H.
  - injection H as <-. apply subscribes_inside_refl.
  - pose proof (Hf x s) as Hx.
    destruct (f x s) as [b s1|s1|] eqn:E; simpl in H; [| |done].
    + eapply subscribes_inside_trans; [by apply Hx|]. by apply IH.
    + injection H as <-. by apply Hx.
Qed.

Lemma filter_discard cs :
  List.filter (fun c => negb (is_detached c)) (map discard cs) = [].
Proof. induction cs as [|[t|d e cs'] cs IH]; simpl; done. Qed.

Section RouteProofs.
Variable js_eval : string -> gmap string jsval -> option jsval.
Variable js_eval_item :
  string -> jsval -> string -> gmap string jsval -> option jsval.
Variable parse_html : string -> list node.

Lemma processFor_body_subscribes root rec p s s' :
  (forall c s s', inside root c -> final (rec c s) = Some s' ->
                  subscribes_inside root s s') ->
  inside root p ->
  final (processFor_body js_eval js_eval_item rec p s) = Some s' ->
  subscribes_inside root s s'.
Proof.
  intros Hrec Hp. unfold processFor_body.
  assert (H0 : subscribes_inside root s (log_event (EFor p) s))
    by by apply subscribes_inside_same.
  revert H0. generalize (log_event (EFor p) s). intros s0 H0.
  destruct (getAttribute p "o-for" s0) as [forExpr|]; [|by intros [= <-]].
  destruct (String.eqb forExpr ""); [by intros [= <-]|].
  destruct (Re.match_for forExpr) as [[itemName listExpr]|]; [|by intros [= <-]].
  destruct (evalInContext_trace js_eval listExpr s0) as [_ Hh].
  destruct (evalInContext js_eval listExpr s0) as [v s1]. cbn [snd] in Hh.
  assert (H2 : subscribes_inside root s (remove p s1)).
  { eapply subscribes_inside_trans; [exact H0|]. by apply subscribes_inside_same. }
  destruct (forEach_items v) as [items|]; [|by intros [= <-]].
  pose proof (parentNode_Some p s1) as Hpar.
  destruct (parentNode p s1) as [par|]; cycle 1.
  { destruct items as [|item items]; simpl; by intros [= <-]. }
  specialize (Hpar par eq_refl). subst par.
  intros H.
  assert (H3 : final (forEachO
                        (for_item js_eval_item rec itemName
                           (cloneNode (default (TextNode "") (lookup_node p (document s1))))
                           (Some (removelast p))) items (remove p s1)) = Some s').
  { destruct (forEachO _ items (remove p s1)) as [[] s3|s3|]; done. }
  clear H. eapply subscribes_inside_trans; [exact H2|].
  eapply forEachO_subscribes; [|exact H3].
  intros item s4 s5. unfold for_item, appendChild.
  intros H. apply Hrec in H; [|by apply inside_parent].
  eapply subscribes_inside_trans; [|exact H]. by apply subscribes_inside_same.
Qed.

(** The repeat pass of a first pass over [root] subscribes the roots of
    the clones only. *)
Lemma for_pass_subscribes fuel root s s1 :
  final (forEachO (processFor_body js_eval js_eval_item
                     (processDirectives js_eval js_eval_item fuel))
           (querySelectorAll root "o-for" s) s) = Some s1 ->
  subscribes_inside root s s1.
Proof.
  intros H.
  assert (Hin : Forall (inside root) (querySelectorAll root "o-for" s)).
  { apply Forall_forall. intros p Hp. by eapply querySelectorAll_inside. }
  revert Hin H. generalize (querySelectorAll root "o-for" s). intros l.
  revert s. induction l as [|p l IH]; intros s Hin H; simpl in H.
  - injection H as <-. apply subscribes_inside_refl.
  - apply Forall_cons in Hin as [Hp Hin].
    assert (Hx : forall s2, final (processFor_body js_eval js_eval_item
                                     (processDirectives js_eval js_eval_item fuel) p s)
                            = Some s2 -> subscribes_inside root s s2).
    { intros s2. apply processFor_body_subscribes; [|done].
      intros c s3 s4 Hc Hrun.
      apply processDirectives_stays in Hrun as (_ & (h & Hh & Fh) & _).
      exists h. split; [done|]. eapply Forall_impl; [exact Fh|].
      intros x [k ->]. destruct Hc as (r & Hr & ->). exists (r ++ k).
      split; [by destruct r|by rewrite app_assoc]. }
    destruct (processFor_body _ _ _ p s) as [b s2|s2|]; simpl in H; [| |done].
    + eapply subscribes_inside_trans; [by apply Hx|]. by apply IH.
    + injection H as <-. by apply Hx.
Qed.

Lemma processDirectives_Threw_subscribes fuel root s s' :
  processDirectives js_eval js_eval_item fuel root s = Threw s' ->
  subscribes_inside root s s'.
Proof.
  destruct fuel as [|fuel]; [done|]. cbn [processDirectives].
  pose proof (for_pass_subscribes fuel root s) as H.
  destruct (forEachO _ _ s) as [[] s1|s1|]; simpl; [done| |done].
  intros [= <-]. by apply H.
Qed.

Lemma passes_handlers root s :
  handlers (interpolate js_eval root
              (click_pass root (model_pass js_eval root (if_pass js_eval root s))))
  = handlers s.
Proof.
  destruct (interpolate_trace js_eval root
              (click_pass root (model_pass js_eval root (if_pass js_eval root s))))
    as [_ ->].
  destruct (forEach_trace EClick (fun p s => snd (bindClick p s))
              (querySelectorAll root "o-click"
                 (model_pass js_eval root (if_pass js_eval root s)))
              (model_pass js_eval root (if_pass js_eval root s))
              bindClick_trace) as [_ H].
  unfold click_pass. rewrite H.
  destruct (forEach_trace EModel (fun p s => snd (bindModel js_eval p s))
              (querySelectorAll root "o-model" (if_pass js_eval root s))
              (if_pass js_eval root s) (bindModel_trace js_eval)) as [_ H'].
  unfold model_pass. rewrite H'.
  destruct (forEach_trace EIf (fun p s => snd (processIf js_eval p s))
              (querySelectorAll root "o-if" s) s (processIf_trace js_eval))
    as [_ H''].
  exact H''.
Qed.

Lemma processDirectives_Done_subscribes fuel root s s' :
  processDirectives js_eval js_eval_item fuel root s = Done tt s' ->
  exists h, handlers s' = handlers s ++ h ++ [root] /\ Forall (inside root) h.
Proof.
  intros H. apply processDirectives_Done in H as (fuel' & s1 & -> & Hfor & ->).
  destruct (for_pass_subscribes fuel' root s s1) as (h & Hh & Fh).
  { by rewrite Hfor. }
  exists h. split; [|done]. unfold subscribe, push_handler. simpl.
  by rewrite passes_handlers, Hh, app_assoc.
Qed.

Lemma set_innerHTML_confined container html s :
  confined container s (set_innerHTML parse_html container html s).
Proof.
  pose proof (confined_alter container []
                (replace_children (parse_html html)) s) as H.
  rewrite app_nil_r in H. apply H. by intros _ [t|d e cs] _.
Qed.

Lemma childNodes_set_innerHTML container html s n :
  lookup_node container (document s) = Some n -> fst (kind n) = false ->
  childNodes_at container (set_innerHTML parse_html container html s)
  = List.filter (fun c => negb (is_detached c)) (parse_html html).
Proof.
  intros Hn Hk. unfold childNodes_at, set_innerHTML. cbn [document with_document].
  rewrite lookup_alter_eq, Hn. destruct n as [t|d e cs]; [done|]. simpl.
  by rewrite List.filter_app, filter_discard.
Qed.

Lemma set_innerHTML_discards container html s n i c :
  lookup_node container (document s) = Some n -> children n !! i = Some c ->
  exists m, lookup_node (container ++ [i])
              (document (set_innerHTML parse_html container html s)) = Some m
            /\ is_detached m = true.
Proof.
  intros Hn Hc. unfold set_innerHTML. cbn [document with_document].
  erewrite lookup_child; [|by rewrite lookup_alter_eq, Hn].
  destruct n as [t|d e cs]; [done|]. simpl in *.
  exists (discard c). split; [|by destruct c].
  apply lookup_app_l_Some. by rewrite list_lookup_fmap, Hc.
Qed.

(** X12: a route load, whatever the fetch gave and whether the first pass
    over the new content completed or threw, stays within the container:
    the store is untouched, every subscriber is kept, every node outside
    the container looks as before; the class list of the body and the
    local storage are untouched. *)
Theorem loadRoute_confined fuel container route response a a' :
  loadRoute js_eval js_eval_item parse_html fuel container route response a
  = Some a' ->
  confined container (page a) (page a')
  /\ body_classes a' = body_classes a
  /\ localStorage a' = localStorage a.
Proof.
  unfold loadRoute. destruct response as [html|].
  - pose proof (set_innerHTML_confined container html (page a)) as H1.
    pose proof (processDirectives_stays js_eval js_eval_item fuel container
                  (set_innerHTML parse_html container html (page a))) as H2.
    destruct (processDirectives _ _ _ _ _) as [[] s'|s'|]; [| |done].
    + intros [= <-]. split; [|done]. simpl.
      eapply confined_trans; [exact H1|]. by apply H2.
    + intros [= <-]. split; [|done]. simpl.
      eapply confined_trans; [exact H1|].
      eapply confined_trans; [by apply H2|]. apply set_innerHTML_confined.
  - intros [= <-]. split; [|done]. apply set_innerHTML_confined.
Qed.

(** X13: when the fetch fails, or the first pass over the fetched content
    throws, the container shows the fallback for the component path and
    nothing else, one warning is logged, and the container is not
    subscribed; the clones a pass subscribed before it threw stay
    subscribed. *)
Theorem loadRoute_not_found fuel container route response a a' n :
  lookup_node container (document (page a)) = Some n ->
  fst (kind n) = false ->
  loadRoute js_eval js_eval_item parse_html fuel container route response a
  = Some a' ->
  (forall html s', response = Some html ->
     processDirectives js_eval js_eval_item fuel container
       (set_innerHTML parse_html container html (page a)) <> Done tt s') ->
  childNodes_at container (page a')
  = List.filter (fun c => negb (is_detached c))
      (parse_html (notfound_html (getComponentPath route)))
  /\ app_console a' = app_console a ++ [RouteWarn]
  /\ subscribes_inside container (page a) (page a').
Proof.
  intros Hn Hk. unfold loadRoute. destruct response as [html|].
  - pose proof (processDirectives_Threw_subscribes fuel container
                  (set_innerHTML parse_html container html (page a))) as Hs.
    pose proof (processDirectives_survives js_eval js_eval_item fuel container
                  (set_innerHTML parse_html container html (page a))) as Hv.
    destruct (processDirectives _ _ _ _ _) as [[] s'|s'|] eqn:E.
    3: { intros Hnone. discriminate Hnone. }
    + intros _ Hno. by destruct (Hno html s' eq_refl).
    + intros [= <-] _. simpl.
      assert (Hc : exists m, lookup_node container
                               (document (set_innerHTML parse_html container html (page a)))
                             = Some m /\ fst (kind m) = false).
      { unfold set_innerHTML. cbn [document with_document].
        rewrite lookup_alter_eq, Hn. eexists. split; [done|].
        by destruct n. }
      destruct Hc as (m & Hm & Hkm).
      destruct (Hv s' eq_refl container m Hm) as (m' & Hm' & Hk' & _).
      split; [|split; [done|]].
      * eapply childNodes_set_innerHTML; [exact Hm'|congruence].
      * destruct (Hs s' eq_refl) as (h & Hh & Fh). by exists h.
  - intros [= <-] _. simpl. split; [|split; [done|]].
    + by eapply childNodes_set_innerHTML.
    + by apply subscribes_inside_same.
Qed.

(** X14: when the first pass over the fetched content completes, the
    container is subscribed once more, behind the subscribers there were
    and the clones of the new content; nothing is logged. Every such load
    makes each later notification render the container one more time. *)
Theorem loadRoute_subscribes fuel container route html a s' :
  processDirectives js_eval js_eval_item fuel container
    (set_innerHTML parse_html container html (page a)) = Done tt s' ->
  loadRoute js_eval js_eval_item parse_html fuel container route (Some html) a
  = Some (with_page s' a)
  /\ (exists h, handlers s' = handlers (page a) ++ h ++ [container]
                /\ Forall (inside container) h)
  /\ subscriptions container s' = S (subscriptions container (page a)).
Proof.
  intros H. unfold loadRoute. rewrite H. split; [done|].
  apply processDirectives_Done_subscribes in H as (h & Hh & Fh).
  split; [by exists h|]. unfold subscriptions. rewrite Hh.
  rewrite !count_occ_app. cbn [count_occ].
  destruct (decide_rel eq container container); [|done].
  assert (count_occ (decide_rel (=)) h container = 0) as ->.
  2: { change (handlers (set_innerHTML parse_html container html (page a)))
         with (handlers (page a)). lia. }
  apply count_occ_not_In. intros Hin.
  rewrite Forall_forall in Fh. apply list_elem_of_In in Hin.
  destruct (Fh _ Hin) as (r & Hr & E).
  apply (f_equal length) in E. rewrite length_app in E.
  destruct r; [done|]. simpl in E. lia.
Qed.

(** X15: after a route load nothing of what the container held is part of
    the document: every child it had is detached. *)
Theorem loadRoute_replaces fuel container route response a a' n i c :
  lookup_node container (document (page a)) = Some n ->
  children n !! i = Some c ->
  loadRoute js_eval js_eval_item parse_html fuel container route response a
  = Some a' ->
  exists m, lookup_node (container ++ [i]) (document (page a')) = Some m
            /\ is_detached m = true.
Proof.
  intros Hn Hc. unfold loadRoute. destruct response as [html|].
  - destruct (set_innerHTML_discards container html (page a) n i c Hn Hc)
      as (m & Hm & Hd).
    pose proof (processDirectives_survives js_eval js_eval_item fuel container
                  (set_innerHTML parse_html container html (page a))) as Hv.
    destruct (processDirectives _ _ _ _ _) as [[] s'|s'|]; [| |done].
    + intros [= <-]. simpl.
      destruct (Hv s' eq_refl _ m Hm) as (m' & Hm' & _ & Hd'). eauto.
    + intros [= <-]. simpl.
      destruct (Hv s' eq_refl _ m Hm) as (m' & Hm' & _ & Hd').
      destruct (lookup_node container (document s')) as [n'|] eqn:Hn'.
      * rewrite (lookup_child _ _ _ _ Hn') in Hm'.
        by eapply set_innerHTML_discards.
      * by rewrite lookup_node_app, Hn' in Hm'.
  - intros [= <-]. simpl. by eapply set_innerHTML_discards.
Qed.

End RouteProofs.

(** The fetch of the component of [about] fails: the paragraph of the
    fallback is the only child the container shows. *)
Lemma loadRoute_not_found_witness :
  let a := Ex2.app Ex2.items_list in
  exists a',
    loadRoute Toy.js_eval Toy.js_eval_item Ex2.parse_html 3 [1] (VStr "about")
      None a = Some a'
    /\ childNodes_at [1] (page a')
       = [Ex.el "P" [] [TextNode (notfound_html "components/about.html")]]
    /\ app_console a' = [RouteWarn]
    /\ subscribes_inside [1] (page a) (page a').
Proof.
  eexists. split; [reflexivity|].
  pose proof (loadRoute_not_found Toy.js_eval Toy.js_eval_item Ex2.parse_html
                3 [1] (VStr "about") None (Ex2.app Ex2.items_list) _
                (Ex.el "MAIN" [] [TextNode "old"])
                eq_refl eq_refl eq_refl) as H.
  apply H. intros html s' Hhtml. discriminate Hhtml.
Defined.

(** The repeat directive of the fetched item runs over a string: the
    pass throws and the fallback replaces what was fetched. *)
Lemma loadRoute_confined_witness :
  let a := Ex2.app Ex2.items_text in
  exists a',
    loadRoute Toy.js_eval Toy.js_eval_item Ex2.parse_html 3 [1] (VStr "list")
      (Some Ex2.item_html) a = Some a'
    /\ app_console a' = [RouteWarn]
    /\ confined [1] (page a) (page a')
    /\ body_classes a' = body_classes a
    /\ localStorage a' = localStorage a.
Proof.
  eexists.
  assert (H : loadRoute Toy.js_eval Toy.js_eval_item Ex2.parse_html 3 [1]
                (VStr "list") (Some Ex2.item_html) (Ex2.app Ex2.items_text)
              = Some (route_fallback Ex2.parse_html [1] "components/list.html"
                        (with_page
                           (Ex.after
                              (Toy.processDirectives 3 [1]
                                 (set_innerHTML Ex2.parse_html [1] Ex2.item_html
                                    (Ex2.shell Ex2.items_text)))
                              (Ex2.shell Ex2.items_text))
                           (Ex2.app Ex2.items_text))))
    by (vm_compute; reflexivity).
  refine (conj H (conj eq_refl _)).
  exact (loadRoute_confined Toy.js_eval Toy.js_eval_item Ex2.parse_html 3 [1]
           (VStr "list") (Some Ex2.item_html) (Ex2.app Ex2.items_text) _ H).
Defined.

(** The item is fetched with a list of two: the container is subscribed
    behind its two clones. *)
Lemma loadRoute_subscribes_witness :
  let a := Ex2.app Ex2.items_list in
  exists s',
    loadRoute Toy.js_eval Toy.js_eval_item Ex2.parse_html 3 [1] (VStr "list")
      (Some Ex2.item_html) a = Some (with_page s' a)
    /\ handlers s' = [[1; 2]; [1; 3]; [1]]
    /\ (exists h, handlers s' = handlers (page a) ++ h ++ [[1]]
                  /\ Forall (inside [1]) h)
    /\ subscriptions [1] s' = S (subscriptions [1] (page a)).
Proof.
  assert (H : Toy.processDirectives 3 [1]
                (set_innerHTML Ex2.parse_html [1] Ex2.item_html
                   (page (Ex2.app Ex2.items_list)))
              = Done tt (Ex.after
                           (Toy.processDirectives 3 [1]
                              (set_innerHTML Ex2.parse_html [1] Ex2.item_html
                                 (Ex2.shell Ex2.items_list)))
                           (Ex2.shell Ex2.items_list)))
    by (vm_compute; reflexivity).
  eexists.
  destruct (loadRoute_subscribes Toy.js_eval Toy.js_eval_item Ex2.parse_html
              3 [1] (VStr "list") Ex2.item_html (Ex2.app Ex2.items_list) _ H)
    as (H1 & H2 & H3).
  refine (conj H1 (conj _ (conj H2 H3))). vm_compute. reflexivity.
Defined.

(** The text the container held is detached once the item is loaded. *)
Lemma loadRoute_replaces_witness :
  let a := Ex2.app Ex2.items_list in
  exists a',
    loadRoute Toy.js_eval Toy.js_eval_item Ex2.parse_html 3 [1] (VStr "list")
      (Some Ex2.item_html) a = Some a'
    /\ exists m, lookup_node [1; 0] (document (page a')) = Some m
                 /\ is_detached m = true.
Proof.
  eexists.
  assert (H : loadRoute Toy.js_eval Toy.js_eval_item Ex2.parse_html 3 [1]
                (VStr "list") (Some Ex2.item_html) (Ex2.app Ex2.items_list)
              = Some (with_page
                        (Ex.after
                           (Toy.processDirectives 3 [1]
                              (set_innerHTML Ex2.parse_html [1] Ex2.item_html
                                 (Ex2.shell Ex2.items_list)))
                           (Ex2.shell Ex2.items_list))
                        (Ex2.app Ex2.items_list)))
    by (vm_compute; reflexivity).
  refine (conj H _).
  exact (loadRoute_replaces Toy.js_eval Toy.js_eval_item Ex2.parse_html 3 [1]
           (VStr "list") (Some Ex2.item_html) (Ex2.app Ex2.items_list) _
           (Ex.el "MAIN" [] [TextNode "old"]) 0 (TextNode "old")
           eq_refl eq_refl H).
Defined.

(** * The recursion of the first pass ends *)

Lemma height_children n :
  height n = if fst (kind n) then 0 else S (list_max (map height (children n))).
Proof. by destruct n. Qed.

Lemma list_max_lookup (l : list nat) i x : l !! i = Some x -> x <= list_max l.
Proof.
  revert i. induction l as [|y l IH]; intros [|i] H; simpl in *; try done.
  - injection H as ->. lia.
  - specialize (IH i H). lia.
Qed.

Lemma height_child n i c : children n !! i = Some c -> height c < height n.
Proof.
  destruct n as [t|d e cs]; [done|]. simpl. intros H.
  assert (height c <= list_max (map height cs)); [|lia].
  apply (list_max_lookup _ i). change (map height cs) with (height <$> cs).
  by rewrite list_lookup_fmap, H.
Qed.

Lemma height_lookup_le r n x : lookup_node r n = Some x -> height x <= height n.
Proof.
  revert n. induction r as [|i r IH]; intros n H.
  - simpl in H. injection H as ->. lia.
  - rewrite lookup_node_cons in H.
    destruct (children n !! i) as [c|] eqn:Hc; [|done]. simpl in H.
    apply IH in H. apply height_child in Hc. lia.
Qed.

Lemma height_lookup_lt r n x :
  r <> [] -> lookup_node r n = Some x -> height x < height n.
Proof.
  destruct r as [|i r]; [done|]. intros _ H. rewrite lookup_node_cons in H.
  destruct (children n !! i) as [c|] eqn:Hc; [|done]. simpl in H.
  apply height_lookup_le in H. apply height_child in Hc. lia.
Qed.

Lemma map_height_alter (g : node -> node) i cs :
  (forall c, cs !! i = Some c -> height (g c) = height c) ->
  map height (alter g i cs) = map height cs.
Proof.
  revert i. induction cs as [|c cs IH]; intros [|i] H; simpl; try done.
  - f_equal. by apply H.
  - f_equal. apply IH. intros c' Hc'. by apply H.
Qed.

(** A change at [p] that keeps every node below [p] in place and as high
    as it was keeps every node of the tree so. *)
Lemma keeps_height_alter_node f p n :
  (forall m, lookup_node p n = Some m -> forall r x, lookup_node r m = Some x ->
     exists x', lookup_node r (f m) = Some x' /\ height x' = height x) ->
  forall q x, lookup_node q n = Some x ->
    exists x', lookup_node q (alter_node f p n) = Some x' /\ height x' = height x.
Proof.
  revert n. induction p as [|i p IH]; intros n Hf q x Hq.
  - simpl. by apply (Hf n eq_refl).
  - destruct n as [t|d e cs]; [by exists x|].
    assert (Hi : forall c, cs !! i = Some c ->
              forall q x, lookup_node q c = Some x ->
                exists x', lookup_node q (alter_node f p c) = Some x'
                           /\ height x' = height x).
    { intros c Hc. apply IH. intros m Hm. apply Hf.
      by rewrite lookup_node_cons; simpl; rewrite Hc. }
    destruct q as [|j q].
    + simpl in Hq. injection Hq as <-. eexists. split; [done|].
      cbn [alter_node height]. f_equal. f_equal. apply map_height_alter.
      intros c Hc. destruct (Hi c Hc [] c eq_refl) as (x' & Hx' & Hh).
      simpl in Hx'. by injection Hx' as <-.
    + rewrite lookup_node_cons in *. rewrite children_alter_cons.
      cbn [children] in *. destruct (decide (j = i)) as [->|Hne].
      * rewrite list_lookup_alter_eq.
        destruct (cs !! i) as [c|] eqn:Hc; [|done]. simpl in *.
        by apply Hi.
      * rewrite list_lookup_alter_ne by done. by exists x.
Qed.

Lemma keeps_height_refl s : keeps_height s s.
Proof. intros q x H. by exists x. Qed.

Lemma keeps_height_trans s1 s2 s3 :
  keeps_height s1 s2 -> keeps_height s2 s3 -> keeps_height s1 s3.
Proof.
  intros H12 H23 q x Hx. destruct (H12 q x Hx) as (x2 & Hx2 & E2).
  destruct (H23 q x2 Hx2) as (x3 & Hx3 & E3). exists x3. split; [done|lia].
Qed.

Lemma keeps_height_same s s' : document s' = document s -> keeps_height s s'.
Proof. intros H q x Hx. rewrite H. by exists x. Qed.

Lemma keeps_height_at s s' q :
  keeps_height s s' -> is_Some (lookup_node q (document s)) ->
  height_at q s' = height_at q s.
Proof.
  intros H [x Hx]. unfold height_at. destruct (H q x Hx) as (x' & -> & E).
  by rewrite Hx.
Qed.

(** A change of the node at [p] itself, not of its children. *)
Lemma keeps_height_local f p s :
  local f -> (forall m, fst (kind (f m)) = fst (kind m)) ->
  keeps_height s (with_document (alter_node f p (document s)) s).
Proof.
  intros Hl Hk q x Hq. cbn [document with_document].
  apply keeps_height_alter_node; [|done].
  intros m _ r y Hy. destruct r as [|i r].
  - simpl in Hy. injection Hy as <-. eexists. split; [done|].
    by rewrite !height_children, Hk, Hl.
  - rewrite lookup_node_cons in *. rewrite Hl. by exists y.
Qed.

Lemma keeps_height_map_elem g p s :
  keeps_height s (with_document (alter_node (map_elem g) p (document s)) s).
Proof. apply keeps_height_local; [apply local_map_elem|by intros [t|d e cs]]. Qed.

Lemma keeps_height_remove p s : keeps_height s (remove p s).
Proof. apply keeps_height_local; [apply local_set_detached|by intros [t|d e cs]]. Qed.

Lemma list_max_snoc l x : list_max (l ++ [x]) = Nat.max (list_max l) x.
Proof. rewrite list_max_app. simpl. lia. Qed.

(** A child no higher than one of its siblings. *)
Lemma keeps_height_appendChild par c s m i x :
  lookup_node par (document s) = Some m -> children m !! i = Some x ->
  height c <= height x ->
  keeps_height s (snd (appendChild par c s)).
Proof.
  intros Hm Hi Hc q y Hq. unfold appendChild. cbn [snd document with_document].
  apply keeps_height_alter_node; [|done].
  intros m' Hm' r z Hz. rewrite Hm in Hm'. injection Hm' as <-.
  destruct r as [|j r].
  - simpl in Hz. injection Hz as <-. eexists. split; [done|].
    destruct m as [t|d e cs]; [done|]. cbn [add_child height children] in *.
    f_equal. rewrite map_app, list_max_app.
    assert (height x <= list_max (map height cs)).
    { apply (list_max_lookup _ i). change (map height cs) with (height <$> cs).
      by rewrite list_lookup_fmap, Hi. }
    cbn [map list_max fold_right]. lia.
  - exists z. split; [|done]. by apply lookup_add_child.
Qed.

Lemma height_cloneNode n : height (cloneNode n) <= height n.
Proof.
  induction n as [t|d e cs IH] using node_ind'; [done|]. simpl.
  apply le_n_S. induction cs as [|c cs IHcs]; [done|].
  apply Forall_cons in IH as [Hc IH]. specialize (IHcs IH). simpl.
  destruct (is_detached c); simpl; lia.
Qed.


Lemma final_bind_Done {A B : Type} (o : outcome A) (b : B) :
  final (bind o (fun _ s => Done b s)) = final o.
Proof. by destruct o. Qed.

Lemma forEachO_ends {A B : Type} (Inv : State -> Prop)
  (f : A -> State -> outcome B) l s :
  (forall s1 s2, Inv s1 -> keeps_height s1 s2 -> Inv s2) ->
  (forall x s1, x ∈ l -> Inv s1 ->
     exists s2, final (f x s1) = Some s2 /\ keeps_height s1 s2) ->
  Inv s ->
  exists s', final (forEachO f l s) = Some s' /\ keeps_height s s'.
Proof.
  intros Hinv. revert s. induction l as [|x l IH]; intros s Hf Hs.
  - exists s. split; [done|apply keeps_height_refl].
  - destruct (Hf x s) as (s2 & Hfin & Hk); [by apply elem_of_cons; left|done|].
    simpl. destruct (f x s) as [b s1|s1|]; simpl in *; [| |done].
    + injection Hfin as ->.
      destruct (IH s2) as (s' & Hfin' & Hk').
      { intros y s1 Hy. apply Hf. by apply elem_of_cons; right. }
      { by eapply Hinv. }
      exists s'. split; [done|]. by eapply keeps_height_trans.
    + injection Hfin as ->. by exists s2.
Qed.

Lemma forEachO_more {A B : Type} (f g : A -> State -> outcome B) l s :
  (forall x s1, final (f x s1) <> None -> g x s1 = f x s1) ->
  final (forEachO f l s) <> None -> forEachO g l s = forEachO f l s.
Proof.
  intros Hfg. revert s. induction l as [|x l IH]; intros s H; [done|].
  simpl in *. rewrite Hfg; [|by destruct (f x s)].
  destruct (f x s) as [b s1|s1|]; simpl in *; [by apply IH|done|done].
Qed.

Lemma parentNode_lookup p s par :
  parentNode p s = Some par ->
  exists i m x, p = par ++ [i] /\ lookup_node par (document s) = Some m
                /\ children m !! i = Some x
                /\ lookup_node p (document s) = Some x.
Proof.
  intros H. pose proof (parentNode_Some p s par H) as ->.
  unfold parentNode in H. destruct p as [|j p]; [done|].
  destruct (lookup_node (j :: p) (document s)) as [x|] eqn:Hx; [|done].
  assert (Hp : j :: p = removelast (j :: p) ++ [List.last (j :: p) 0])
    by by apply app_removelast_last.
  exists (List.last (j :: p) 0).
  rewrite Hp, lookup_node_app in Hx.
  destruct (lookup_node (removelast (j :: p)) (document s)) as [m|] eqn:Hm;
    [|done].
  exists m, x. split; [done|]. split; [done|]. split.
  - cbn [mbind option_bind] in Hx. rewrite lookup_node_cons in Hx.
    destruct (children m !! _) as [c|]; [|done]. simpl in Hx. congruence.
  - done.
Qed.

Section Termination.
Variable js_eval : string -> gmap string jsval -> option jsval.
Variable js_eval_item :
  string -> jsval -> string -> gmap string jsval -> option jsval.

Lemma height_subst_node name item st n :
  height (subst_node js_eval_item name item st n) = height n.
Proof.
  induction n as [t|d e cs IH] using node_ind'; [done|]. simpl.
  f_equal. f_equal.
  induction cs as [|c cs IHcs]; [done|].
  apply Forall_cons in IH as [Hc IH]. simpl. by rewrite Hc, IHcs.
Qed.

Lemma height_subst_clone name item st n :
  height (subst_clone js_eval_item name item st n) = height n.
Proof.
  destruct n as [t|d e cs]; [done|]. simpl. f_equal. f_equal.
  induction cs as [|c cs IH]; [done|]. simpl.
  by rewrite height_subst_node, IH.
Qed.

Lemma height_interpolate_node st n :
  height (fst (interpolate_node js_eval st n)) = height n.
Proof.
  induction n as [t|d e cs IH] using node_ind'.
  - rewrite !height_children, interpolate_node_kind. done.
  - rewrite (height_children (fst _)), interpolate_node_kind,
      interpolate_node_children.
    cbn [kind fst children height]. f_equal. f_equal.
    induction cs as [|c cs IHcs]; [done|].
    apply Forall_cons in IH as [Hc IH]. cbn [fmap list_fmap map].
    rewrite <- IHcs by done. f_equal.
    unfold interpolated_child. by destruct (is_detached c).
Qed.

Lemma lookup_interpolate_node st r : forall n x,
  lookup_node r n = Some x ->
  exists x', lookup_node r (fst (interpolate_node js_eval st n)) = Some x'
             /\ height x' = height x.
Proof.
  induction r as [|i r IH]; intros n x H.
  - simpl in H. injection H as <-. eexists. split; [done|].
    apply height_interpolate_node.
  - rewrite lookup_node_cons in *.
    rewrite interpolate_node_children, list_lookup_fmap.
    destruct (children n !! i) as [c|]; [|done]. simpl in *.
    unfold interpolated_child. destruct (is_detached c); [by exists x|by apply IH].
Qed.

Lemma keeps_height_interpolate root s :
  keeps_height s (interpolate js_eval root s).
Proof.
  unfold interpolate.
  eapply keeps_height_trans;
    [apply (keeps_height_same _ (log_event (EInterp root) s)); done|].
  generalize (log_event (EInterp root) s). intros s0.
  destruct (lookup_node root (document s0)) as [n|] eqn:Hn;
    [|apply keeps_height_refl].
  pose proof (lookup_interpolate_node (store s0)) as H.
  destruct (interpolate_node js_eval (store s0) n) as [n' l] eqn:E.
  eapply keeps_height_trans; [|by apply keeps_height_same].
  intros q x Hq. cbn [document with_document].
  apply keeps_height_alter_node; [|done].
  intros m Hm r y Hy. rewrite Hn in Hm. injection Hm as <-.
  specialize (H r n y Hy). by rewrite E in H.
Qed.

Lemma keeps_height_evalInContext expr s :
  keeps_height s (snd (evalInContext js_eval expr s)).
Proof. apply keeps_height_same, evalInContext_document. Qed.

Lemma keeps_height_removeAttribute p a s : keeps_height s (removeAttribute p a s).
Proof. apply keeps_height_map_elem. Qed.

Lemma keeps_height_processIf p s : keeps_height s (snd (processIf js_eval p s)).
Proof.
  unfold processIf.
  eapply keeps_height_trans;
    [apply (keeps_height_same _ (log_event (EIf p) s)); done|].
  generalize (log_event (EIf p) s). intros s0.
  destruct (getAttribute _ _ s0) as [e|]; [|apply keeps_height_refl].
  destruct (String.eqb e ""); [apply keeps_height_refl|].
  pose proof (keeps_height_evalInContext e s0) as H.
  destruct (evalInContext js_eval e s0) as [v s1]. cbn [snd] in *.
  eapply keeps_height_trans; [exact H|].
  destruct (truthy v); cbn [snd];
    [apply keeps_height_removeAttribute|apply keeps_height_remove].
Qed.

Lemma keeps_height_bindModel p s : keeps_height s (snd (bindModel js_eval p s)).
Proof.
  unfold bindModel.
  eapply keeps_height_trans;
    [apply (keeps_height_same _ (log_event (EModel p) s)); done|].
  generalize (log_event (EModel p) s). intros s0.
  destruct (getAttribute _ _ s0) as [e|]; [|apply keeps_height_refl].
  destruct (String.eqb e ""); [apply keeps_height_refl|].
  pose proof (keeps_height_evalInContext e s0) as H.
  destruct (evalInContext js_eval e s0) as [v s1]. cbn [snd] in *.
  eapply keeps_height_trans; [exact H|].
  eapply keeps_height_trans; [|apply keeps_height_removeAttribute].
  destruct (is_input_tag _); [apply keeps_height_map_elem|apply keeps_height_refl].
Qed.

Lemma keeps_height_bindClick p s : keeps_height s (snd (bindClick p s)).
Proof.
  unfold bindClick.
  eapply keeps_height_trans;
    [apply (keeps_height_same _ (log_event (EClick p) s)); done|].
  generalize (log_event (EClick p) s). intros s0.
  destruct (getAttribute _ _ s0) as [e|]; [|apply keeps_height_refl].
  destruct (String.eqb e ""); [apply keeps_height_refl|]. cbn [snd].
  eapply keeps_height_trans; [|apply keeps_height_removeAttribute].
  apply keeps_height_map_elem.
Qed.

Lemma forEach_keeps_height (F : path -> State -> State) L s :
  (forall p s, keeps_height s (F p s)) -> keeps_height s (forEach F L s).
Proof.
  intros HF. revert s. unfold forEach. induction L as [|p L IH]; intros s; simpl.
  - apply keeps_height_refl.
  - eapply keeps_height_trans; [apply HF|apply IH].
Qed.

Lemma keeps_height_passes root s :
  keeps_height s
    (subscribe root
       (interpolate js_eval root
          (click_pass root (model_pass js_eval root (if_pass js_eval root s))))).
Proof.
  eapply keeps_height_trans.
  { apply (forEach_keeps_height (fun p s => snd (processIf js_eval p s))).
    intros p s'. apply keeps_height_processIf. }
  eapply keeps_height_trans.
  { apply (forEach_keeps_height (fun p s => snd (bindModel js_eval p s))).
    intros p s'. apply keeps_height_bindModel. }
  eapply keeps_height_trans.
  { apply (forEach_keeps_height (fun p s => snd (bindClick p s))).
    intros p s'. apply keeps_height_bindClick. }
  eapply keeps_height_trans; [apply keeps_height_interpolate|].
  by apply keeps_height_same.
Qed.

(** One repeat directive ends when the passes over its clones do. *)
Lemma processFor_body_ends rec fuel p s :
  (forall c s, height_at c s < fuel ->
     exists s', final (rec c s) = Some s' /\ keeps_height s s') ->
  height_at p s < fuel ->
  exists s', final (processFor_body js_eval js_eval_item rec p s) = Some s'
             /\ keeps_height s s'.
Proof.
  intros Hrec Hh. unfold processFor_body.
  assert (Hh0 : height_at p (log_event (EFor p) s) < fuel) by exact Hh.
  cut (exists s',
         final
           (let s0 := log_event (EFor p) s in
            match getAttribute p "o-for" s0 with
            | Some forExpr =>
                if String.eqb forExpr "" then Done false s0
                else
                  match Re.match_for forExpr with
                  | Some (itemName, listExpr) =>
                      let '(v, s1) := evalInContext js_eval listExpr s0 in
                      let parent := parentNode p s1 in
                      let template :=
                        cloneNode (default (TextNode "")
                                     (lookup_node p (document s1))) in
                      let s2 := remove p s1 in
                      match forEach_items v with
                      | Some items =>
                          bind (forEachO
                                  (for_item js_eval_item rec itemName template parent)
                                  items s2)
                            (fun _ s3 => Done true s3)
                      | None => Threw s2
                      end
                  | None => Done false s0
                  end
            | None => Done false s0
            end) = Some s'
         /\ keeps_height (log_event (EFor p) s) s').
  { intros (s' & H1 & H2). exists s'. split; [exact H1|exact H2]. }
  cbv zeta. revert Hh0. generalize (log_event (EFor p) s). clear Hh s.
  intros s Hh.
  destruct (getAttribute p "o-for" s) as [forExpr|];
    [|exists s; split; [done|apply keeps_height_refl]].
  destruct (String.eqb forExpr "");
    [exists s; split; [done|apply keeps_height_refl]|].
  destruct (Re.match_for forExpr) as [[itemName listExpr]|];
    [|exists s; split; [done|apply keeps_height_refl]].
  pose proof (evalInContext_document js_eval listExpr s) as Hdoc.
  destruct (evalInContext js_eval listExpr s) as [v s1]. cbn [snd] in Hdoc.
  assert (H2 : keeps_height s (remove p s1)).
  { eapply keeps_height_trans; [by apply (keeps_height_same s s1)|].
    apply keeps_height_remove. }
  destruct (forEach_items v) as [items|]; [|by exists (remove p s1)].
  rewrite final_bind_Done.
  destruct (parentNode p s1) as [par|] eqn:Hpar; cycle 1.
  { exists (remove p s1). split; [|done]. by destruct items. }
  apply parentNode_lookup in Hpar as (i & m & x & Hp & Hm & Hi & Hx).
  assert (Hhx : height x < fuel).
  { unfold height_at in Hh. by rewrite <- Hdoc, Hx in Hh. }
  cbn [default]. rewrite Hx. cbn [default].
  destruct (forEachO_ends (fun sc => keeps_height (remove p s1) sc)
              (for_item js_eval_item rec itemName (cloneNode x) (Some par))
              items (remove p s1)) as (s' & Hfin & Hk).
  - intros sa sb. apply keeps_height_trans.
  - intros item sc _ Hsc. unfold for_item.
    destruct (keeps_height_remove p s1 _ _ Hx) as (x2 & Hx2 & Ex2).
    destruct (Hsc _ _ Hx2) as (xc & Hxc & Exc).
    assert (Hparc : exists mc, lookup_node par (document sc) = Some mc
                               /\ children mc !! i = Some xc).
    { rewrite Hp, lookup_node_app in Hxc.
      destruct (lookup_node par (document sc)) as [mc|]; [|done].
      exists mc. split; [done|]. cbn [mbind option_bind] in Hxc.
      rewrite lookup_node_cons in Hxc.
      destruct (children mc !! i) as [c|]; [|done]. simpl in Hxc. congruence. }
    destruct Hparc as (mc & Hmc & Hic).
    set (clone := subst_clone js_eval_item itemName item (store sc)
                    (cloneNode (cloneNode x))).
    assert (Hcl : height clone <= height x).
    { unfold clone. rewrite height_subst_clone.
      etransitivity; apply height_cloneNode. }
    pose proof (keeps_height_appendChild par clone sc mc i xc Hmc Hic) as Ha.
    unfold appendChild in *. cbn [snd] in Ha. rewrite Hmc.
    destruct (Hrec (par ++ [length (children mc)])
                (with_document (alter_node (add_child clone) par (document sc)) sc))
      as (s7 & Hfin & Hk).
    { unfold height_at. cbn [document with_document].
      erewrite lookup_child; [|by rewrite lookup_alter_eq, Hmc].
      destruct mc as [t|d e cs]; [done|]. cbn [add_child children].
      rewrite lookup_app_r by done. rewrite Nat.sub_diag. simpl. lia. }
    exists s7. split; [done|]. eapply keeps_height_trans; [|exact Hk].
    apply Ha. lia.
  - apply keeps_height_refl.
  - exists s'. split; [done|]. by eapply keeps_height_trans.
Qed.

Lemma processFor_body_more rec1 rec2 p s :
  (forall c s1, final (rec1 c s1) <> None -> rec2 c s1 = rec1 c s1) ->
  final (processFor_body js_eval js_eval_item rec1 p s) <> None ->
  processFor_body js_eval js_eval_item rec2 p s
  = processFor_body js_eval js_eval_item rec1 p s.
Proof.
  intros Hrec. unfold processFor_body.
  generalize (log_event (EFor p) s). intros s0.
  destruct (getAttribute p "o-for" s0) as [forExpr|]; [|done].
  destruct (String.eqb forExpr ""); [done|].
  destruct (Re.match_for forExpr) as [[itemName listExpr]|]; [|done].
  destruct (evalInContext js_eval listExpr s0) as [v s1].
  destruct (forEach_items v) as [items|]; [|done].
  rewrite final_bind_Done. intros H. f_equal.
  apply forEachO_more; [|done].
  intros item sc. unfold for_item. destruct (parentNode p s1); [|done].
  destruct (appendChild _ _ sc) as [c s6]. apply Hrec.
Qed.

(** The pass ends, and keeps every node as high as it was. *)
Lemma processDirectives_fuel fuel root s :
  height_at root s < fuel ->
  exists s', final (processDirectives js_eval js_eval_item fuel root s) = Some s'
             /\ keeps_height s s'.
Proof.
  revert root s. induction fuel as [|fuel IH]; intros root s Hh; [lia|].
  cbn [processDirectives].
  destruct (forEachO_ends (fun sc => keeps_height s sc)
              (processFor_body js_eval js_eval_item
                 (processDirectives js_eval js_eval_item fuel))
              (querySelectorAll root "o-for" s) s) as (s1 & Hfin & Hk).
  - intros sa sb. apply keeps_height_trans.
  - intros p sc Hp Hsc. apply (processFor_body_ends _ fuel); [apply IH|].
    apply querySelectorAll_sound in Hp as (q & -> & (Hq & n & Hn & _ & [x Hx]) & _).
    rewrite (keeps_height_at s sc) by (by rewrite ?lookup_node_app, ?Hn; eauto).
    unfold height_at in *. rewrite lookup_node_app, Hn. cbn [mbind option_bind].
    rewrite Hx. rewrite Hn in Hh. apply (height_lookup_lt _ _ _ Hq) in Hx. lia.
  - apply keeps_height_refl.
  - destruct (forEachO _ _ s) as [[] s2|s2|]; simpl in *; [| |done].
    + injection Hfin as ->. eexists. split; [done|].
      eapply keeps_height_trans; [exact Hk|apply keeps_height_passes].
    + injection Hfin as ->. by exists s1.
Qed.

Lemma processDirectives_S fuel root s :
  final (processDirectives js_eval js_eval_item fuel root s) <> None ->
  processDirectives js_eval js_eval_item (S fuel) root s
  = processDirectives js_eval js_eval_item fuel root s.
Proof.
  revert root s. induction fuel as [|fuel IH]; intros root s H; [done|].
  cbn [processDirectives] in *.
  rewrite (forEachO_more
             (processFor_body js_eval js_eval_item
                (processDirectives js_eval js_eval_item fuel))
             (processFor_body js_eval js_eval_item
                (processDirectives js_eval js_eval_item (S fuel)))); [done| |].
  - intros p sc. apply processFor_body_more. intros c s1. apply IH.
  - by destruct (forEachO _ _ s).
Qed.

(** X16: the recursion of the first pass ends. With a bound above the
    height of the subtree of [root] the pass returns or throws, it keeps
    every node of the document in place and as high as it was, and a
    larger bound gives the same outcome: the bound is no part of the
    result. *)
Theorem processDirectives_terminates fuel fuel' root s :
  height_at root s < fuel -> fuel <= fuel' ->
  (exists s', final (processDirectives js_eval js_eval_item fuel root s) = Some s'
              /\ keeps_height s s')
  /\ processDirectives js_eval js_eval_item fuel' root s
     = processDirectives js_eval js_eval_item fuel root s.
Proof.
  intros Hh Hle. pose proof (processDirectives_fuel fuel root s Hh) as He.
  split; [exact He|]. destruct He as (s' & Hfin & _).
  induction Hle as [|fuel' Hle IH]; [done|].
  rewrite processDirectives_S; [done|]. by rewrite IH, Hfin.
Qed.

End Termination.

(** The list page is three levels deep: any bound from four on gives the
    same pass. *)
Lemma processDirectives_terminates_witness :
  height_at [] Ex.for_page < 4
  /\ (exists s', final (Toy.processDirectives 4 [] Ex.for_page) = Some s'
                 /\ keeps_height Ex.for_page s')
  /\ Toy.processDirectives 9 [] Ex.for_page
     = Toy.processDirectives 4 [] Ex.for_page.
Proof.
  assert (H : height_at [] Ex.for_page < 4) by (vm_compute; lia).
  exact (conj H (processDirectives_terminates Toy.js_eval Toy.js_eval_item 4 9 []
                   Ex.for_page H ltac:(lia))).
Defined.

(** * Where the clones of a repeat go *)











Section Appends.
Variable js_eval : string -> gmap string jsval -> option jsval.
Variable js_eval_item :
  string -> jsval -> string -> gmap string jsval -> option jsval.




End Appends.


(** * Data that arrives late, and themes that cannot be applied *)

Section Late.
Variable js_eval : string -> gmap string jsval -> option jsval.


(** [applyTheme] builds its token with a prefix: the token is never
    empty, and holds whitespace when the theme does. *)
Lemma theme_token t :
  String.eqb ("theme-" +:+ t) "" || has_whitespace ("theme-" +:+ t)
  = has_whitespace t.
Proof. done. Qed.

(** X19: [applyTheme] throws exactly when the text of the theme holds
    whitespace. Then both theme classes have been removed from the body,
    none has been added and the local storage has not been written.
    Otherwise the body carries the class of the theme, no other class
    among [theme-light] and [theme-dark], every other class it had, and
    the local storage holds the theme. The page itself is never
    touched. *)
Theorem applyTheme_spec a :
  let t := to_string (theme_of a) in
  let a' := settled (applyTheme a) in
  let kept c :=
    In c (body_classes a) /\ c <> "theme-light" /\ c <> "theme-dark" in
  page a' = page a /\ app_console a' = app_console a
  /\ if has_whitespace t
     then applyTheme a = Abrupt a'
          /\ (forall c, In c (body_classes a') <-> kept c)
          /\ localStorage a' = localStorage a
     else applyTheme a = Normal a'
          /\ (forall c, In c (body_classes a') <-> kept c \/ c = "theme-" +:+ t)
          /\ localStorage a' = <["olly-theme" := t]> (localStorage a).
Proof.
  cbv zeta. unfold applyTheme.
  set (t := to_string (theme_of a)).
  set (cl := classList_remove ["theme-light"; "theme-dark"] (body_classes a)).
  assert (Hcl : forall c, In c cl
            <-> In c (body_classes a) /\ c <> "theme-light" /\ c <> "theme-dark").
  { intros c. unfold cl. rewrite classList_remove_In. simpl. split.
    - intros (H1 & H2). split; [done|]. split; intros ->; apply H2; auto.
    - intros (H1 & H2 & H3). split; [done|]. intros [<-|[<-|[]]]; done. }
  destruct (classList_add ("theme-" +:+ t) cl) as [cl'|] eqn:E.
  - pose proof E as E'. unfold classList_add in E'. rewrite theme_token in E'.
    destruct (has_whitespace t); [done|].
    cbn [settled page app_console body_classes localStorage].
    split; [done|]. split; [done|]. split; [done|]. split; [|done].
    intros c. by rewrite (classList_add_In _ _ _ c E), <- Hcl.
  - pose proof E as E'. unfold classList_add in E'. rewrite theme_token in E'.
    destruct (has_whitespace t) eqn:Hw; [|done].
    cbn [settled page app_console body_classes localStorage].
    split; [done|]. split; [done|]. split; [done|]. split; [|done].
    intros c. apply Hcl.
Qed.

End Late.


(** * What the patterns accept *)

Lemma append_nil_l s : EmptyString +:+ s = s.
Proof. done. Qed.

Lemma append_cons_l a s t : String a s +:+ t = String a (s +:+ t).
Proof. done. Qed.

Lemma skip_spaces_app pre c s :
  Re.all_spaces pre = true -> Re.is_space c = false ->
  Re.skip_spaces (pre +:+ String c s) = String c s.
Proof.
  intros Hp Hc. induction pre as [|a pre IH].
  - rewrite ?append_cons_l, ?append_nil_l; cbn [Re.skip_spaces]. by rewrite Hc.
  - cbn [Re.all_spaces] in Hp. apply andb_true_iff in Hp as [Ha Hp].
    rewrite ?append_cons_l, ?append_nil_l; cbn [Re.skip_spaces]. rewrite Ha. by apply IH.
Qed.

Lemma span_word_app name c s :
  all_chars Re.is_word name = true -> Re.is_word c = false ->
  Re.span_word (name +:+ String c s) = (name, String c s).
Proof.
  intros Hn Hc. induction name as [|a name IH].
  - rewrite ?append_cons_l, ?append_nil_l; cbn [Re.span_word]. by rewrite Hc.
  - cbn [all_chars] in Hn. apply andb_true_iff in Hn as [Ha Hn].
    rewrite ?append_cons_l, ?append_nil_l; cbn [Re.span_word]. by rewrite Ha, IH.
Qed.

Lemma span_dot_all s :
  all_chars Re.is_dot s = true -> Re.span_dot s = (s, EmptyString).
Proof.
  induction s as [|a s IH]; [done|]. cbn [all_chars]. intros [Ha Hs]%andb_true_iff.
  cbn [Re.span_dot]. by rewrite Ha, IH.
Qed.

Lemma list_part_app gap c s r :
  Re.all_spaces gap = true -> Re.is_space c = false ->
  Re.dot_plus_end (String c s) = Some r ->
  Re.list_part (gap +:+ String c s) = Some r.
Proof.
  intros Hg Hc Hd. induction gap as [|a gap IH].
  - rewrite ?append_cons_l, ?append_nil_l; cbn [Re.list_part]. by rewrite Hc.
  - cbn [Re.all_spaces] in Hg. apply andb_true_iff in Hg as [Ha Hg].
    rewrite ?append_cons_l, ?append_nil_l; cbn [Re.list_part].
    by rewrite Ha, (IH Hg).
Qed.

Lemma space_not_word c : Re.is_space c = true -> Re.is_word c = false.
Proof.
  unfold Re.is_space, Re.is_word. cbv zeta. generalize (Re.code c). intros n H.
  repeat match goal with
         | H : _ || _ = true |- _ => apply orb_true_iff in H as [H|H]
         | H : _ && _ = true |- _ => apply andb_true_iff in H as [? ?]
         end;
  repeat match goal with
         | H : (_ <=? _) = true |- _ => apply Nat.leb_le in H
         | H : (_ =? _) = true |- _ => apply Nat.eqb_eq in H
         end;
  repeat (apply orb_false_iff; split); try (apply andb_false_iff);
  rewrite ?Nat.leb_gt, ?Nat.eqb_neq; lia.
Qed.

(** X20: a repeat directive written as a name of word characters, [in]
    and an expression, separated by spaces, is read back as that name and
    that expression. Spaces before the name and around [in] are dropped;
    spaces that end the expression are part of it. *)
Theorem match_for_spec pre name g1 gap1 g2 gap2 c expr :
  name <> "" -> all_chars Re.is_word name = true ->
  Re.all_spaces pre = true ->
  Re.all_spaces (String g1 gap1) = true ->
  Re.all_spaces (String g2 gap2) = true ->
  Re.is_space c = false -> all_chars Re.is_dot (String c expr) = true ->
  Re.match_for (pre +:+ name +:+ String g1 gap1 +:+ "in"
                +:+ String g2 gap2 +:+ String c expr)
  = Some (name, String c expr).
Proof.
  intros Hne Hw Hpre Hg1 Hg2 Hc Hd. unfold Re.match_for.
  cbn [Re.all_spaces] in Hg1, Hg2.
  apply andb_true_iff in Hg1 as [Hg1 Hgap1], Hg2 as [Hg2 Hgap2].
  destruct name as [|n0 name]; [done|].
  assert (Hn0 : Re.is_space n0 = false).
  { cbn [all_chars] in Hw. apply andb_true_iff in Hw as [Hw _].
    destruct (Re.is_space n0) eqn:E; [|done].
    apply space_not_word in E. congruence. }
  change (String n0 name +:+ String g1 gap1 +:+ "in" +:+ String g2 gap2
          +:+ String c expr)
    with (String n0 (name +:+ String g1 gap1 +:+ "in" +:+ String g2 gap2
                     +:+ String c expr)).
  rewrite (skip_spaces_app pre n0 _ Hpre Hn0).
  change (String n0 (name +:+ String g1 gap1 +:+ "in" +:+ String g2 gap2
                     +:+ String c expr))
    with (String n0 name +:+ String g1 (gap1 +:+ "in" +:+ String g2 gap2
                                        +:+ String c expr)).
  rewrite (span_word_app _ g1 _ Hw (space_not_word _ Hg1)). rewrite Hg1.
  cbn [Re.skip_spaces]. rewrite Hg1.
  change (gap1 +:+ "in" +:+ String g2 gap2 +:+ String c expr)
    with (gap1 +:+ String "i" ("n" +:+ String g2 gap2 +:+ String c expr)).
  rewrite (skip_spaces_app gap1 "i" _ Hgap1 eq_refl).
  change (Re.strip_prefix "in"
            (String "i" ("n" +:+ String g2 gap2 +:+ String c expr)))
    with (Some (String g2 (gap2 +:+ String c expr))).
  cbv beta iota.
  rewrite Hg2, (list_part_app _ _ _ (String c expr) Hgap2 Hc); [done|].
  unfold Re.dot_plus_end. by rewrite (span_dot_all _ Hd).
Qed.

Lemma match_for_spec_witness :
  Re.match_for "  item  in   todoList " = Some ("item", "todoList ").
Proof.
  apply (match_for_spec "  " "item" " " " " " " "  " "t" "odoList ");
    try reflexivity.
  discriminate.
Defined.

Lemma close_at_inside s tail :
  s <> "" -> all_chars is_plain s = true -> ends_tight s = true ->
  Re.close_at (s +:+ tail) = None.
Proof.
  unfold Re.close_at. induction s as [|a s IH]; [done|]. intros _ Hp Ht.
  cbn [all_chars] in Hp. apply andb_true_iff in Hp as [Ha Hp].
  rewrite ?append_cons_l, ?append_nil_l; cbn [Re.skip_spaces]. destruct (Re.is_space a) eqn:Es.
  - apply IH; [|done|].
    + intros ->. unfold ends_tight in Ht. simpl in Ht. by rewrite Es in Ht.
    + unfold ends_tight in *. by destruct s.
  - unfold is_plain in Ha. apply andb_true_iff in Ha as [_ Ha].
    apply negb_true_iff in Ha. cbn [Re.strip_prefix].
    rewrite Ascii.eqb_sym. by rewrite Ha.
Qed.

Lemma close_at_end post rest :
  Re.all_spaces post = true -> Re.close_at (post +:+ "}}" +:+ rest) = Some rest.
Proof.
  intros Hp. unfold Re.close_at.
  change (post +:+ "}}" +:+ rest) with (post +:+ String "}" ("}" +:+ rest)).
  by rewrite (skip_spaces_app post "}" _ Hp eq_refl).
Qed.

Lemma lazy_body_spec e : forall c post rest,
  all_chars is_plain (String c e) = true -> ends_tight (String c e) = true ->
  Re.all_spaces post = true ->
  Re.lazy_body (String c e +:+ post +:+ "}}" +:+ rest) = Some (String c e, rest).
Proof.
  induction e as [|c' e IH]; intros c post rest Hp Ht Hpost.
  - change (String c "" +:+ post +:+ "}}" +:+ rest)
      with (String c (post +:+ "}}" +:+ rest)).
    cbn [Re.lazy_body]. cbn [all_chars] in Hp.
    apply andb_true_iff in Hp as [Hc _]. unfold is_plain in Hc.
    apply andb_true_iff in Hc as [Hc _]. rewrite Hc.
    by rewrite close_at_end.
  - change (String c (String c' e) +:+ post +:+ "}}" +:+ rest)
      with (String c (String c' e +:+ (post +:+ "}}" +:+ rest))).
    cbn [Re.lazy_body]. cbn [all_chars] in Hp.
    apply andb_true_iff in Hp as [Hc Hp]. unfold is_plain in Hc.
    apply andb_true_iff in Hc as [Hc _]. rewrite Hc.
    rewrite close_at_inside; [|done|done|done].
    change (String c' e +:+ (post +:+ "}}" +:+ rest))
      with (String c' e +:+ post +:+ "}}" +:+ rest).
    by rewrite IH.
Qed.

Lemma after_open_app pre c s r :
  Re.all_spaces pre = true -> Re.is_space c = false ->
  Re.lazy_body (String c s) = Some r ->
  Re.after_open (pre +:+ String c s) = Some r.
Proof.
  intros Hp Hc Hl. induction pre as [|a pre IH].
  - rewrite ?append_cons_l, ?append_nil_l; cbn [Re.after_open]. by rewrite Hc.
  - cbn [Re.all_spaces] in Hp. apply andb_true_iff in Hp as [Ha Hp].
    rewrite ?append_cons_l, ?append_nil_l; cbn [Re.after_open]. by rewrite Ha, (IH Hp).
Qed.

(** X21: a placeholder written as the opening marker, an expression and
    the closing marker is read back as that expression, without the
    spaces around it, when the expression holds neither a line
    terminator nor a closing brace and neither starts nor ends with a
    space. What follows the closing marker is left for the next match. *)
Theorem match_interp_spec pre c e post rest :
  Re.all_spaces pre = true -> Re.all_spaces post = true ->
  Re.is_space c = false ->
  all_chars is_plain (String c e) = true -> ends_tight (String c e) = true ->
  Re.match_interp ("{{" +:+ pre +:+ String c e +:+ post +:+ "}}" +:+ rest)
  = Some (String c e, rest).
Proof.
  intros Hpre Hpost Hc Hp Ht. unfold Re.match_interp.
  change (Re.strip_prefix "{{"
            ("{{" +:+ pre +:+ String c e +:+ post +:+ "}}" +:+ rest))
    with (Some (pre +:+ String c e +:+ post +:+ "}}" +:+ rest)).
  change (pre +:+ String c e +:+ post +:+ "}}" +:+ rest)
    with (pre +:+ String c (e +:+ post +:+ "}}" +:+ rest)).
  apply after_open_app; [done|done|].
  by apply (lazy_body_spec e c post rest).
Qed.

Lemma match_interp_spec_witness :
  Re.match_interp "{{  user.name }} and more" = Some ("user.name", " and more").
Proof.
  by apply (match_interp_spec "  " "u" "ser.name" " " " and more").
Defined.

(** * Class lists *)

Lemma mem_In t (l : list string) : existsb (String.eqb t) l = true <-> In t l.
Proof.
  rewrite existsb_exists. split.
  - intros (x & Hx & ->%String.eqb_eq). done.
  - intros H. exists t. split; [done|apply String.eqb_refl].
Qed.

Lemma mem_not_In t (l : list string) :
  existsb (String.eqb t) l = false <-> ~ In t l.
Proof.
  rewrite <- mem_In. destruct (existsb _ l); split; done.
Qed.

Lemma has_whitespace_app s t :
  has_whitespace (s +:+ t) = has_whitespace s || has_whitespace t.
Proof.
  induction s as [|c s IH]; [done|]. rewrite append_cons_l.
  cbn [has_whitespace]. by rewrite IH, orb_assoc.
Qed.

Lemma append_eq_empty s t : s +:+ t = "" -> s = "" /\ t = "".
Proof. destruct s; [done|]. rewrite append_cons_l. done. Qed.

Lemma split_tokens_token t s cur :
  has_whitespace t = false ->
  split_tokens cur (t +:+ s) = split_tokens (cur +:+ t) s.
Proof.
  revert cur. induction t as [|c t IH]; intros cur Ht.
  - by rewrite append_nil_l, append_empty_r.
  - cbn [has_whitespace] in Ht. apply orb_false_iff in Ht as [Hc Ht].
    rewrite append_cons_l. cbn [split_tokens]. rewrite Hc, (IH _ Ht).
    by rewrite append_assoc, append_cons_l, append_nil_l.
Qed.

Lemma concat_cons2 sep (t t2 : string) l :
  String.concat sep (t :: t2 :: l) = t +:+ sep +:+ String.concat sep (t2 :: l).
Proof. done. Qed.

Lemma split_serialize l :
  Forall is_token l -> split_tokens "" (serialize l) = l.
Proof.
  unfold serialize. induction l as [|t l IH]; intros H; [done|].
  apply Forall_cons in H as [[Hne Hw] H].
  destruct l as [|t2 l].
  - cbn [String.concat]. rewrite <- (append_empty_r t) at 1.
    rewrite (split_tokens_token _ _ _ Hw), append_nil_l. cbn [split_tokens].
    apply String.eqb_neq in Hne. by rewrite Hne.
  - rewrite concat_cons2, (split_tokens_token _ _ _ Hw), append_nil_l.
    change (" " +:+ String.concat " " (t2 :: l))
      with (String " " (String.concat " " (t2 :: l))).
    cbn [split_tokens].
    change (is_ascii_whitespace " ") with true. cbv iota.
    apply String.eqb_neq in Hne. rewrite Hne. f_equal. by apply IH.
Qed.

Lemma split_tokens_clean s : forall cur,
  has_whitespace cur = false -> Forall is_token (split_tokens cur s).
Proof.
  induction s as [|c s IH]; intros cur Hcur; cbn [split_tokens].
  - destruct (String.eqb cur "") eqn:E; [done|].
    apply Forall_singleton. by apply String.eqb_neq in E.
  - destruct (is_ascii_whitespace c) eqn:Hc.
    + destruct (String.eqb cur "") eqn:E; [by apply IH|].
      apply Forall_cons. split; [by apply String.eqb_neq in E|by apply IH].
    + apply IH. rewrite has_whitespace_app, Hcur. cbn [has_whitespace].
      by rewrite Hc.
Qed.

Lemma ordered_set_add_In acc l t :
  In t (ordered_set_add acc l) <-> In t acc \/ In t l.
Proof.
  unfold ordered_set_add. revert acc. induction l as [|x l IH]; intros acc.
  - simpl. tauto.
  - cbn [fold_left]. rewrite IH. destruct (existsb (String.eqb x) acc) eqn:E.
    + apply mem_In in E. simpl. split; [tauto|].
      intros [H|[<-|H]]; auto.
    + rewrite in_app_iff. simpl. tauto.
Qed.

Lemma ordered_set_add_NoDup acc l :
  NoDup acc -> NoDup (ordered_set_add acc l).
Proof.
  unfold ordered_set_add. revert acc. induction l as [|x l IH]; intros acc H;
    [done|].
  cbn [fold_left]. apply IH. destruct (existsb (String.eqb x) acc) eqn:E; [done|].
  apply mem_not_In in E. apply NoDup_app. split; [done|]. split.
  - intros y Hy Hx. apply list_elem_of_singleton in Hx as ->.
    by apply list_elem_of_In in Hy.
  - apply NoDup_singleton.
Qed.

Lemma ordered_set_add_id acc l :
  NoDup (acc ++ l) -> ordered_set_add acc l = acc ++ l.
Proof.
  unfold ordered_set_add. revert acc. induction l as [|x l IH]; intros acc H.
  - by rewrite app_nil_r.
  - cbn [fold_left].
    assert (E : existsb (String.eqb x) acc = false).
    { apply mem_not_In. intros Hin. apply NoDup_app in H as (_ & H & _).
      apply (H x); [by apply list_elem_of_In|by apply elem_of_cons; left]. }
    rewrite E, IH, <- app_assoc; [done|]. by rewrite <- app_assoc.
Qed.

(** The tokens of an element are tokens, without duplicates. *)
Lemma class_tokens_clean e :
  Forall is_token (class_tokens e) /\ NoDup (class_tokens e).
Proof.
  unfold class_tokens. split.
  - apply Forall_forall. intros t Ht. apply list_elem_of_In in Ht.
    apply ordered_set_add_In in Ht as [[]|Ht].
    pose proof (split_tokens_clean (default "" (get_attr "class" (attributes e)))
                  "" eq_refl) as H.
    rewrite Forall_forall in H. apply H. by apply list_elem_of_In.
  - apply ordered_set_add_NoDup, NoDup_nil_2.
Qed.

Lemma get_attr_set_attr_eq a v attrs : get_attr a (set_attr a v attrs) = Some v.
Proof.
  induction attrs as [|[k w] attrs IH]; simpl.
  - by rewrite String.eqb_refl.
  - destruct (String.eqb k a) eqn:E; simpl; by rewrite E.
Qed.

Lemma get_attr_set_attr_ne a b v attrs :
  b <> a -> get_attr b (set_attr a v attrs) = get_attr b attrs.
Proof.
  intros Hne. induction attrs as [|[k w] attrs IH]; simpl.
  - apply String.eqb_neq in Hne. rewrite String.eqb_sym in Hne. by rewrite Hne.
  - destruct (String.eqb k a) eqn:E; simpl.
    + apply String.eqb_eq in E as ->.
      assert (String.eqb a b = false) as ->; [|done].
      apply String.eqb_neq. congruence.
    + by rewrite IH.
Qed.

(** Writing a clean set and reading it back. *)
Lemma class_tokens_set_class l e :
  Forall is_token l -> NoDup l -> class_tokens (set_class l e) = l.
Proof.
  intros Hl Hn. unfold class_tokens, set_class. cbn [attributes set_attributes].
  rewrite get_attr_set_attr_eq. cbn [default]. unfold id.
  rewrite (split_serialize _ Hl). by apply (ordered_set_add_id []).
Qed.


(** * updateNavActive *)

Lemma is_token_active : is_token "active".
Proof. by split. Qed.

Lemma existsb_ext_In t (l l' : list string) :
  (In t l <-> In t l') -> existsb (String.eqb t) l = existsb (String.eqb t) l'.
Proof.
  intros H. destruct (existsb (String.eqb t) l') eqn:E.
  - apply mem_In. apply H. by apply mem_In.
  - apply mem_not_In. intros Hin. apply mem_not_In in E. apply E. by apply H.
Qed.

Lemma NoDup_List_filter {A : Type} (f : A -> bool) (l : list A) :
  NoDup l -> NoDup (List.filter f l).
Proof.
  induction 1 as [|x l Hx Hn IH]; simpl; [constructor|].
  destruct (f x); [|done]. constructor; [|done].
  rewrite list_elem_of_In, filter_In. rewrite list_elem_of_In in Hx. tauto.
Qed.

(** What [classList.toggle(token, force)] leaves in the set: [token] if
    and only if [force], and the other tokens as they were. *)
Lemma classList_toggle_In token force e t :
  is_token token ->
  In t (class_tokens (classList_toggle token force e))
  <-> if String.eqb t token then force = true else In t (class_tokens e).
Proof.
  intros Htok. unfold classList_toggle.
  destruct (class_tokens_clean e) as [Hc Hn].
  destruct (String.eqb t token) eqn:Et.
  - apply String.eqb_eq in Et as ->.
    destruct (existsb (String.eqb token) (class_tokens e)) eqn:E, force.
    + apply mem_In in E. done.
    + rewrite class_tokens_set_class.
      * rewrite filter_In, String.eqb_refl. simpl. split; [by intros [_ ?]|done].
      * apply Forall_forall. intros x Hx. apply list_elem_of_In, filter_In in Hx.
        rewrite Forall_forall in Hc. apply Hc. apply list_elem_of_In. tauto.
      * by apply NoDup_List_filter.
    + rewrite class_tokens_set_class.
      * rewrite in_app_iff. simpl. tauto.
      * apply Forall_app. split; [done|by apply Forall_singleton].
      * apply NoDup_app. split; [done|]. split; [|apply NoDup_singleton].
        intros x Hx ->%list_elem_of_singleton. apply mem_not_In in E.
        by apply list_elem_of_In in Hx.
    + apply mem_not_In in E. done.
  - apply String.eqb_neq in Et.
    destruct (existsb (String.eqb token) (class_tokens e)) eqn:E, force;
      try done.
    + rewrite class_tokens_set_class.
      * rewrite filter_In. apply String.eqb_neq in Et. rewrite Et. simpl. tauto.
      * apply Forall_forall. intros x Hx. apply list_elem_of_In, filter_In in Hx.
        rewrite Forall_forall in Hc. apply Hc. apply list_elem_of_In. tauto.
      * by apply NoDup_List_filter.
    + rewrite class_tokens_set_class.
      * rewrite in_app_iff. simpl. split; [intros [H|[H|[]]]; [done|by subst]|tauto].
      * apply Forall_app. split; [done|by apply Forall_singleton].
      * apply NoDup_app. split; [done|]. split; [|apply NoDup_singleton].
        intros x Hx ->%list_elem_of_singleton. apply mem_not_In in E.
        by apply list_elem_of_In in Hx.
Qed.

(** The toggle writes the [class] attribute only. *)
Lemma classList_toggle_frame token force e :
  tagName (classList_toggle token force e) = tagName e
  /\ value (classList_toggle token force e) = value e
  /\ listeners (classList_toggle token force e) = listeners e
  /\ forall a, a <> "class" ->
       get_attr a (attributes (classList_toggle token force e))
       = get_attr a (attributes e).
Proof.
  unfold classList_toggle.
  destruct (existsb _ _), force; try done;
    (split; [done|]; split; [done|]; split; [done|]);
    intros a Ha; unfold set_class; cbn [attributes set_attributes];
    by apply get_attr_set_attr_ne.
Qed.

Lemma is_current_nav_toggle route e :
  is_current route (nav_toggle route e) = is_current route e.
Proof.
  unfold is_current, nav_toggle.
  destruct (classList_toggle_frame "active" (is_current route e) e)
    as (_ & _ & _ & H).
  unfold is_current in H. by rewrite H.
Qed.

Lemma nav_toggle_active route e :
  existsb (String.eqb "active") (class_tokens (nav_toggle route e))
  = is_current route e.
Proof.
  pose proof (classList_toggle_In "active" (is_current route e) e "active"
                is_token_active) as H.
  rewrite String.eqb_refl in H. fold (nav_toggle route e) in H.
  destruct (is_current route e).
  - apply mem_In. by apply H.
  - apply mem_not_In. intros Hin. by apply H in Hin.
Qed.

Lemma nav_toggle_idem route e :
  nav_toggle route (nav_toggle route e) = nav_toggle route e.
Proof.
  unfold nav_toggle at 1. unfold classList_toggle.
  rewrite nav_toggle_active, is_current_nav_toggle.
  by destruct (is_current route e).
Qed.

(** ** The selection *)

Lemma select_class_list_sound c (sel : node -> list path) cs k x :
  x ∈ select_class_list c sel cs k ->
  exists i n r, x = (k + i) :: r /\ cs !! i = Some n /\ is_detached n = false
                /\ ((r = [] /\ has_class c n = true) \/ r ∈ sel n).
Proof.
  revert k. induction cs as [|c0 cs IH]; intros k Hx; simpl in Hx.
  - by apply elem_of_nil in Hx.
  - apply elem_of_app in Hx as [Hx|Hx].
    + destruct (is_detached c0) eqn:Hd; [by apply elem_of_nil in Hx|].
      exists 0, c0. rewrite Nat.add_0_r.
      apply elem_of_app in Hx as [Hx|Hx].
      * destruct (has_class c c0) eqn:Ha; [|by apply elem_of_nil in Hx].
        apply list_elem_of_singleton in Hx as ->. exists [].
        split; [done|]. split; [done|]. split; [done|]. by left.
      * apply list_elem_of_fmap in Hx as (r & -> & Hr). exists r.
        split; [done|]. split; [done|]. split; [done|]. by right.
    + destruct (IH (S k) Hx) as (i & n & r & -> & Hc & Hd & Hr).
      exists (S i), n, r. replace (k + S i) with (S k + i) by lia.
      split; [done|]. split; [done|]. split; done.
Qed.

Lemma select_class_sound c q : forall n,
  q ∈ select_class c n ->
  q <> [] /\ present n q = true
  /\ exists m, lookup_node q n = Some m /\ has_class c m = true.
Proof.
  induction q as [|i q IH]; intros n Hq.
  - destruct n as [t|d e cs]; simpl in Hq; [by apply elem_of_nil in Hq|].
    by apply select_class_list_sound in Hq as (i & m & r & ? & _).
  - destruct n as [t|d e cs]; simpl in Hq; [by apply elem_of_nil in Hq|].
    apply select_class_list_sound in Hq as (j & m & r & [= -> ->] & Hc & Hd & Hr).
    split; [done|]. rewrite lookup_node_cons. simpl. rewrite Hc, Hd. simpl.
    destruct Hr as [[-> Ha]|Hr]; [eauto|].
    destruct (IH m Hr) as (_ & Hp & Hm). eauto.
Qed.

Lemma select_class_list_complete c (sel : node -> list path) cs k i n :
  cs !! i = Some n -> is_detached n = false ->
  (has_class c n = true -> [k + i] ∈ select_class_list c sel cs k)
  /\ (forall x, x ∈ sel n -> (k + i) :: x ∈ select_class_list c sel cs k).
Proof.
  revert k i. induction cs as [|c0 cs IH]; intros k i Hi Hd; [done|].
  destruct i as [|i]; simpl in Hi.
  - injection Hi as ->. simpl. rewrite Hd, Nat.add_0_r. split.
    + intros ->. apply elem_of_app. left. apply elem_of_app. left.
      by apply elem_of_cons; left.
    + intros x Hx. apply elem_of_app. left. apply elem_of_app. right.
      apply list_elem_of_fmap. eauto.
  - destruct (IH (S k) i Hi Hd) as [H1 H2].
    replace (k + S i) with (S k + i) by lia. simpl. split.
    + intros Ha. apply elem_of_app. right. by apply H1.
    + intros x Hx. apply elem_of_app. right. by apply H2.
Qed.

Lemma select_class_complete c q n m :
  q <> [] -> present n q = true -> lookup_node q n = Some m ->
  has_class c m = true -> q ∈ select_class c n.
Proof.
  revert n. induction q as [|i q IH]; intros n Hq Hp Hl Ha; [done|].
  rewrite lookup_node_cons in Hl. simpl in Hp.
  destruct n as [t|d e cs]; [done|]. simpl in *.
  destruct (cs !! i) as [c0|] eqn:Hc; [|done]. simpl in Hl.
  apply andb_true_iff in Hp as [Hd Hp]. apply negb_true_iff in Hd.
  destruct (select_class_list_complete c (select_class c) cs 0 i c0 Hc Hd)
    as [H1 H2].
  destruct q as [|j q].
  - injection Hl as ->. by apply H1.
  - apply H2. by apply IH.
Qed.

(** The elements selected are the elements of the document with the
    class. *)
Lemma querySelectorAll_class_spec c s q :
  q ∈ querySelectorAll_class c s
  <-> present (document s) q = true
      /\ exists m, lookup_node q (document s) = Some m /\ has_class c m = true.
Proof.
  unfold querySelectorAll_class. rewrite elem_of_app. split.
  - intros [H|H].
    + destruct (has_class c (document s)) eqn:E; [|by apply elem_of_nil in H].
      apply list_elem_of_singleton in H as ->. eauto.
    + apply select_class_sound in H as (_ & Hp & Hm). eauto.
  - intros (Hp & m & Hm & Hc). destruct q as [|i q].
    + left. simpl in Hm. injection Hm as <-. rewrite Hc.
      by apply list_elem_of_singleton.
    + right. by eapply select_class_complete.
Qed.

(** ** The pass over the links *)

Lemma look_map_elem h n n' :
  look n = look n' -> look (map_elem h n) = look (map_elem h n').
Proof.
  destruct n as [t|d e cs], n' as [t'|d' e' cs']; try done.
  intros [= -> -> H]. simpl. by rewrite H.
Qed.

Lemma alter_node_fix f p n :
  (forall m, lookup_node p n = Some m -> f m = m) -> alter_node f p n = n.
Proof.
  revert n. induction p as [|i p IH]; intros n H.
  - simpl. by apply H.
  - destruct n as [t|d e cs]; [done|]. simpl. f_equal.
    apply list_eq. intros j. destruct (decide (j = i)) as [->|Hne].
    + rewrite list_lookup_alter_eq. destruct (cs !! i) as [c|] eqn:Hc; [|done].
      simpl. f_equal. apply IH. intros m Hm. apply H.
      by rewrite lookup_node_cons; simpl; rewrite Hc.
    + by rewrite list_lookup_alter_ne.
Qed.

Lemma with_document_same s : with_document (document s) s = s.
Proof. by destruct s. Qed.

Lemma forEach_fix (F : path -> State -> State) L s :
  (forall p, p ∈ L -> F p s = s) -> forEach F L s = s.
Proof.
  unfold forEach. induction L as [|p L IH]; intros H; [done|]. simpl.
  rewrite H by (by apply elem_of_cons; left). apply IH.
  intros q Hq. apply H. by apply elem_of_cons; right.
Qed.

(** A pass that applies an idempotent change of the element data to the
    nodes of a list: each node of the list is changed, the others are
    not. *)
Lemma forEach_map_elem h L : forall s q,
  (forall e, h (h e) = h e) ->
  let F := fun a s =>
             with_document (alter_node (map_elem h) a (document s)) s in
  store (forEach F L s) = store s /\ handlers (forEach F L s) = handlers s
  /\ look <$> lookup_node q (document (forEach F L s))
     = look <$> ((if bool_decide (q ∈ L) then map_elem h else id)
                   <$> lookup_node q (document s)).
Proof.
  unfold forEach. induction L as [|p L IH]; intros s q Hh; cbv zeta.
  - simpl. split; [done|]. split; [done|]. by destruct (lookup_node q _).
  - cbn [fold_left]. destruct (IH (with_document
                                   (alter_node (map_elem h) p (document s)) s)
                                q Hh) as (H1 & H2 & H3).
    cbv zeta in H1, H2, H3. rewrite H1, H2, H3. split; [done|]. split; [done|].
    cbn [document with_document]. destruct (decide (q = p)) as [->|Hne].
    + rewrite lookup_alter_eq.
      rewrite (bool_decide_eq_true_2 (p ∈ p :: L)) by (by apply elem_of_cons; left).
      destruct (lookup_node p (document s)) as [n|]; [|done]. simpl.
      f_equal. destruct (bool_decide (p ∈ L)); [|done].
      destruct n as [t|d e cs]; [done|]. simpl. by rewrite Hh.
    + assert (Hl : look <$> lookup_node q (alter_node (map_elem h) p (document s))
                   = look <$> lookup_node q (document s)).
      { apply lookup_alter_ne; [apply shallow_look|apply local_map_elem|done]. }
      assert (Hb : bool_decide (q ∈ p :: L) = bool_decide (q ∈ L)).
      { apply bool_decide_ext. rewrite elem_of_cons.
        split; [by intros [?|?]|by right]. }
      rewrite Hb.
      destruct (lookup_node q (alter_node _ _ _)) as [n1|],
               (lookup_node q (document s)) as [n|]; try done.
      simpl in *. injection Hl as Hl. f_equal.
      destruct (bool_decide (q ∈ L)); [by apply look_map_elem|done].
Qed.

(** X22: [updateNavActive] marks the links of the current route, and
    only them. Every element of the document with class [nav-link] ends
    with class [active] exactly when its [href] is [#] followed by the
    route of the hash; its other classes and its other attributes are
    kept. Every other node, every text, every flag, value and listener,
    the store and the subscribers are as before. *)
Theorem updateNavActive_spec hash s q n :
  lookup_node q (document s) = Some n ->
  let s' := updateNavActive hash s in
  let link := present (document s) q && has_class "nav-link" n in
  store s' = store s /\ handlers s' = handlers s
  /\ exists n',
       lookup_node q (document s') = Some n'
       /\ kind n' = kind n /\ is_detached n' = is_detached n
       /\ displayed q s' = displayed q s
       /\ (forall a, a <> "class" -> node_attr a n' = node_attr a n)
       /\ (forall t, t <> "active" -> has_class t n' = has_class t n)
       /\ has_class "active" n'
          = (if link then links_to (route_of_hash hash) n
             else has_class "active" n)
       /\ (link = false -> look n' = look n).
Proof.
  intros Hn. cbv zeta. unfold updateNavActive.
  destruct (forEach_map_elem (nav_toggle (route_of_hash hash))
              (querySelectorAll_class "nav-link" s) s q
              (nav_toggle_idem (route_of_hash hash))) as (H1 & H2 & H3).
  cbv zeta in H1, H2, H3. split; [exact H1|]. split; [exact H2|].
  rewrite Hn in H3. unfold displayed. rewrite Hn.
  destruct (lookup_node q (document (forEach _ _ s))) as [n'|]; [|done].
  exists n'. split; [done|]. cbn [fmap option_fmap option_map] in H3.
  injection H3 as H3.
  destruct (bool_decide (q ∈ querySelectorAll_class "nav-link" s)) eqn:Hsel.
  - apply bool_decide_eq_true in Hsel.
    apply querySelectorAll_class_spec in Hsel as (Hp & m & Hm & Hc).
    rewrite Hn in Hm. injection Hm as <-. rewrite Hp, Hc. cbn [andb].
    destruct n as [t|d e cs]; [done|]. cbn [map_elem] in H3.
    destruct n' as [t'|d' e' cs']; [done|]. injection H3 as -> -> H3.
    destruct (classList_toggle_frame "active"
                (is_current (route_of_hash hash) e) e) as (F1 & F2 & F3 & F4).
    fold (nav_toggle (route_of_hash hash) e) in F1, F2, F3, F4.
    split; [unfold kind; cbn [children]; by rewrite H3|].
    split; [done|]. split; [by rewrite F2|]. split; [exact F4|]. split.
    + intros t Ht. cbn [has_class]. apply existsb_ext_In. unfold nav_toggle.
      rewrite (classList_toggle_In "active" _ e t is_token_active).
      apply String.eqb_neq in Ht. by rewrite Ht.
    + split; [|done]. cbn [has_class links_to]. apply nav_toggle_active.
  - assert (Hlink : present (document s) q && has_class "nav-link" n = false).
    { apply bool_decide_eq_false in Hsel.
      destruct (present (document s) q && has_class "nav-link" n) eqn:E; [|done].
      apply andb_true_iff in E as [Hp Hc]. destruct Hsel.
      apply querySelectorAll_class_spec. eauto. }
    rewrite Hlink. unfold id in H3.
    destruct n as [t|d e cs], n' as [t'|d' e' cs']; try done;
      try (injection H3 as ->; done).
    injection H3 as -> -> H3.
    split; [unfold kind; cbn [children]; by rewrite H3|].
    repeat (split; [done|]). intros _. simpl. by rewrite H3.
Qed.

(** The link to [about] becomes the active one. *)
Lemma updateNavActive_spec_witness :
  lookup_node [0; 1] (document Ex2.nav_page) = Some Ex2.about_link
  /\ getAttribute [0; 0] "class" (updateNavActive "#about" Ex2.nav_page)
     = Some "nav-link"
  /\ getAttribute [0; 1] "class" (updateNavActive "#about" Ex2.nav_page)
     = Some "nav-link active"
  /\ let s' := updateNavActive "#about" Ex2.nav_page in
     let link := present (document Ex2.nav_page) [0; 1]
                 && has_class "nav-link" Ex2.about_link in
     store s' = store Ex2.nav_page /\ handlers s' = handlers Ex2.nav_page
     /\ exists n',
          lookup_node [0; 1] (document s') = Some n'
          /\ kind n' = kind Ex2.about_link
          /\ is_detached n' = is_detached Ex2.about_link
          /\ displayed [0; 1] s' = displayed [0; 1] Ex2.nav_page
          /\ (forall a, a <> "class" ->
                node_attr a n' = node_attr a Ex2.about_link)
          /\ (forall t, t <> "active" ->
                has_class t n' = has_class t Ex2.about_link)
          /\ has_class "active" n'
             = (if link then links_to (route_of_hash "#about") Ex2.about_link
                else has_class "active" Ex2.about_link)
          /\ (link = false -> look n' = look Ex2.about_link).
Proof.
  assert (H : lookup_node [0; 1] (document Ex2.nav_page) = Some Ex2.about_link)
    by reflexivity.
  assert (H1 : getAttribute [0; 0] "class" (updateNavActive "#about" Ex2.nav_page)
               = Some "nav-link") by (vm_compute; reflexivity).
  assert (H2 : getAttribute [0; 1] "class" (updateNavActive "#about" Ex2.nav_page)
               = Some "nav-link active") by (vm_compute; reflexivity).
  exact (conj H (conj H1 (conj H2
           (updateNavActive_spec "#about" Ex2.nav_page [0; 1]
              Ex2.about_link H)))).
Defined.

Lemma has_class_look c n n' : look n = look n' -> has_class c n = has_class c n'.
Proof.
  destruct n as [t|d e cs], n' as [t'|d' e' cs']; try done.
  by intros [= _ -> _].
Qed.

Lemma is_detached_look n n' : look n = look n' -> is_detached n = is_detached n'.
Proof.
  destruct n as [t|d e cs], n' as [t'|d' e' cs']; try done.
  by intros [= -> _ _].
Qed.

Lemma updateNavActive_flags hash s q :
  is_detached <$> lookup_node q (document (updateNavActive hash s))
  = is_detached <$> lookup_node q (document s).
Proof.
  unfold updateNavActive.
  destruct (forEach_map_elem (nav_toggle (route_of_hash hash))
              (querySelectorAll_class "nav-link" s) s q
              (nav_toggle_idem (route_of_hash hash))) as (_ & _ & H).
  cbv zeta in H.
  destruct (lookup_node q (document (forEach _ _ s))) as [n'|],
           (lookup_node q (document s)) as [n|]; try done.
  cbn [fmap option_fmap option_map] in *. injection H as H. f_equal.
  rewrite (is_detached_look _ _ H).
  destruct (bool_decide _); [by destruct n|done].
Qed.

Lemma updateNavActive_present hash s q :
  present (document (updateNavActive hash s)) q = present (document s) q.
Proof.
  destruct (present (document s) q) eqn:E.
  - apply present_spec. intros q1 q2 Hq Hne. rewrite updateNavActive_flags.
    by apply (proj1 (present_spec _ _) E q1 q2).
  - destruct (present (document (updateNavActive hash s)) q) eqn:E'; [|done].
    rewrite <- E. symmetry. apply present_spec. intros q1 q2 Hq Hne.
    rewrite <- (updateNavActive_flags hash).
    by apply (proj1 (present_spec _ _) E' q1 q2).
Qed.

(** X23: [updateNavActive] is idempotent: running it again for the same
    hash changes nothing, not even the text of a [class] attribute. *)
Theorem updateNavActive_idempotent hash s :
  updateNavActive hash (updateNavActive hash s) = updateNavActive hash s.
Proof.
  set (s' := updateNavActive hash s). unfold updateNavActive at 1.
  apply forEach_fix. intros p Hp.
  rewrite alter_node_fix; [apply with_document_same|]. intros m' Hm'.
  apply querySelectorAll_class_spec in Hp as (Hpres & m & Hm & Hc).
  rewrite Hm' in Hm. injection Hm as <-.
  unfold s' in Hpres. rewrite updateNavActive_present in Hpres.
  pose proof (forEach_map_elem (nav_toggle (route_of_hash hash))
                (querySelectorAll_class "nav-link" s) s p
                (nav_toggle_idem (route_of_hash hash))) as (_ & _ & H).
  cbv zeta in H. fold (updateNavActive hash s) in H. fold s' in H.
  rewrite Hm' in H.
  destruct (lookup_node p (document s)) as [m0|] eqn:Hm0; [|done].
  cbn [fmap option_fmap option_map] in H. injection H as H.
  destruct (bool_decide (p ∈ querySelectorAll_class "nav-link" s)) eqn:Hsel.
  - destruct m0 as [t|d e cs], m' as [t'|d' e' cs']; try done.
    cbn [map_elem] in *. injection H as -> -> _. by rewrite nav_toggle_idem.
  - apply bool_decide_eq_false in Hsel. destruct Hsel.
    apply querySelectorAll_class_spec. split; [done|]. exists m0.
    split; [done|]. unfold id in H. by rewrite <- (has_class_look _ _ _ H).
Qed.

(** * The substitution of the loop variable *)

Lemma strip_prefix_app p x : Re.strip_prefix p (p +:+ x) = Some x.
Proof.
  induction p as [|a p IH]; [done|]. rewrite append_cons_l.
  cbn [Re.strip_prefix]. by rewrite Ascii.eqb_refl.
Qed.

Lemma strip_prefix_head a p b s :
  Ascii.eqb a b = false -> Re.strip_prefix (String a p) (String b s) = None.
Proof. intros H. cbn [Re.strip_prefix]. by rewrite H. Qed.

Lemma includes_cons p a s :
  Re.includes p (String a s)
  = match Re.strip_prefix p (String a s) with
    | Some _ => true
    | None => Re.includes p s
    end.
Proof. done. Qed.

(** Where the text does not include [p], no suffix starts with [p]. *)
Lemma includes_suffix p pre s :
  Re.includes p (pre +:+ s) = false -> Re.strip_prefix p s = None.
Proof.
  induction pre as [|a pre IH].
  - rewrite append_nil_l. destruct s as [|b s].
    + cbn [Re.includes]. by destruct (Re.strip_prefix p "").
    + rewrite includes_cons. by destruct (Re.strip_prefix p (String b s)).
  - rewrite append_cons_l, includes_cons.
    destruct (Re.strip_prefix p (String a (pre +:+ s))); [done|]. apply IH.
Qed.

Lemma includes_app_r p pre x : Re.includes p (pre +:+ p +:+ x) = true.
Proof.
  induction pre as [|a pre IH].
  - rewrite append_nil_l. eapply includes_prefix. apply strip_prefix_app.
  - rewrite append_cons_l, includes_cons.
    by destruct (Re.strip_prefix p (String a (pre +:+ p +:+ x))).
Qed.

Section ReplaceFacts.
Context {L : Type}.
Variable pat : option ascii -> string -> option (string * string).
Variable repl : string -> string -> string -> string -> string * list L.

(** A pattern that matches at no position leaves the text as it is. *)
Lemma replace_go_no_match s : forall fuel before,
  String.length s < fuel ->
  (forall prev pre s', s = pre +:+ s' -> pat prev s' = None) ->
  Re.replace_go pat repl fuel before s = (s, []).
Proof.
  induction s as [|c s IH]; intros fuel before Hf Hno.
  - destruct fuel as [|fuel]; [simpl in Hf; lia|]. cbn [Re.replace_go].
    by rewrite (Hno _ "" "" eq_refl).
  - destruct fuel as [|fuel]; [simpl in Hf; lia|]. cbn [Re.replace_go].
    rewrite (Hno _ "" (String c s) eq_refl).
    rewrite IH; [done|simpl in Hf; lia|].
    intros prev pre s' ->. apply (Hno prev (String c pre)). done.
Qed.

Lemma replace_all_no_match s :
  (forall prev pre s', s = pre +:+ s' -> pat prev s' = None) ->
  Re.replace_all pat repl s = (s, []).
Proof. intros H. apply replace_go_no_match; [lia|done]. Qed.

(** The scan over a prefix in which the pattern matches nowhere. *)
Lemma replace_go_prefix u : forall fuel before s,
  (forall prev pre u', u = pre +:+ u' -> u' <> "" ->
     pat prev (u' +:+ s) = None) ->
  Re.replace_go pat repl (String.length u + fuel) before (u +:+ s)
  = let '(out, l) := Re.replace_go pat repl fuel (before +:+ u) s in
    (u +:+ out, l).
Proof.
  induction u as [|a u IH]; intros fuel before s Hno.
  - rewrite append_nil_l, append_empty_r. cbn [String.length Nat.add].
    by destruct (Re.replace_go pat repl fuel before s).
  - rewrite append_cons_l. cbn [String.length Nat.add Re.replace_go].
    pose proof (Hno (Re.last_char before) "" (String a u) eq_refl) as H0.
    rewrite append_cons_l in H0. rewrite H0 by done.
    rewrite IH.
    + rewrite append_assoc, append_cons_l, append_nil_l.
      destruct (Re.replace_go pat repl fuel (before +:+ String a u) s).
      by rewrite append_cons_l.
    + intros prev pre u' -> Hne. apply (Hno prev (String a pre)); done.
Qed.

End ReplaceFacts.

Lemma all_chars_suffix f pre s :
  all_chars f (pre +:+ s) = true -> all_chars f s = true.
Proof.
  induction pre as [|a pre IH]; [done|]. rewrite append_cons_l.
  cbn [all_chars]. intros [_ H]%andb_true_iff. by apply IH.
Qed.


Section Substitution.
Variable js_eval_item :
  string -> jsval -> string -> gmap string jsval -> option jsval.


(** X25: in an attribute value, the name of the loop variable is
    replaced together with the single character that follows it, by what
    the name and that character evaluate to; when that is no expression
    (the name and a dot, as in a property access), both are deleted and
    the rest of the access stays. The item does not reach the
    attribute. *)
Theorem subst_attr_drops_item name u c tail item st :
  name <> "" -> all_chars Re.is_word name = true ->
  all_chars (fun a => negb (Re.is_word a)) u = true ->
  Re.is_dot c = true ->
  js_eval_item name item (name +:+ String c EmptyString) st = None ->
  Re.includes name (u +:+ tail) = false ->
  subst_attr js_eval_item name item st (u +:+ name +:+ String c tail)
  = u +:+ tail.
Proof.
  intros Hne Hw Hu Hc Hv Hinc. unfold subst_attr.
  destruct name as [|n0 name]; [done|].
  assert (Hn0 : Re.is_word n0 = true).
  { cbn [all_chars] in Hw. by apply andb_true_iff in Hw as [Hw _]. }
  set (s := String n0 name +:+ String c tail).
  assert (Hguard : negb (String.eqb (u +:+ s) "") && Re.includes (String n0 name) (u +:+ s)
                   = true).
  { apply andb_true_iff. split; [|apply includes_app_r].
    apply negb_true_iff, String.eqb_neq. intros H.
    apply append_eq_empty in H as [_ H]. done. }
  rewrite Hguard.
  assert (Hno : forall pre s', u +:+ tail = pre +:+ s' ->
                  Re.strip_prefix (String n0 name) s' = None).
  { intros pre s' H. apply (includes_suffix _ pre). by rewrite <- H. }
  assert (H1 : Re.replace_all (Re.pat_attr_expr (String n0 name))
                 (item_callback js_eval_item (String n0 name) item st) (u +:+ s)
               = (u +:+ tail, [])).
  { unfold Re.replace_all. rewrite append_length.
    replace (S (String.length u + String.length s))
      with (String.length u + S (String.length s)) by lia.
    rewrite replace_go_prefix.
    - cbn [Re.replace_go]. unfold Re.pat_attr_expr at 1. unfold s at 1.
      rewrite strip_prefix_app, Hc. unfold item_callback at 1. rewrite Hv.
      rewrite replace_go_no_match.
      + by rewrite append_nil_l.
      + unfold s. rewrite append_length. simpl. lia.
      + intros prev pre s' Hps. unfold Re.pat_attr_expr.
        rewrite (Hno (u +:+ pre) s'); [done|].
        by rewrite Hps, append_assoc.
    - intros prev pre u' -> Hne'. unfold Re.pat_attr_expr.
      destruct u' as [|a u']; [done|]. apply all_chars_suffix in Hu.
      cbn [all_chars] in Hu. apply andb_true_iff in Hu as [Ha _].
      apply negb_true_iff in Ha. rewrite append_cons_l, strip_prefix_head; [done|].
      destruct (Ascii.eqb n0 a) eqn:E; [|done].
      apply Ascii.eqb_eq in E as ->. congruence. }
  rewrite H1. cbn [fst]. rewrite replace_all_no_match; [done|].
  intros prev pre s' Hps. unfold Re.pat_attr_word.
  rewrite (Hno pre s' Hps). by destruct prev as [a|]; [destruct (Re.is_word a)|].
Qed.

End Substitution.


Lemma subst_attr_drops_item_witness :
  subst_attr Toy.js_eval_item "t" (VObj [("name", VStr "ann")]) ∅
    "{{ t.name }}" = "{{ name }}".
Proof.
  assert (H : Toy.js_eval_item "t" (VObj [("name", VStr "ann")]) "t." ∅ = None)
    by (vm_compute; reflexivity).
  apply (subst_attr_drops_item Toy.js_eval_item "t" "{{ " "." "name }}"
           (VObj [("name", VStr "ann")]) ∅); try done.
Defined.

(** * Binding a control, then typing *)

Section BindThenType.
Variable js_eval : string -> gmap string jsval -> option jsval.
Variable js_exec :
  string -> option jsval -> gmap string jsval -> list write * bool.



End BindThenType.


(** * The theme across page loads *)

Section Persist.
Variable js_eval : string -> gmap string jsval -> option jsval.

(** X27: the theme survives a reload. After a toggle, a page load that
    finds the local storage the toggle left starts with the toggled
    theme, and the first statements of [init] put its class on the body,
    without throwing and without changing the local storage. *)
Theorem theme_persists a hash doc classes :
  let a1 := settled (toggleTheme js_eval a) in
  let b := boot hash doc classes (localStorage a1) in
  theme_of b = theme_of a1
  /\ exists b',
       init_theme b = Normal b'
       /\ theme_of b' = theme_of a1
       /\ In ("theme-" +:+ toggled (theme_of a)) (body_classes b')
       /\ localStorage b' = localStorage a1.
Proof.
  cbv zeta. destruct (toggleTheme_theme js_eval a) as (a1 & E & T & Hls).
  rewrite E. cbn [settled].
  assert (Ht : toggled (theme_of a) = "light" \/ toggled (theme_of a) = "dark").
  { destruct (toggled_cases (theme_of a)) as [[_ ->]|[_ ->]]; auto. }
  assert (Hi : initial_theme (localStorage a1) = toggled (theme_of a)).
  { unfold initial_theme. rewrite Hls. by destruct Ht as [-> | ->]. }
  assert (Hb : theme_of (boot hash doc classes (localStorage a1))
               = VStr (toggled (theme_of a))).
  { unfold theme_of, boot, initial_store. cbn [page store].
    by rewrite lookup_insert_eq, Hi. }
  split; [by transitivity (VStr (toggled (theme_of a)))|].
  unfold init_theme. rewrite Hb.
  assert (Htr : truthy (VStr (toggled (theme_of a))) = true)
    by by destruct Ht as [-> | ->].
  rewrite Htr.
  set (b1 := with_page _ _).
  assert (Hb1 : theme_of b1 = VStr (toggled (theme_of a))).
  { unfold theme_of, b1. cbn [page with_page store with_store].
    by rewrite lookup_insert_eq. }
  destruct (applyTheme_theme b1 _ Hb1 Ht) as (cl' & -> & Hin).
  eexists. split; [reflexivity|]. cbn [body_classes localStorage page].
  split; [|split].
  - rewrite T. unfold theme_of. cbn [page store]. unfold b1.
    cbn [page with_page store with_store]. by rewrite lookup_insert_eq.
  - apply Hin. by right.
  - unfold b1. cbn [localStorage with_page boot]. by apply insert_id.
Qed.

End Persist.
